(** * Streamline: the Reflex camera-data ring and the Vulkan hook dispatch

    A shallow embedding of two pieces of the Streamline sources:

    - [ReflexCameraDataManager] of [source/plugins/sl.reflex/reflexEntry.cpp],
      the frame-indexed ring through which the simulation thread hands camera
      data to the render and present threads, together with the two query
      entry points [slReflexGetCameraDataInternal] and
      [slReflexGetPredictedCameraData];
    - the hooked entry points of
      [source/core/sl.interposer/vulkan/wrapper.cpp], which run the
      before-hooks of the plugins, the driver's function unless a hook asked
      to skip it, and the after-hooks.

    Unsigned 32-bit values are integers of [Z] with the wrap-around written
    out where the code can overflow. *)

From stdpp Require Import base list numbers.
From stdpp Require gmap strings.
From Stdlib Require DecimalString HexadecimalString DecimalN HexadecimalN.

Local Open Scope Z_scope.

(** ** Machine integers *)

(** Reduction of an integer to [uint32_t]. *)
Definition u32 (z : Z) : Z := z mod 2 ^ 32.

(** The values a [uint32_t] can hold. *)
Definition is_u32 (z : Z) : Prop := 0 ≤ z < 2 ^ 32.

(** ** Results of calls that may throw *)

(** [std::vector::at] throws [std::out_of_range]; [Fuel] is the end of the
    unrolling of [while (true)] in the model and never a result of the code. *)
Inductive outcome (A : Type) : Type :=
  | Ret (a : A)
  | OutOfRange
  | Fuel.
Arguments Ret {A} a.
Arguments OutOfRange {A}.
Arguments Fuel {A}.

Global Instance outcome_bind : MBind outcome := λ A B k c,
  match c with
  | Ret a => k a
  | OutOfRange => OutOfRange
  | Fuel => Fuel
  end.

(** [v.at(i)] on a [std::vector]. *)
Definition at_ {A : Type} (v : list A) (i : Z) : outcome A :=
  match v !! Z.to_nat i with
  | Some x => Ret x
  | None => OutOfRange
  end.

Module Reflex.

(** ** What a call does besides returning *)

(** The texts of the log calls of the camera-data code, with their
    arguments. *)
Inductive message : Type :=
  | AlreadySet (frameID : Z)
      (* "Camera data for frame %d already set!" *)
  | OutOfOrder (last pushing : Z)
      (* "Out of order camera data detected! last: %d, pushing: %d" *)
  | NotReadilyAvailable (frameID : Z)
      (* "Camera data for frame %d was not readily available, ..." *)
  | TimeOut (frameID wait_ms : Z)
      (* "Time out trying to get data for frame %d (wait %dms)" *)
  | CouldNotGet (frame : Z)
      (* "Could not get camera data for frame %d" *)
  | CouldNotGetPredicted (frame : Z).
      (* "Could not get predicted camera data for frame %d" *)

(** The calls a thread makes on the logger and on the condition variable
    [getFrameCV], in program order.  [wait_for timeout r] is one call of
    [getFrameCV.wait_for] with that timeout in milliseconds, which returned
    [r]. *)
Inductive action : Type :=
  | SL_LOG_WARN (m : message)
  | SL_LOG_ERROR (m : message)
  | notify_one
  | wait_for (timeout_ms : Z) (r : bool).

Definition is_warning (a : action) : bool :=
  match a with SL_LOG_WARN _ => true | _ => false end.

Definition is_error (a : action) : bool :=
  match a with SL_LOG_ERROR _ => true | _ => false end.

(** The waits of a trace that were asked to block for a positive time. *)
Definition blocking (a : action) : bool :=
  match a with wait_for t _ => 0 <? t | _ => false end.

Section CameraDataManager.

(** The payload [T] of the template, and [T{}]. *)
Context {T : Type}.
Variable T_default : T.

(** [MAX_FRAMES_IN_FLIGHT] comes from a header of the plugin; the ring is
    verified for every value of it, and the statements say where they need
    it to be positive. *)
Variable MAX_FRAMES_IN_FLIGHT : Z.

(** The data members; the mutex and the condition variable are in the
    interleaving of [getCameraData] below. *)
Record ReflexCameraDataManager : Type := {
  cameraData : list (Z * T);
  lastFrame : Z
}.

(** The constructor: [resize] value-initialises every pair. *)
Definition construct : ReflexCameraDataManager :=
  {| cameraData := replicate (Z.to_nat MAX_FRAMES_IN_FLIGHT) (0, T_default);
     lastFrame := 0 |}.

Definition insertCameraData (frameID : Z) (inCameraData : T)
    (this : ReflexCameraDataManager)
  : outcome (ReflexCameraDataManager * list action) :=
  if frameID <=? 0 then
    Ret (this, [])  (* first frame data not used *)
  else
    availableCameraData ←
      at_ (cameraData this) (frameID mod MAX_FRAMES_IN_FLIGHT);
    if frameID =? availableCameraData.1 then
      Ret (this, [SL_LOG_WARN (AlreadySet frameID)])
    else
      let warn :=
        if negb (u32 (lastFrame this + 1) =? frameID)
        then [SL_LOG_WARN (OutOfOrder (lastFrame this) frameID)]
        else [] in
      Ret ({| cameraData :=
                <[Z.to_nat (frameID mod MAX_FRAMES_IN_FLIGHT) :=
                    (frameID, inCameraData)]> (cameraData this);
              lastFrame := frameID |},
           warn ++ [notify_one]).

(** *** The other threads

    [getCameraData] releases [framesMutex] between its two locked blocks,
    inside [wait_for], and before it loops.  What the producers do in one
    such window is a list of [insertCameraData] calls; [timed_out] says
    how a [wait_until] inside [wait_for] ended when the window is one.
    When the list of windows is used up nothing happens any more, and a
    wait ends by its deadline. *)
Record interference : Type := {
  producers : list (Z * T);
  timed_out : bool
}.

(** The producers' own log lines are theirs, not the reader's. *)
Fixpoint apply_producers (ps : list (Z * T)) (this : ReflexCameraDataManager)
  : ReflexCameraDataManager :=
  match ps with
  | [] => this
  | (frameID, data) :: ps' =>
      match insertCameraData frameID data this with
      | Ret (this', _) => apply_producers ps' this'
      | _ => apply_producers ps' this
      end
  end.

Definition unlocked (env : list interference) (this : ReflexCameraDataManager)
  : ReflexCameraDataManager * list interference :=
  match env with
  | [] => (this, [])
  | e :: env' => (apply_producers (producers e) this, env')
  end.

(** The predicate of the wait:
    [frameID == cameraData.at(frameID % MAX_FRAMES_IN_FLIGHT).first]. *)
Definition frame_arrived (frameID : Z) (this : ReflexCameraDataManager)
  : outcome bool :=
  p ← at_ (cameraData this) (frameID mod MAX_FRAMES_IN_FLIGHT);
  Ret (frameID =? p.1).

(** [cv.wait_for(lock, timeout, pred)] is
    [while (!pred()) if (wait_until(lock, deadline) == timeout) return pred(); return true;]
    and a [wait_until] whose deadline is now reports [timeout]. *)
Fixpoint cv_wait_for (timeout_ms : Z) (frameID : Z)
    (env : list interference) (this : ReflexCameraDataManager)
  : outcome (bool * ReflexCameraDataManager * list interference) :=
  p ← frame_arrived frameID this;
  if (p : bool) then Ret (true, this, env)
  else
    match env with
    | [] => p' ← frame_arrived frameID this; Ret (p', this, [])
    | e :: env' =>
        let this' := apply_producers (producers e) this in
        if (timeout_ms <=? 0) || timed_out e then
          p' ← frame_arrived frameID this'; Ret (p', this', env')
        else cv_wait_for timeout_ms frameID env' this'
    end.

(** [auto timeout = frameID < 5 ? 0ms : 100ms;] *)
Definition timeout (frameID : Z) : Z := if frameID <? 5 then 0 else 100.

(** One unrolling of [while (true)] per unit of [fuel]. *)
Fixpoint getCameraData_loop (fuel : nat) (frameID : Z)
    (env : list interference) (this : ReflexCameraDataManager)
  : outcome (option T * ReflexCameraDataManager * list action
             * list interference) :=
  match fuel with
  | O => Fuel
  | S fuel' =>
      (* Look for frame ID. *)
      availableCameraData ←
        at_ (cameraData this) (frameID mod MAX_FRAMES_IN_FLIGHT);
      if frameID =? availableCameraData.1 then
        Ret (Some availableCameraData.2, this, [], env)
      else
        (* Wait for next frame. *)
        let warn := SL_LOG_WARN (NotReadilyAvailable frameID) in
        let '(this1, env1) := unlocked env this in
        '(woken, this2, env2) ←
          cv_wait_for (timeout frameID) frameID env1 this1;
        if negb woken then
          Ret (None, this2,
               [warn; wait_for (timeout frameID) false]
               ++ (if 0 <? timeout frameID
                   then [SL_LOG_WARN (TimeOut frameID (timeout frameID))]
                   else []),
               env2)
        else
          let '(this3, env3) := unlocked env2 this2 in
          '(r, this4, acts, env4) ←
            getCameraData_loop fuel' frameID env3 this3;
          Ret (r, this4,
               [warn; wait_for (timeout frameID) true] ++ acts, env4)
  end.

(** Every turn of the loop but the last uses up a window, so one more turn
    than there are windows is enough ([getCameraData_returns]). *)
Definition getCameraData (frameID : Z) (env : list interference)
    (this : ReflexCameraDataManager) :=
  getCameraData_loop (S (length env)) frameID env this.

End CameraDataManager.

Arguments ReflexCameraDataManager T : clear implicits.
Arguments interference T : clear implicits.

(** ** The query entry points of the plugin *)

(** The two values of [sl::Result] that the camera queries return. *)
Inductive Result : Type :=
  | eOk
  | eErrorInvalidState.

Section Entry.

(** The payloads are structures of matrices of [float]; the entry points
    only move them. *)
Variables ReflexCameraData ReflexPredictedCameraData : Type.
Variable MAX_FRAMES_IN_FLIGHT : Z.

(** The members of [LatencyContext] that the camera queries touch. *)
Record LatencyContext : Type := {
  simCameraData : ReflexCameraDataManager ReflexCameraData;
  predCameraData : ReflexCameraDataManager ReflexPredictedCameraData;
  predictCamera : bool
}.

(** [outCameraData] is a reference parameter: its value on entry is an
    argument, its value on return the second component of the result. *)
Definition slReflexGetCameraDataInternal (frame : Z)
    (outCameraData : ReflexCameraData)
    (env : list (interference ReflexCameraData)) (ctx : LatencyContext)
  : outcome (Result * ReflexCameraData * LatencyContext * list action
             * list (interference ReflexCameraData)) :=
  '(cameraData, sim, acts, env') ←
    getCameraData MAX_FRAMES_IN_FLIGHT frame env (simCameraData ctx);
  let ctx' := {| simCameraData := sim;
                 predCameraData := predCameraData ctx;
                 predictCamera := predictCamera ctx |} in
  match cameraData with
  | None =>
      Ret (eErrorInvalidState, outCameraData, ctx',
           acts ++ [SL_LOG_WARN (CouldNotGet frame)], env')
  | Some value => Ret (eOk, value, ctx', acts, env')
  end.

Definition slReflexGetPredictedCameraData (frame : Z)
    (outCameraData : ReflexPredictedCameraData)
    (env : list (interference ReflexPredictedCameraData))
    (ctx : LatencyContext)
  : outcome (Result * ReflexPredictedCameraData * LatencyContext
             * list action * list (interference ReflexPredictedCameraData)) :=
  '(cameraData, pred, acts, env') ←
    getCameraData MAX_FRAMES_IN_FLIGHT frame env (predCameraData ctx);
  let ctx' := {| simCameraData := simCameraData ctx;
                 predCameraData := pred;
                 predictCamera := true |} in
  match cameraData with
  | None =>
      Ret (eErrorInvalidState, outCameraData, ctx',
           acts ++ [SL_LOG_WARN (CouldNotGetPredicted frame)], env')
  | Some value => Ret (eOk, value, ctx', acts, env')
  end.

End Entry.

(** ** Notions the statements about the ring use *)

Section Ring.

Context {T : Type}.
Variable N : Z.

(** The physical slot of a frame. *)
Definition slot (frameID : Z) : nat := Z.to_nat (frameID mod N).

(** The vector keeps the size the constructor gave it. *)
Definition ring_sized (this : ReflexCameraDataManager T) : Prop :=
  length (cameraData this) = Z.to_nat N.

(** What the ring holds for a frame: the payload of the frame's slot when
    the slot's index is that very frame. *)
Definition stored (frameID : Z) (this : ReflexCameraDataManager T) : option T :=
  match cameraData this !! slot frameID with
  | Some (g, v) => if frameID =? g then Some v else None
  | None => None
  end.

(** The ring after the producers of each of the windows [env] have run,
    one window after the other. *)
Definition passed (env : list (interference T))
    (this : ReflexCameraDataManager T) : ReflexCameraDataManager T :=
  foldl (λ ring e, apply_producers N (producers e) ring) this env.

(** What the reader itself may log or wait for. *)
Definition reader_action (frameID : Z) (a : action) : Prop :=
  a = SL_LOG_WARN (NotReadilyAvailable frameID)
  ∨ a = SL_LOG_WARN (TimeOut frameID (timeout frameID))
  ∨ ∃ r, a = wait_for (timeout frameID) r.

(** The actions of a turn of the loop that gives up. *)
Definition gave_up (frameID : Z) : list action :=
  [SL_LOG_WARN (NotReadilyAvailable frameID);
   wait_for (timeout frameID) false]
  ++ (if 0 <? timeout frameID
      then [SL_LOG_WARN (TimeOut frameID (timeout frameID))]
      else []).

End Ring.

End Reflex.

Module Interposer.

(** ** The hooked Vulkan entry points *)

(** [VkResult] is an enumeration of [int32_t] values. *)
Definition VkResult : Type := Z.
Definition VK_SUCCESS : VkResult := 0.

(** Dispatchable and non-dispatchable handles, and pointers to the
    structures of the API, are addresses. *)
Definition VkDevice : Type := Z.
Definition VkInstance : Type := Z.
Definition VkQueue : Type := Z.
Definition VkSwapchainKHR : Type := Z.
Definition VkSurfaceKHR : Type := Z.
Definition VkSemaphore : Type := Z.
Definition VkFence : Type := Z.
Definition pointer : Type := Z.

(** The members of [*pAcquireInfo] that [vkAcquireNextImage2KHR] reads. *)
Record VkAcquireNextImageInfoKHR : Type := {
  swapchain : VkSwapchainKHR;
  timeout : Z;
  semaphore : VkSemaphore;
  fence : VkFence
}.

Section Hooks.

(** [World] is everything a hook or the driver can read and write: the
    memory behind the pointers, the state of the device, the state of the
    plugins.  [Feature] is the second component of the pairs that
    [getBeforeHooks] and [getAfterHooks] return. *)
Context {World Feature : Type}.

(** A before-hook receives the arguments of the call and [bool& skip]; an
    after-hook receives what its entry point passes; the functions of the
    tables [s_ddt] and [s_idt] are the driver's. *)
Definition BeforeHook (A : Type) : Type :=
  A → bool → World → VkResult * bool * World.
Definition AfterHook (B : Type) : Type := B → World → VkResult * World.
Definition Native (A : Type) : Type := A → World → VkResult * World.

(** The hooks of the two entry points that return [void]: the call sites
    use no result of theirs. *)
Definition VoidBeforeHook (A : Type) : Type := A → bool → World → bool * World.
Definition VoidNative (A : Type) : Type := A → World → World.

(** The functions an entry point calls, in the order of the calls; a hook
    is named by its pair in the list of hooks. *)
Inductive call (A B : Type) : Type :=
  | CallBefore (hook : BeforeHook A * Feature)
  | CallReal
  | CallAfter (hook : AfterHook B * Feature).
Arguments CallBefore {A B} hook.
Arguments CallReal {A B}.
Arguments CallAfter {A B} hook.

Inductive void_call (A : Type) : Type :=
  | VoidCallBefore (hook : VoidBeforeHook A * Feature)
  | VoidCallReal.
Arguments VoidCallBefore {A} hook.
Arguments VoidCallReal {A}.

(** How a loop over hooks ends: by the [return result;] in its body, or by
    running out of hooks. *)
Inductive before_exit : Type :=
  | ReturnB (result : VkResult) (w : World)
  | DoneB (result : VkResult) (skip : bool) (w : World).

Inductive after_exit : Type :=
  | ReturnA (result : VkResult) (w : World)
  | DoneA (result : VkResult) (w : World).

(** [for (auto [hook, feature] : hooks) { result = hook(args..., skip);
    if (result != VK_SUCCESS) return result; }]
    The second component lists the hooks that were called. *)
Fixpoint forBeforeHooks {A : Type} (hooks : list (BeforeHook A * Feature))
    (args : A) (result : VkResult) (skip : bool) (w : World)
  : before_exit * list (BeforeHook A * Feature) :=
  match hooks with
  | [] => (DoneB result skip w, [])
  | (hook, feature) :: hooks' =>
      let '(result', skip', w') := hook args skip w in
      if negb (result' =? VK_SUCCESS) then
        (ReturnB result' w', [(hook, feature)])
      else
        let '(e, called) := forBeforeHooks hooks' args result' skip' w' in
        (e, (hook, feature) :: called)
  end.

(** [for (auto [hook, feature] : hooks) { result = hook(args...);
    if (result != VK_SUCCESS) return result; }] *)
Fixpoint forAfterHooks {B : Type} (hooks : list (AfterHook B * Feature))
    (args : B) (result : VkResult) (w : World)
  : after_exit * list (AfterHook B * Feature) :=
  match hooks with
  | [] => (DoneA result w, [])
  | (hook, feature) :: hooks' =>
      let '(result', w') := hook args w in
      if negb (result' =? VK_SUCCESS) then
        (ReturnA result' w', [(hook, feature)])
      else
        let '(e, called) := forAfterHooks hooks' args result' w' in
        (e, (hook, feature) :: called)
  end.

(** [for (auto [hook, feature] : hooks) { hook(args..., skip); }] *)
Fixpoint forVoidBeforeHooks {A : Type} (hooks : list (VoidBeforeHook A * Feature))
    (args : A) (skip : bool) (w : World)
  : bool * World * list (VoidBeforeHook A * Feature) :=
  match hooks with
  | [] => (skip, w, [])
  | (hook, feature) :: hooks' =>
      let '(skip', w') := hook args skip w in
      let '(skip'', w'', called) := forVoidBeforeHooks hooks' args skip' w' in
      (skip'', w'', (hook, feature) :: called)
  end.

(** The part of the entry points with after-hooks that follows the loop
    over the before-hooks: [if (!skip) result = real(...);], the loop over
    the after-hooks, [return result;]. *)
Definition real_then_after {A B : Type} (real : Native A)
    (afterHooks : list (AfterHook B * Feature)) (args : A) (afterArgs : B)
    (result : VkResult) (skip : bool) (w : World) (calls : list (call A B))
  : VkResult * World * list (call A B) :=
  let '(result1, w1, calls1) :=
    if negb skip then
      let '(r, w') := real args w in (r, w', calls ++ [CallReal])
    else (result, w, calls) in
  match forAfterHooks afterHooks afterArgs result1 w1 with
  | (ReturnA result2 w2, called) => (result2, w2, calls1 ++ (CallAfter <$> called))
  | (DoneA result2 w2, called) => (result2, w2, calls1 ++ (CallAfter <$> called))
  end.

(** The same for the entry points without after-hooks:
    [if (!skip) result = real(...); return result;]. *)
Definition real_then_return {A : Type} (real : Native A) (args : A)
    (result : VkResult) (skip : bool) (w : World) (calls : list (call A A))
  : VkResult * World * list (call A A) :=
  if negb skip then
    let '(r, w') := real args w in (r, w', calls ++ [CallReal])
  else (result, w, calls).

(** Hooks of [FunctionHookID::eVulkan_DeviceWaitIdle]. *)
Definition vkDeviceWaitIdle
    (hooks : list (BeforeHook VkDevice * Feature))
    (s_ddt_DeviceWaitIdle : Native VkDevice)
    (Device : VkDevice) (w : World)
  : VkResult * World * list (call VkDevice VkDevice) :=
  match forBeforeHooks hooks Device VK_SUCCESS false w with
  | (ReturnB result w', called) => (result, w', CallBefore <$> called)
  | (DoneB result skip w', called) =>
      real_then_return s_ddt_DeviceWaitIdle Device result skip w' (CallBefore <$> called)
  end.

(** Hooks of [FunctionHookID::eVulkan_CreateSwapchainKHR]. *)
Definition vkCreateSwapchainKHR
    (beforeHooks : list (BeforeHook (VkDevice * pointer * pointer * pointer) * Feature))
    (s_ddt_CreateSwapchainKHR : Native (VkDevice * pointer * pointer * pointer))
    (afterHooks : list (AfterHook (VkDevice * pointer * pointer * pointer) * Feature))
    (Device : VkDevice) (CreateInfo Allocator Swapchain : pointer) (w : World)
  : VkResult * World * list (call _ _) :=
  match forBeforeHooks beforeHooks (Device, CreateInfo, Allocator, Swapchain)
          VK_SUCCESS false w with
  | (ReturnB result w', called) => (result, w', CallBefore <$> called)
  | (DoneB result skip w', called) =>
      real_then_after s_ddt_CreateSwapchainKHR afterHooks
        (Device, CreateInfo, Allocator, Swapchain)
        (Device, CreateInfo, Allocator, Swapchain) result skip w' (CallBefore <$> called)
  end.

(** Hooks of [FunctionHookID::eVulkan_DestroySwapchainKHR]. *)
Definition vkDestroySwapchainKHR
    (hooks : list (VoidBeforeHook (VkDevice * VkSwapchainKHR * pointer) * Feature))
    (s_ddt_DestroySwapchainKHR : VoidNative (VkDevice * VkSwapchainKHR * pointer))
    (Device : VkDevice) (Swapchain : VkSwapchainKHR) (Allocator : pointer)
    (w : World)
  : World * list (void_call _) :=
  let '(skip, w', called) :=
    forVoidBeforeHooks hooks (Device, Swapchain, Allocator) false w in
  if negb skip then
    (s_ddt_DestroySwapchainKHR (Device, Swapchain, Allocator) w',
     (VoidCallBefore <$> called) ++ [VoidCallReal])
  else (w', VoidCallBefore <$> called).

(** Hooks of [FunctionHookID::eVulkan_GetSwapchainImagesKHR]. *)
Definition vkGetSwapchainImagesKHR
    (hooks : list (BeforeHook (VkDevice * VkSwapchainKHR * pointer * pointer) * Feature))
    (s_ddt_GetSwapchainImagesKHR : Native (VkDevice * VkSwapchainKHR * pointer * pointer))
    (Device : VkDevice) (Swapchain : VkSwapchainKHR)
    (SwapchainImageCount SwapchainImages : pointer) (w : World)
  : VkResult * World * list (call _ _) :=
  match forBeforeHooks hooks
          (Device, Swapchain, SwapchainImageCount, SwapchainImages)
          VK_SUCCESS false w with
  | (ReturnB result w', called) => (result, w', CallBefore <$> called)
  | (DoneB result skip w', called) =>
      real_then_return s_ddt_GetSwapchainImagesKHR
        (Device, Swapchain, SwapchainImageCount, SwapchainImages)
        result skip w' (CallBefore <$> called)
  end.

(** Hooks of [FunctionHookID::eVulkan_AcquireNextImageKHR]. *)
Definition vkAcquireNextImageKHR
    (hooks : list (BeforeHook (VkDevice * VkSwapchainKHR * Z * VkSemaphore
                               * VkFence * pointer) * Feature))
    (s_ddt_AcquireNextImageKHR
      : Native (VkDevice * VkSwapchainKHR * Z * VkSemaphore * VkFence * pointer))
    (Device : VkDevice) (Swapchain : VkSwapchainKHR) (Timeout : Z)
    (Semaphore : VkSemaphore) (Fence : VkFence) (ImageIndex : pointer)
    (w : World)
  : VkResult * World * list (call _ _) :=
  match forBeforeHooks hooks
          (Device, Swapchain, Timeout, Semaphore, Fence, ImageIndex)
          VK_SUCCESS false w with
  | (ReturnB result w', called) => (result, w', CallBefore <$> called)
  | (DoneB result skip w', called) =>
      real_then_return s_ddt_AcquireNextImageKHR
        (Device, Swapchain, Timeout, Semaphore, Fence, ImageIndex)
        result skip w' (CallBefore <$> called)
  end.

(** Hooks of [FunctionHookID::eVulkan_Present]; the after-hooks of this
    entry point take no argument. *)
Definition vkQueuePresentKHR
    (beforeHooks : list (BeforeHook (VkQueue * pointer) * Feature))
    (s_ddt_QueuePresentKHR : Native (VkQueue * pointer))
    (afterHooks : list (AfterHook () * Feature))
    (Queue : VkQueue) (PresentInfo : pointer) (w : World)
  : VkResult * World * list (call _ _) :=
  match forBeforeHooks beforeHooks (Queue, PresentInfo) VK_SUCCESS false w with
  | (ReturnB result w', called) => (result, w', CallBefore <$> called)
  | (DoneB result skip w', called) =>
      real_then_after s_ddt_QueuePresentKHR afterHooks
        (Queue, PresentInfo) () result skip w' (CallBefore <$> called)
  end.

(** The hooks are those of [FunctionHookID::eVulkan_AcquireNextImageKHR],
    called with the members of [*pAcquireInfo]; the driver gets the
    pointer. *)
Definition vkAcquireNextImage2KHR
    (hooks : list (BeforeHook (VkDevice * VkSwapchainKHR * Z * VkSemaphore
                               * VkFence * pointer) * Feature))
    (s_ddt_AcquireNextImage2KHR : Native (VkDevice * pointer * pointer))
    (device : VkDevice) (pAcquireInfo : pointer)
    (AcquireInfo : VkAcquireNextImageInfoKHR) (pImageIndex : pointer)
    (w : World)
  : VkResult * World * list (call _ _) :=
  let args :=
    (device, swapchain AcquireInfo, timeout AcquireInfo,
     semaphore AcquireInfo, fence AcquireInfo, pImageIndex) in
  match forBeforeHooks hooks args VK_SUCCESS false w with
  | (ReturnB result w', called) => (result, w', CallBefore <$> called)
  | (DoneB result skip w', called) =>
      real_then_return
        (λ _, s_ddt_AcquireNextImage2KHR (device, pAcquireInfo, pImageIndex))
        args result skip w' (CallBefore <$> called)
  end.

(** Hooks of [FunctionHookID::eVulkan_CreateWin32SurfaceKHR]. *)
Definition vkCreateWin32SurfaceKHR
    (beforeHooks : list (BeforeHook (VkInstance * pointer * pointer * pointer) * Feature))
    (s_idt_CreateWin32SurfaceKHR : Native (VkInstance * pointer * pointer * pointer))
    (afterHooks : list (AfterHook (VkInstance * pointer * pointer * pointer) * Feature))
    (Instance : VkInstance) (CreateInfo Allocator Surface : pointer) (w : World)
  : VkResult * World * list (call _ _) :=
  match forBeforeHooks beforeHooks (Instance, CreateInfo, Allocator, Surface)
          VK_SUCCESS false w with
  | (ReturnB result w', called) => (result, w', CallBefore <$> called)
  | (DoneB result skip w', called) =>
      real_then_after s_idt_CreateWin32SurfaceKHR afterHooks
        (Instance, CreateInfo, Allocator, Surface)
        (Instance, CreateInfo, Allocator, Surface) result skip w' (CallBefore <$> called)
  end.

(** Hooks of [FunctionHookID::eVulkan_DestroySurfaceKHR]. *)
Definition vkDestroySurfaceKHR
    (hooks : list (VoidBeforeHook (VkInstance * VkSurfaceKHR * pointer) * Feature))
    (s_idt_DestroySurfaceKHR : VoidNative (VkInstance * VkSurfaceKHR * pointer))
    (Instance : VkInstance) (Surface : VkSurfaceKHR) (pAllocator : pointer)
    (w : World)
  : World * list (void_call _) :=
  let '(skip, w', called) :=
    forVoidBeforeHooks hooks (Instance, Surface, pAllocator) false w in
  if negb skip then
    (s_idt_DestroySurfaceKHR (Instance, Surface, pAllocator) w',
     (VoidCallBefore <$> called) ++ [VoidCallReal])
  else (w', VoidCallBefore <$> called).

(** *** The entry points that have before-hooks and after-hooks

    Three entry points run hooks on both sides of the driver's function.
    [call_hooked] calls one of them with its arguments as a tuple, so
    that a statement can range over the three. *)
Inductive hooked : Type :=
  | CreateSwapchainKHR
  | QueuePresentKHR
  | CreateWin32SurfaceKHR.

Definition Args (e : hooked) : Type :=
  match e with
  | CreateSwapchainKHR => VkDevice * pointer * pointer * pointer
  | QueuePresentKHR => VkQueue * pointer
  | CreateWin32SurfaceKHR => VkInstance * pointer * pointer * pointer
  end%type.

Definition AfterArgs (e : hooked) : Type :=
  match e with
  | QueuePresentKHR => ()
  | e' => Args e'
  end.

(** What the entry point passes to its after-hooks. *)
Definition after_args (e : hooked) : Args e → AfterArgs e :=
  match e return Args e → AfterArgs e with
  | CreateSwapchainKHR => λ args, args
  | QueuePresentKHR => λ _, ()
  | CreateWin32SurfaceKHR => λ args, args
  end.

Definition call_hooked (e : hooked)
  : list (BeforeHook (Args e) * Feature) → Native (Args e) →
    list (AfterHook (AfterArgs e) * Feature) → Args e → World →
    VkResult * World * list (call (Args e) (AfterArgs e)) :=
  match e with
  | CreateSwapchainKHR =>
      λ beforeHooks real afterHooks '(Device, CreateInfo, Allocator, Swapchain),
        vkCreateSwapchainKHR beforeHooks real afterHooks
          Device CreateInfo Allocator Swapchain
  | QueuePresentKHR =>
      λ beforeHooks real afterHooks '(Queue, PresentInfo),
        vkQueuePresentKHR beforeHooks real afterHooks Queue PresentInfo
  | CreateWin32SurfaceKHR =>
      λ beforeHooks real afterHooks '(Instance, CreateInfo, Allocator, Surface),
        vkCreateWin32SurfaceKHR beforeHooks real afterHooks
          Instance CreateInfo Allocator Surface
  end.

(** The result and the world a loop over after-hooks ends with. *)
Definition after_result (e : after_exit) : VkResult :=
  match e with ReturnA result _ | DoneA result _ => result end.

Definition after_world (e : after_exit) : World :=
  match e with ReturnA _ w | DoneA _ w => w end.

End Hooks.

Arguments CallBefore {World Feature A B} hook.
Arguments CallReal {World Feature A B}.
Arguments CallAfter {World Feature A B} hook.
Arguments VoidCallBefore {World Feature A} hook.
Arguments VoidCallReal {World Feature A}.

End Interposer.

Module Scenario.

(** ** Concrete rings and hooks *)

(** A ring of capacity 4 whose payloads are integers. *)
Definition fresh : Reflex.ReflexCameraDataManager Z := Reflex.construct 0 4.

Definition ring (slots : list (Z * Z)) (last : Z)
  : Reflex.ReflexCameraDataManager Z :=
  {| Reflex.cameraData := slots; Reflex.lastFrame := last |}.

(** A plugin context whose two rings are fresh. *)
Definition context : Reflex.LatencyContext Z Z :=
  {| Reflex.simCameraData := fresh;
     Reflex.predCameraData := fresh;
     Reflex.predictCamera := false |}.

(** Windows in which the reader has let go of the mutex: one in which
    nothing happens, one in which the deadline of the wait passes, one in
    which a producer writes a frame. *)
Definition idle : Reflex.interference Z :=
  {| Reflex.producers := []; Reflex.timed_out := false |}.

Definition late : Reflex.interference Z :=
  {| Reflex.producers := []; Reflex.timed_out := true |}.

Definition writes (frameID value : Z) : Reflex.interference Z :=
  {| Reflex.producers := [(frameID, value)]; Reflex.timed_out := false |}.

(** A world that is the list of the functions that ran, so that what a call
    did can be read off it. *)
Inductive mark : Type := H1 | H2 | Driver | H3 | H4.

Definition VK_ERROR_DEVICE_LOST : Interposer.VkResult := -4.

Section Hooks.

Context {A : Type}.

Local Abbreviation BeforeHook := (@Interposer.BeforeHook (list mark) A).
Local Abbreviation AfterHook := (@Interposer.AfterHook (list mark) A).

(** Before-hooks that succeed: two that leave [skip] alone, one that sets
    it, one that clears it. *)
Definition h1 : BeforeHook :=
  λ _ skip w, (Interposer.VK_SUCCESS, skip, w ++ [H1]).
Definition h2 : BeforeHook :=
  λ _ skip w, (Interposer.VK_SUCCESS, skip, w ++ [H2]).
Definition h1_skip : BeforeHook :=
  λ _ _ w, (Interposer.VK_SUCCESS, true, w ++ [H1]).
Definition h2_unskip : BeforeHook :=
  λ _ _ w, (Interposer.VK_SUCCESS, false, w ++ [H2]).

(** A before-hook that fails. *)
Definition h2_fail : BeforeHook :=
  λ _ skip w, (VK_ERROR_DEVICE_LOST, skip, w ++ [H2]).

Definition driver : @Interposer.Native (list mark) A :=
  λ _ w, (Interposer.VK_SUCCESS, w ++ [Driver]).

(** After-hooks that succeed, and one that fails. *)
Definition h3 : AfterHook := λ _ w, (Interposer.VK_SUCCESS, w ++ [H3]).
Definition h4 : AfterHook := λ _ w, (Interposer.VK_SUCCESS, w ++ [H4]).
Definition h3_fail : AfterHook := λ _ w, (VK_ERROR_DEVICE_LOST, w ++ [H3]).

(** Hooks of the entry points that return nothing, and their driver. *)
Definition v1_skip : @Interposer.VoidBeforeHook (list mark) A :=
  λ _ _ w, (true, w ++ [H1]).
Definition v2 : @Interposer.VoidBeforeHook (list mark) A :=
  λ _ skip w, (skip, w ++ [H2]).
Definition void_driver : @Interposer.VoidNative (list mark) A :=
  λ _ w, w ++ [Driver].

End Hooks.

End Scenario.

Module BeforeOnly.

Import Interposer.

(** ** The entry points that have before-hooks only

    Four entry points run before-hooks and then the driver's function, and
    return.  [call_before] calls one of them with its arguments as a tuple,
    so that a statement can range over the four. *)

Section Hooks.

Context {World Feature : Type}.

Inductive hooked_before : Type :=
  | DeviceWaitIdle
  | GetSwapchainImagesKHR
  | AcquireNextImageKHR
  | AcquireNextImage2KHR.

(** The arguments of the entry point; for [vkAcquireNextImage2KHR] the
    structure behind [pAcquireInfo] comes with the pointer. *)
Definition CallArgs (e : hooked_before) : Type :=
  match e with
  | DeviceWaitIdle => VkDevice
  | GetSwapchainImagesKHR => VkDevice * VkSwapchainKHR * pointer * pointer
  | AcquireNextImageKHR =>
      VkDevice * VkSwapchainKHR * Z * VkSemaphore * VkFence * pointer
  | AcquireNextImage2KHR =>
      VkDevice * pointer * VkAcquireNextImageInfoKHR * pointer
  end%type.

(** What the hooks are called with. *)
Definition HookArgs (e : hooked_before) : Type :=
  match e with
  | AcquireNextImage2KHR =>
      VkDevice * VkSwapchainKHR * Z * VkSemaphore * VkFence * pointer
  | e' => CallArgs e'
  end%type.

(** What the driver's function is called with. *)
Definition NativeArgs (e : hooked_before) : Type :=
  match e with
  | AcquireNextImage2KHR => VkDevice * pointer * pointer
  | e' => CallArgs e'
  end%type.

Definition hook_args (e : hooked_before) : CallArgs e → HookArgs e :=
  match e return CallArgs e → HookArgs e with
  | DeviceWaitIdle => λ args, args
  | GetSwapchainImagesKHR => λ args, args
  | AcquireNextImageKHR => λ args, args
  | AcquireNextImage2KHR =>
      λ '(device, pAcquireInfo, AcquireInfo, pImageIndex),
        (device, swapchain AcquireInfo, timeout AcquireInfo,
         semaphore AcquireInfo, fence AcquireInfo, pImageIndex)
  end.

Definition native_args (e : hooked_before) : CallArgs e → NativeArgs e :=
  match e return CallArgs e → NativeArgs e with
  | DeviceWaitIdle => λ args, args
  | GetSwapchainImagesKHR => λ args, args
  | AcquireNextImageKHR => λ args, args
  | AcquireNextImage2KHR =>
      λ '(device, pAcquireInfo, AcquireInfo, pImageIndex),
        (device, pAcquireInfo, pImageIndex)
  end.

Definition call_before (e : hooked_before)
  : list (BeforeHook (HookArgs e) * Feature) → Native (NativeArgs e) →
    CallArgs e → World →
    VkResult * World * list (call (Feature:=Feature) (HookArgs e) (HookArgs e)) :=
  match e with
  | DeviceWaitIdle =>
      λ hooks real Device, vkDeviceWaitIdle hooks real Device
  | GetSwapchainImagesKHR =>
      λ hooks real '(Device, Swapchain, SwapchainImageCount, SwapchainImages),
        vkGetSwapchainImagesKHR hooks real
          Device Swapchain SwapchainImageCount SwapchainImages
  | AcquireNextImageKHR =>
      λ hooks real '(Device, Swapchain, Timeout, Semaphore, Fence, ImageIndex),
        vkAcquireNextImageKHR hooks real
          Device Swapchain Timeout Semaphore Fence ImageIndex
  | AcquireNextImage2KHR =>
      λ hooks real '(device, pAcquireInfo, AcquireInfo, pImageIndex),
        vkAcquireNextImage2KHR hooks real
          device pAcquireInfo AcquireInfo pImageIndex
  end.

End Hooks.

End BeforeOnly.

Module Loader.

Import stdpp.gmap stdpp.strings.
Import Interposer.

Local Open Scope Z_scope.

(** ** Resolving entry points, and the devices of an instance

    [vkGetDeviceProcAddr] and [vkGetInstanceProcAddr] of [wrapper.cpp] hand
    out the interposer's own functions for the names they list and ask the
    driver for every other name; [vkEnumeratePhysicalDevices] and
    [vkDestroyInstance] keep [s_vk.instanceDeviceMap]. *)

(** What a lookup returns: [nullptr], the interposer's function of that
    name, or the pointer the driver returned. *)
Inductive PFN_vkVoidFunction : Type :=
  | nullptr
  | interposed (F : string)
  | forwarded (address : Z).

(** The driver's [vkGetDeviceProcAddr] or [vkGetInstanceProcAddr]: from a
    handle and a name to an address. *)
Definition DriverProcAddr : Type := Z → string → Z.

(** [s_module], and the two members of the dispatch tables that the lookups
    read and fill. *)
Record tables : Type := {
  s_module : option Z;
  s_ddt_GetDeviceProcAddr : option DriverProcAddr;
  s_idt_GetInstanceProcAddr : option DriverProcAddr
}.

(** "Failed to load Vulkan library", logged with [SL_LOG_ERROR]. *)
Inductive error_log : Type := FailedToLoadVulkanLibrary.

(** [if (strcmp(pName, #F) == 0) return (PFN_vkVoidFunction)F;] *)
Definition SL_INTERCEPT {A : Type} (pName F : string)
    (ret : PFN_vkVoidFunction → A) (next : A) : A :=
  if String.eqb pName F then ret (interposed F) else next.

Section Library.

(** What [LoadLibraryA] returns for the Vulkan library ([None] is [NULL]),
    and what [GetProcAddress] returns in it. *)
Variable LoadLibraryA : option Z.
Variable GetProcAddress : Z → string → option DriverProcAddr.

Definition loadVulkanLibrary (st : tables) : option Z * tables :=
  match s_module st with
  | Some m => (Some m, st)
  | None =>
      (LoadLibraryA,
       {| s_module := LoadLibraryA;
          s_ddt_GetDeviceProcAddr := s_ddt_GetDeviceProcAddr st;
          s_idt_GetInstanceProcAddr := s_idt_GetInstanceProcAddr st |})
  end.

(** [None] is a call through a null function pointer. *)
Definition vkGetDeviceProcAddr (device : VkDevice) (pName : string) (st : tables)
  : option (PFN_vkVoidFunction * tables * list error_log) :=
  let '(lib, st) := loadVulkanLibrary st in
  match lib with
  | None => Some (nullptr, st, [FailedToLoadVulkanLibrary])
  | Some module =>
      let st :=
        match s_ddt_GetDeviceProcAddr st with
        | Some _ => st
        | None =>
            {| s_module := s_module st;
               s_ddt_GetDeviceProcAddr :=
                 GetProcAddress module "vkGetDeviceProcAddr";
               s_idt_GetInstanceProcAddr := s_idt_GetInstanceProcAddr st |}
        end in
      let ret := λ F, Some (F, st, []) in
      (* Redirect only the hooks we need *)
      SL_INTERCEPT pName "vkGetInstanceProcAddr" ret (
      SL_INTERCEPT pName "vkGetDeviceProcAddr" ret (
      SL_INTERCEPT pName "vkQueuePresentKHR" ret (
      SL_INTERCEPT pName "vkCreateImage" ret (
      SL_INTERCEPT pName "vkCmdPipelineBarrier" ret (
      SL_INTERCEPT pName "vkCmdBindPipeline" ret (
      SL_INTERCEPT pName "vkCmdBindDescriptorSets" ret (
      SL_INTERCEPT pName "vkCreateSwapchainKHR" ret (
      SL_INTERCEPT pName "vkGetSwapchainImagesKHR" ret (
      SL_INTERCEPT pName "vkDestroySwapchainKHR" ret (
      SL_INTERCEPT pName "vkAcquireNextImageKHR" ret (
      SL_INTERCEPT pName "vkAcquireNextImage2KHR" ret (
      SL_INTERCEPT pName "vkBeginCommandBuffer" ret (
      SL_INTERCEPT pName "vkDeviceWaitIdle" ret (
      match s_ddt_GetDeviceProcAddr st with
      | Some GetDeviceProcAddr =>
          Some (forwarded (GetDeviceProcAddr device pName), st, [])
      | None => None
      end))))))))))))))
  end.

Definition vkGetInstanceProcAddr (instance : VkInstance) (pName : string)
    (st : tables)
  : option (PFN_vkVoidFunction * tables * list error_log) :=
  let '(lib, st) := loadVulkanLibrary st in
  match lib with
  | None => Some (nullptr, st, [FailedToLoadVulkanLibrary])
  | Some module =>
      (* this can be called before vkCreateInstance *)
      let st :=
        match s_idt_GetInstanceProcAddr st with
        | Some _ => st
        | None =>
            {| s_module := s_module st;
               s_ddt_GetDeviceProcAddr := s_ddt_GetDeviceProcAddr st;
               s_idt_GetInstanceProcAddr :=
                 GetProcAddress module "vkGetInstanceProcAddr" |}
        end in
      let ret := λ F, Some (F, st, []) in
      (* Redirect only the hooks we need *)
      SL_INTERCEPT pName "vkGetInstanceProcAddr" ret (
      SL_INTERCEPT pName "vkGetDeviceProcAddr" ret (
      SL_INTERCEPT pName "vkCreateInstance" ret (
      SL_INTERCEPT pName "vkDestroyInstance" ret (
      SL_INTERCEPT pName "vkCreateDevice" ret (
      SL_INTERCEPT pName "vkDestroyDevice" ret (
      SL_INTERCEPT pName "vkEnumeratePhysicalDevices" ret (
      SL_INTERCEPT pName "vkQueuePresentKHR" ret (
      SL_INTERCEPT pName "vkCreateImage" ret (
      SL_INTERCEPT pName "vkCmdPipelineBarrier" ret (
      SL_INTERCEPT pName "vkCmdBindPipeline" ret (
      SL_INTERCEPT pName "vkCmdBindDescriptorSets" ret (
      SL_INTERCEPT pName "vkCreateSwapchainKHR" ret (
      SL_INTERCEPT pName "vkDestroySwapchainKHR" ret (
      SL_INTERCEPT pName "vkGetSwapchainImagesKHR" ret (
      SL_INTERCEPT pName "vkAcquireNextImageKHR" ret (
      SL_INTERCEPT pName "vkAcquireNextImage2KHR" ret (
      SL_INTERCEPT pName "vkBeginCommandBuffer" ret (
      SL_INTERCEPT pName "vkDeviceWaitIdle" ret (
      match s_idt_GetInstanceProcAddr st with
      | Some GetInstanceProcAddr =>
          Some (forwarded (GetInstanceProcAddr instance pName), st, [])
      | None => None
      end)))))))))))))))))))
  end.

End Library.

(** The names the statements about the lookups range over. *)
Definition device_intercepts : list string :=
  ["vkGetInstanceProcAddr"; "vkGetDeviceProcAddr"; "vkQueuePresentKHR";
   "vkCreateImage"; "vkCmdPipelineBarrier"; "vkCmdBindPipeline";
   "vkCmdBindDescriptorSets"; "vkCreateSwapchainKHR";
   "vkGetSwapchainImagesKHR"; "vkDestroySwapchainKHR";
   "vkAcquireNextImageKHR"; "vkAcquireNextImage2KHR"; "vkBeginCommandBuffer";
   "vkDeviceWaitIdle"]%string.

Definition instance_only_intercepts : list string :=
  ["vkCreateInstance"; "vkDestroyInstance"; "vkCreateDevice";
   "vkDestroyDevice"; "vkEnumeratePhysicalDevices"]%string.

(** The entry points of [wrapper.cpp] that run hooks. *)
Definition hooked_entry_points : list string :=
  ["vkDeviceWaitIdle"; "vkCreateSwapchainKHR"; "vkDestroySwapchainKHR";
   "vkGetSwapchainImagesKHR"; "vkAcquireNextImageKHR"; "vkQueuePresentKHR";
   "vkAcquireNextImage2KHR"; "vkCreateWin32SurfaceKHR";
   "vkDestroySurfaceKHR"]%string.

(** *** [s_vk.instanceDeviceMap] *)

Section Devices.

(** The state of the driver, which [DestroyInstance] changes. *)
Context {World : Type}.

(** What [s_idt.EnumeratePhysicalDevices] leaves behind: its result, the
    value of [*PhysicalDeviceCount], and the array [PhysicalDevices]. *)
Record enumeration : Type := {
  Result : VkResult;
  PhysicalDeviceCount : Z;
  PhysicalDevices_array : list Z
}.

(** [while (i--) s_vk.instanceDeviceMap[PhysicalDevices[i]] = Instance;]
    [None] is a read past the end of the array. *)
Fixpoint register_devices (i : nat) (array : list Z) (Instance : VkInstance)
    (instanceDeviceMap : gmap Z Z) : option (gmap Z Z) :=
  match i with
  | O => Some instanceDeviceMap
  | S i' =>
      match array !! i' with
      | Some PhysicalDevice =>
          register_devices i' array Instance
            (<[PhysicalDevice := Instance]> instanceDeviceMap)
      | None => None
      end
  end.

Definition vkEnumeratePhysicalDevices
    (s_idt_EnumeratePhysicalDevices : VkInstance → pointer → enumeration)
    (Instance : VkInstance) (PhysicalDevices : pointer)
    (instanceDeviceMap : gmap Z Z)
  : option (VkResult * gmap Z Z) :=
  let e := s_idt_EnumeratePhysicalDevices Instance PhysicalDevices in
  if PhysicalDevices =? 0 then Some (Result e, instanceDeviceMap)
  else
    match register_devices (Z.to_nat (PhysicalDeviceCount e))
            (PhysicalDevices_array e) Instance instanceDeviceMap with
    | Some m => Some (Result e, m)
    | None => None
    end.

(** The loop of [vkDestroyInstance] over the entries of the map, from
    [begin()] to [end()], erasing those whose instance is [Instance]. *)
Fixpoint erase_instance (entries : list (Z * Z)) (Instance : VkInstance)
    (instanceDeviceMap : gmap Z Z) : gmap Z Z :=
  match entries with
  | [] => instanceDeviceMap
  | (PhysicalDevice, instance) :: entries' =>
      if instance =? Instance then
        erase_instance entries' Instance (delete PhysicalDevice instanceDeviceMap)
      else erase_instance entries' Instance instanceDeviceMap
  end.

Definition vkDestroyInstance
    (s_idt_DestroyInstance : VkInstance → pointer → World → World)
    (Instance : VkInstance) (Allocator : pointer)
    (w : World) (instanceDeviceMap : gmap Z Z)
  : World * gmap Z Z :=
  (s_idt_DestroyInstance Instance Allocator w,
   erase_instance (map_to_list instanceDeviceMap) Instance instanceDeviceMap).

End Devices.

End Loader.

Module Extra.

Import Stdlib.Strings.Ascii stdpp.strings.

Local Open Scope Z_scope.

(** ** The helpers of [source/core/sl.extra/extra.h]

    A [std::string] is the list of its characters. *)

Local Abbreviation str := String.list_ascii_of_string.

(** Reduction of an integer to [uint64_t]. *)
Definition u64 (z : Z) : Z := z mod 2 ^ 64.

(** *** [align] *)

(** [(size + (alignment - 1)) & ~(alignment - 1)] on [uint32_t]. *)
Definition align (size alignment : Z) : Z :=
  Z.land (u32 (size + u32 (alignment - 1)))
         (u32 (Z.lnot (u32 (alignment - 1)))).

(** *** [toHexStr] *)

Definition digits : list ascii := str "0123456789ABCDEF".

(** [digits[d]] for [d] from 0 to 15. *)
Definition digit (d : Z) : ascii := nth (Z.to_nat d) digits "0"%char.

(** The body of the loop for the last [n] characters of [rc]: the
    character written at [i] is [digits[(w >> j) & 0x0f]] with
    [j = (hex_len - 1 - i) * 4]. *)
Fixpoint hex_chars (w : Z) (n : nat) : list ascii :=
  match n with
  | O => []
  | S n' =>
      digit (Z.land (Z.shiftr w (4 * Z.of_nat n')) 15) :: hex_chars w n'
  end.

(** [bits] is the width of the type of [w] after integer promotion; a shift
    by that many bits or more is undefined, which is [None]. *)
Definition toHexStr (bits : Z) (w : Z) (hex_len : nat) : option (list ascii) :=
  match hex_len with
  | O => Some []
  | S n => if 4 * Z.of_nat n <? bits then Some (hex_chars w hex_len) else None
  end.

(** The number a string of the digits [0] to [9] and [A] to [F] writes. *)
Definition digit_value (c : ascii) : option Z :=
  let n := Z.of_N (N_of_ascii c) in
  if (48 <=? n) && (n <=? 57) then Some (n - 48)
  else if (65 <=? n) && (n <=? 70) then Some (n - 55)
  else None.

Fixpoint hex_value_from (acc : Z) (s : list ascii) : option Z :=
  match s with
  | [] => Some acc
  | c :: s' =>
      match digit_value c with
      | Some d => hex_value_from (16 * acc + d) s'
      | None => None
      end
  end.

Definition hex_value (s : list ascii) : option Z := hex_value_from 0 s.

(** *** [prettifyMicrosecondsString] *)

(** [stream << n] for an unsigned integer, in decimal. *)
Definition dec (n : Z) : list ascii :=
  str (DecimalString.NilZero.string_of_uint (N.to_uint (Z.to_N n))).

(** [stream << std::hex << n] for an unsigned integer. *)
Definition hex (n : Z) : list ascii :=
  str (HexadecimalString.NilZero.string_of_uint (N.to_hex_uint (Z.to_N n))).

(** [std::setw(3) << std::setfill('0')] before the next output. *)
Definition setw3 (s : list ascii) : list ascii :=
  replicate (3 - length s) "0"%char ++ s.

Definition prettifyMicrosecondsString (microseconds : Z) : list ascii :=
  let tmp := microseconds in
  (* Calculate seconds, milliseconds, and remaining microseconds *)
  let seconds := tmp / 1000000 in
  let tmp := tmp mod 1000000 in
  let milliseconds := tmp / 1000 in
  let tmp := tmp mod 1000 in
  (* Format the result *)
  dec seconds ++ str "s:" ++ setw3 (dec milliseconds) ++ str "ms:"
  ++ setw3 (dec tmp) ++ str "us".

(** *** [format] *)

(** The arguments of [format] that are strings or unsigned integers; the
    fixed precision of the stream concerns floating-point arguments only. *)
Inductive arg : Type :=
  | arg_string (s : list ascii)
  | arg_unsigned (n : Z).

(** [stream << arg], after [std::hex] when [in_hex]. *)
Definition insert (in_hex : bool) (a : arg) : list ascii :=
  match a with
  | arg_string s => s
  | arg_unsigned n => if in_hex then hex n else dec n
  end.

Fixpoint starts_with (needle s : list ascii) : bool :=
  match needle, s with
  | [], _ => true
  | _ :: _, [] => false
  | c :: needle', d :: s' => Ascii.eqb c d && starts_with needle' s'
  end.

(** [strstr(s, needle)]: the characters before the first occurrence of
    [needle] and the string from that occurrence on; [None] is a null
    pointer. *)
Fixpoint strstr (s needle : list ascii) : option (list ascii * list ascii) :=
  if starts_with needle s then Some ([], s)
  else
    match s with
    | [] => None
    | c :: s' =>
        match strstr s' needle with
        | Some (before, p) => Some (c :: before, p)
        | None => None
        end
    end.

(** The recursion of [format(stream, str, arg, args...)] on the arguments,
    down to [format(stream, str)]. *)
Fixpoint format_stream (s : list ascii) (args : list arg) : list ascii :=
  match args with
  | [] => s
  | a :: args' =>
      match strstr s (str "{}") with
      | Some (before, p) =>
          let in_hex := starts_with (str "%x") (drop 2 p) in
          before ++ insert in_hex a
          ++ format_stream (if in_hex then drop 4 p else drop 2 p) args'
      | None => s
      end
  end.

Definition format (s : list ascii) (args : list arg) : list ascii :=
  format_stream s args.

(** The text [sub] occurs in [s]. *)
Definition occurs (sub s : list ascii) : Prop :=
  ∃ before after, s = before ++ sub ++ after.

(** *** [keyboard::VirtKey] *)

Record VirtKey : Type := {
  m_mainKey : Z;
  m_bShift : bool;
  m_bControl : bool;
  m_bAlt : bool
}.

(** [(char)m_mainKey] *)
Definition to_char (key : Z) : ascii := ascii_of_N (Z.to_N (key mod 256)).

Definition asStr (this : VirtKey) : list ascii :=
  let s := [] in
  let s := if m_bControl this then s ++ str "ctrl+" else s in
  let s := if m_bShift this then s ++ str "shift+" else s in
  let s := if m_bAlt this then s ++ str "alt+" else s in
  if negb (m_mainKey this =? 0) then s ++ [to_char (m_mainKey this)]
  else str "unassigned".

(** *** [TAverageValueMeter] *)

Section AverageValueMeter.

(** [double] and its operations, of which nothing is assumed. *)
Context {double : Type}.
Variable zero : double.
Variables fadd fsub fdiv : double → double → double.
Variable of_uint64 : Z → double.

Variable WINDOW_SIZE : Z.

Record TAverageValueMeter : Type := {
  val : double;
  mean : double;
  n : Z;
  sum : double;
  window : list double
}.

(** The constructor initialises every member but [window], whose
    [WINDOW_SIZE] elements are whatever the memory holds. *)
Definition construct (memory : list double) : TAverageValueMeter :=
  {| val := zero; mean := zero; n := 0; sum := zero; window := memory |}.

Definition reset (this : TAverageValueMeter) : TAverageValueMeter :=
  {| val := zero; mean := zero; n := 0; sum := zero;
     window := replicate (length (window this)) zero |}.

(** [None] is an access outside the array, or a division by a window size
    of zero. *)
Definition add (value : double) (this : TAverageValueMeter)
  : option TAverageValueMeter :=
  if WINDOW_SIZE =? 0 then None
  else
    let sum1 := fadd (sum this) value in
    let i := Z.to_nat (n this mod WINDOW_SIZE) in
    match window this !! i with
    | None => None
    | Some old =>
        let sum2 := if WINDOW_SIZE <=? n this then fsub sum1 old else sum1 in
        let n1 := u64 (n this + 1) in
        Some {| val := value;
                mean := fdiv sum2 (of_uint64 (Z.min n1 WINDOW_SIZE));
                n := n1;
                sum := sum2;
                window := <[i := value]> (window this) |}
    end.

Definition getMean (this : TAverageValueMeter) : double := mean this.
Definition getValue (this : TAverageValueMeter) : double := val this.
Definition getNumSamples (this : TAverageValueMeter) : Z := n this.

(** [add] for each value of a list, in order. *)
Fixpoint add_all (values : list double) (this : TAverageValueMeter)
  : option TAverageValueMeter :=
  match values with
  | [] => Some this
  | value :: values' =>
      match add value this with
      | Some this' => add_all values' this'
      | None => None
      end
  end.

End AverageValueMeter.

End Extra.

Module ReflexEntry.

Import stdpp.strings.
Import Reflex.

Local Open Scope Z_scope.

(** ** The other entry points of [reflexEntry.cpp] *)

(** *** [slReflexSetCameraData] *)

(** The one marker the camera entry points set. *)
Inductive PCLMarker : Type := eCameraConstructed.

(** What a call does besides returning: the calls on the compute interface
    and on the statistics of PCL, and the actions of the ring. *)
Inductive event : Type :=
  | setReflexMarker (marker : PCLMarker) (frame : Z)
  | setStatsMarkerFunc (marker : PCLMarker) (frame : Z)
  | ring (a : action).

Section SetCameraData.

(** The matrices are arrays of [float]; the entry points copy them.
    [predictCameraData] computes on them, with locals that it does not
    initialise in full: [stack] is what those locals hold. *)
Variables float4x4 ReflexCameraData ReflexPredictedCameraData stack : Type.
Variables worldToViewMatrix viewToClipMatrix : ReflexCameraData → float4x4.
Variable predictCameraData :
  stack → ReflexCameraData → float4x4 → float4x4 → ReflexPredictedCameraData.
Variable MAX_FRAMES_IN_FLIGHT : Z.

(** The members of [LatencyContext] that [slReflexSetCameraData] touches:
    those of the camera queries, the matrices of the last frame, and
    whether the two pointers it calls through are set. *)
Record Context : Type := {
  camera : LatencyContext ReflexCameraData ReflexPredictedCameraData;
  prevWorldToViewMatrix : float4x4;
  prevViewToClipMatrix : float4x4;
  compute : bool;
  setStatsMarker : bool
}.

(** [None] is a call through a null pointer; an exception of the ring
    leaves the function with the context it had when it was thrown, which
    the model does not keep. *)
Definition slReflexSetCameraData (frame : Z) (inCameraData : ReflexCameraData)
    (locals : stack) (ctx : Context)
  : option (outcome (Result * Context * list event)) :=
  if negb (compute ctx) then None
  else if negb (setStatsMarker ctx) then None
  else
    Some (
      '(pred, acts1) ←
        (if predictCamera _ _ (camera ctx) && (0 <? frame) then
           let predictedCameraData :=
             predictCameraData locals inCameraData
               (prevWorldToViewMatrix ctx) (prevViewToClipMatrix ctx) in
           insertCameraData MAX_FRAMES_IN_FLIGHT frame predictedCameraData
             (predCameraData _ _ (camera ctx))
         else Ret (predCameraData _ _ (camera ctx), []));
      '(sim, acts2) ←
        insertCameraData MAX_FRAMES_IN_FLIGHT frame inCameraData
          (simCameraData _ _ (camera ctx));
      Ret (eOk,
           {| camera := {| simCameraData := sim;
                           predCameraData := pred;
                           predictCamera := predictCamera _ _ (camera ctx) |};
              prevWorldToViewMatrix := worldToViewMatrix inCameraData;
              prevViewToClipMatrix := viewToClipMatrix inCameraData;
              compute := compute ctx;
              setStatsMarker := setStatsMarker ctx |},
           [setReflexMarker eCameraConstructed frame;
            setStatsMarkerFunc eCameraConstructed frame]
           ++ (ring <$> acts1) ++ (ring <$> acts2))).

(** The camera queries on the larger context. *)
Definition with_camera (ctx : Context)
    (camera' : LatencyContext ReflexCameraData ReflexPredictedCameraData)
  : Context :=
  {| camera := camera';
     prevWorldToViewMatrix := prevWorldToViewMatrix ctx;
     prevViewToClipMatrix := prevViewToClipMatrix ctx;
     compute := compute ctx;
     setStatsMarker := setStatsMarker ctx |}.

End SetCameraData.

(** *** [updateEmbeddedJSON] *)

Section EmbeddedJSON.

(** The constant of NVAPI for the first architecture that is supported. *)
Variable NV_GPU_ARCHITECTURE_GM000 : Z.

(** The members of [common::SystemCaps] that are read; [adapters] is an
    array, as long as the list. *)
Record Adapter : Type := { architecture : Z }.

Record SystemCaps : Type := {
  gpuCount : Z;
  driverVersionMajor : Z;
  driverVersionMinor : Z;
  adapters : list Adapter
}.

(** The three flags of [LatencyContext]. *)
Record Availability : Type := {
  lowLatencyAvailable : bool;
  latencyReportAvailable : bool;
  flashIndicatorDriverControlled : bool
}.

(** What is written to [config]. *)
Record Config : Type := {
  vk_device_extensions : list string;
  reflex_lowLatencyAvailable : bool;
  reflex_flashIndicatorDriverControlled : bool
}.

(** [for (uint32_t i = 0; i < caps->gpuCount; i++)], one turn per unit of
    [turns]; [None] is a read past the end of [adapters]. *)
Fixpoint for_adapters (caps : SystemCaps) (turns : nat) (i : Z)
    (ctx : Availability) : option Availability :=
  match turns with
  | O => Some ctx
  | S turns' =>
      match adapters caps !! Z.to_nat i with
      | None => None
      | Some adapter =>
          for_adapters caps turns' (u32 (i + 1))
            {| lowLatencyAvailable :=
                 lowLatencyAvailable ctx
                 || (NV_GPU_ARCHITECTURE_GM000 <=? architecture adapter);
               latencyReportAvailable := latencyReportAvailable ctx;
               flashIndicatorDriverControlled :=
                 flashIndicatorDriverControlled ctx
                 || (51123 <=? u32 (driverVersionMajor caps * 100
                                    + driverVersionMinor caps)) |}
      end
  end.

(** [caps] and [updateCommonEmbeddedJSONConfig] are the two pointers read
    from the parameters, [None] and [false] when null; the third component
    of the result says whether [updateCommonEmbeddedJSONConfig] was
    called. *)
Definition updateEmbeddedJSON (caps : option SystemCaps)
    (updateCommonEmbeddedJSONConfig : bool)
  : option (Availability * Config * bool) :=
  (* Defaults everything to false *)
  let ctx := {| lowLatencyAvailable := false;
                latencyReportAvailable := false;
                flashIndicatorDriverControlled := false |} in
  let called :=
    match caps with
    | Some _ => updateCommonEmbeddedJSONConfig
    | None => false
    end in
  ctx' ← match caps with
         | Some caps =>
             if 455 <? driverVersionMajor caps
             then for_adapters caps (Z.to_nat (gpuCount caps)) 0 ctx
             else Some ctx
         | None => Some ctx
         end;
  Some (ctx',
        {| vk_device_extensions := ["VK_NV_low_latency"%string];
           reflex_lowLatencyAvailable := lowLatencyAvailable ctx';
           reflex_flashIndicatorDriverControlled :=
             flashIndicatorDriverControlled ctx' |},
        called).

End EmbeddedJSON.

End ReflexEntry.

Module ReflexScenario.

Import Reflex ReflexEntry.

Local Open Scope Z_scope.

(** ** A concrete plugin context

    Matrices and camera data are integers; the prediction adds up its
    inputs. *)
Definition predict (_ : unit) (data prevWorldToView prevViewToClip : Z) : Z :=
  data + prevWorldToView + prevViewToClip.

Definition SetCameraData :=
  slReflexSetCameraData Z Z Z unit id id predict 4.

(** The context after the start of the plugin, with both pointers set. *)
Definition started : Context Z Z Z :=
  {| camera := Scenario.context;
     prevWorldToViewMatrix := 0;
     prevViewToClipMatrix := 0;
     compute := true;
     setStatsMarker := true |}.

(** A system with two adapters, the second one of the architecture
    [0x120], and the driver 560.94. *)
Definition caps : SystemCaps :=
  {| gpuCount := 2;
     driverVersionMajor := 560;
     driverVersionMinor := 94;
     adapters := [{| architecture := 0 |}; {| architecture := 288 |}] |}.

End ReflexScenario.

Module ReflexProofs.

Import Reflex.

(** ** Properties of the ring *)

Section Ring.

Context {T : Type}.
Variable T_default : T.
Variable N : Z.
Hypothesis N_pos : 0 < N.

Local Abbreviation manager := (ReflexCameraDataManager T).
Local Abbreviation insertCameraData := (Reflex.insertCameraData (T:=T) N).
Local Abbreviation getCameraData := (Reflex.getCameraData (T:=T) N).
Local Abbreviation slot := (Reflex.slot N).
Local Abbreviation ring_sized := (Reflex.ring_sized (T:=T) N).
Local Abbreviation stored := (Reflex.stored (T:=T) N).

Lemma slot_lt frameID : (slot frameID < Z.to_nat N)%nat.
Proof.
  unfold slot. pose proof (Z.mod_pos_bound frameID N N_pos). lia.
Qed.

Lemma at_slot this frameID :
  ring_sized this →
  ∃ p, cameraData this !! slot frameID = Some p
       ∧ at_ (cameraData this) (frameID mod N) = Ret p.
Proof.
  intros Hlen.
  destruct (lookup_lt_is_Some_2 (cameraData this) (slot frameID)) as [p Hp].
  { rewrite Hlen. apply slot_lt. }
  exists p. split; [done|]. unfold at_. fold (slot frameID). by rewrite Hp.
Qed.

Lemma stored_Some this frameID v :
  stored frameID this = Some v ↔
  cameraData this !! slot frameID = Some (frameID, v).
Proof.
  unfold stored. split.
  - destruct (cameraData this !! slot frameID) as [[g w]|]; [|done].
    destruct (Z.eqb_spec frameID g); [|done]. by intros [= ->]; subst.
  - intros ->. by rewrite Z.eqb_refl.
Qed.

Lemma construct_sized : ring_sized (construct T_default N).
Proof. unfold ring_sized. simpl. apply length_replicate. Qed.

Lemma construct_lookup i :
  (i < Z.to_nat N)%nat →
  cameraData (construct T_default N) !! i = Some (0, T_default).
Proof. intros Hi. simpl. by apply lookup_replicate_2. Qed.

(** *** [insertCameraData] *)

(** The three ways through [insertCameraData]. *)
Lemma insert_cases frameID v this :
  ring_sized this →
  ∃ g d, cameraData this !! slot frameID = Some (g, d) ∧
    ((frameID ≤ 0 ∧ insertCameraData frameID v this = Ret (this, []))
     ∨ (0 < frameID ∧ g = frameID ∧
        insertCameraData frameID v this
        = Ret (this, [SL_LOG_WARN (AlreadySet frameID)]))
     ∨ (0 < frameID ∧ g ≠ frameID ∧
        insertCameraData frameID v this
        = Ret ({| cameraData := <[slot frameID := (frameID, v)]> (cameraData this);
                  lastFrame := frameID |},
               (if negb (u32 (lastFrame this + 1) =? frameID)
                then [SL_LOG_WARN (OutOfOrder (lastFrame this) frameID)]
                else []) ++ [notify_one]))).
Proof.
  intros Hs. destruct (at_slot this frameID Hs) as ([g d] & Hp & Hat).
  exists g, d. split; [done|]. unfold Reflex.insertCameraData.
  destruct (Z.leb_spec frameID 0) as [Hle|Hlt]; [by left|]. right.
  rewrite Hat. simpl.
  destruct (Z.eqb_spec frameID g) as [->|Hne]; [by left|right].
  repeat split; [done|congruence].
Qed.

Lemma insert_sized frameID v this this' acts :
  ring_sized this →
  insertCameraData frameID v this = Ret (this', acts) →
  ring_sized this'.
Proof.
  intros Hs Hi.
  destruct (insert_cases frameID v this Hs) as (g & d & _ & [[_ E]|[(_&_&E)|(_&_&E)]]);
    rewrite E in Hi; injection Hi as <- <-; try done.
  unfold ring_sized. simpl. by rewrite length_insert.
Qed.

Lemma insert_returns frameID v this :
  ring_sized this → ∃ this' acts, insertCameraData frameID v this = Ret (this', acts).
Proof.
  intros Hs.
  destruct (insert_cases frameID v this Hs) as (g & d & _ & [[_ E]|[(_&_&E)|(_&_&E)]]);
    rewrite E; eauto.
Qed.

Lemma apply_producers_sized ps this :
  ring_sized this → ring_sized (apply_producers N ps this).
Proof.
  revert this. induction ps as [|[f d] ps IH]; intros this Hs; simpl; [done|].
  destruct (insert_returns f d this Hs) as (this' & acts & E). rewrite E.
  apply IH. eapply insert_sized; eauto.
Qed.

Lemma unlocked_sized env this :
  ring_sized this → ring_sized (unlocked N env this).1.
Proof. destruct env; simpl; auto using apply_producers_sized. Qed.

Lemma unlocked_length env (this : manager) :
  (length (unlocked N env this).2 ≤ length env)%nat.
Proof. destruct env; simpl; lia. Qed.

Lemma unlocked_shorter env (this : manager) :
  env ≠ [] → (length (unlocked N env this).2 < length env)%nat.
Proof. destruct env; simpl; [done|lia]. Qed.

(** *** The wait *)

Lemma frame_arrived_stored frameID this :
  ring_sized this →
  frame_arrived N frameID this = Ret (bool_decide (is_Some (stored frameID this))).
Proof.
  intros Hs. destruct (at_slot this frameID Hs) as ([g d] & Hp & Hat).
  unfold frame_arrived. rewrite Hat. simpl. unfold stored. rewrite Hp.
  by destruct (frameID =? g).
Qed.

(** The wait returns, it returns the value of its predicate in the state
    it leaves, and it uses up no more windows than there are. *)
Lemma cv_wait_for_returns t frameID env this :
  ring_sized this →
  ∃ this' env',
    cv_wait_for N t frameID env this
    = Ret (bool_decide (is_Some (stored frameID this')), this', env')
    ∧ ring_sized this' ∧ (length env' ≤ length env)%nat
    ∧ (env = [] → this' = this).
Proof.
  revert this. induction env as [|e env IH]; intros this Hs; simpl;
    rewrite (frame_arrived_stored _ _ Hs); simpl.
  - exists this, []. by case_bool_decide.
  - destruct (decide (is_Some (stored frameID this))) as [Hst|Hst].
    + exists this, (e :: env). by rewrite !bool_decide_eq_true_2.
    + rewrite bool_decide_eq_false_2 by done.
      pose proof (apply_producers_sized (producers e) this Hs) as Hs'.
      destruct ((t <=? 0) || timed_out e).
      * rewrite (frame_arrived_stored _ _ Hs'). simpl.
        eexists _, env. repeat split; [done|lia|done].
      * destruct (IH _ Hs') as (this' & env' & E & Hs'' & Hl & _).
        exists this', env'. repeat split; [done|done|lia|done].
Qed.

(** *** [getCameraData] *)

Lemma gave_up_reader frameID : Forall (reader_action frameID) (gave_up frameID).
Proof.
  unfold gave_up, reader_action.
  destruct (0 <? timeout frameID); simpl;
    repeat first [apply Forall_nil_2 | apply Forall_cons_2]; eauto.
Qed.

Lemma stored_at this frameID :
  ring_sized this →
  ∃ p, at_ (cameraData this) (frameID mod N) = Ret p
       ∧ stored frameID this = (if frameID =? p.1 then Some p.2 else None).
Proof.
  intros Hs. destruct (at_slot this frameID Hs) as ([g d] & Hp & Hat).
  exists (g, d). split; [done|]. unfold stored. by rewrite Hp.
Qed.

(** A frame that is there is returned at once: nothing is logged, the
    condition variable is not touched, the mutex is not released. *)
Lemma getCameraData_immediate frameID v env this :
  cameraData this !! slot frameID = Some (frameID, v) →
  getCameraData frameID env this = Ret (Some v, this, [], env).
Proof.
  intros Hp. unfold Reflex.getCameraData. simpl. unfold at_.
  fold (slot frameID). rewrite Hp. simpl. by rewrite Z.eqb_refl.
Qed.

(** A frame that is not there, with no producer running: one warning, one
    wait that fails, the time-out warning when the wait was a real one. *)
Lemma getCameraData_alone frameID this :
  ring_sized this →
  stored frameID this = None →
  getCameraData frameID [] this = Ret (None, this, gave_up frameID, []).
Proof.
  intros Hs Hst. destruct (stored_at this frameID Hs) as (p & Hat & Hp).
  rewrite Hst in Hp. unfold Reflex.getCameraData. simpl.
  rewrite Hat. simpl. destruct (frameID =? p.1) eqn:E; [done|].
  unfold frame_arrived. rewrite Hat. simpl. rewrite E. simpl. done.
Qed.

(** The loop in general: it returns when it has one more turn than there
    are windows, its result is what the ring holds for the frame when it
    returns, and it logs warnings only. *)
Lemma getCameraData_loop_spec fuel frameID env this :
  ring_sized this → (length env < fuel)%nat →
  ∃ this' acts env',
    getCameraData_loop N fuel frameID env this
    = Ret (stored frameID this', this', acts, env')
    ∧ ring_sized this' ∧ (length env' ≤ length env)%nat
    ∧ Forall (reader_action frameID) acts
    ∧ (stored frameID this' = None → ∃ before, acts = before ++ gave_up frameID)
    ∧ (env = [] → this' = this ∧ env' = []).
Proof.
  revert env this. induction fuel as [|fuel IH]; intros env this Hs Hfuel; [lia|].
  destruct (stored_at this frameID Hs) as (p & Hat & Hp).
  cbn [getCameraData_loop]. rewrite Hat. cbn [mbind outcome_bind].
  destruct (frameID =? p.1) eqn:E.
  { exists this, [], env. rewrite Hp. repeat split; [done|lia|constructor|done|done]. }
  pose proof (unlocked_sized env this Hs) as Hs1.
  pose proof (unlocked_length env this) as Hl1.
  pose proof (unlocked_shorter env this) as Hlt1.
  assert (env = [] → (unlocked N env this).1 = this) as Hnil1 by (by intros ->).
  destruct (unlocked N env this) as [this1 env1]. simpl in Hs1, Hl1, Hlt1, Hnil1.
  destruct (cv_wait_for_returns (timeout frameID) frameID env1 this1 Hs1)
    as (this2 & env2 & Ew & Hs2 & Hl2 & Hnil2).
  rewrite Ew. cbn [mbind outcome_bind].
  destruct (decide (is_Some (stored frameID this2))) as [Hst|Hst].
  - rewrite bool_decide_eq_true_2 by done. cbn [negb].
    pose proof (unlocked_sized env2 this2 Hs2) as Hs3.
    pose proof (unlocked_length env2 this2) as Hl3.
    destruct (unlocked N env2 this2) as [this3 env3]. simpl in Hs3, Hl3.
    assert (env ≠ []) as Hne.
    { intros ->. destruct env1; [|simpl in Hl1; lia].
      rewrite Hnil2, Hnil1, Hp in Hst by done. by destruct Hst. }
    specialize (Hlt1 Hne).
    destruct (IH env3 this3 Hs3) as (this4 & acts & env4 & El & Hs4 & Hl4 & Ha & Hg & _);
      [lia|].
    rewrite El. cbn [mbind outcome_bind].
    exists this4, ([SL_LOG_WARN (NotReadilyAvailable frameID);
                    wait_for (timeout frameID) true] ++ acts), env4.
    split; [done|]. split; [done|]. split; [lia|].
    split; [|split; [|done]].
    + apply Forall_app. split; [|done]. unfold reader_action.
      repeat first [apply Forall_nil_2 | apply Forall_cons_2]; eauto.
    + intros Hn. destruct (Hg Hn) as [before ->].
      exists ([SL_LOG_WARN (NotReadilyAvailable frameID);
               wait_for (timeout frameID) true] ++ before).
      by rewrite <- app_assoc.
  - rewrite bool_decide_eq_false_2 by done. cbn [negb].
    assert (stored frameID this2 = None) as Hn.
    { destruct (stored frameID this2); [|done]. by destruct Hst. }
    exists this2, (gave_up frameID), env2. rewrite Hn.
    split; [done|]. split; [done|]. split; [lia|].
    split; [apply gave_up_reader|]. split; [intros _; by exists []|].
    intros ->. destruct env1; [|simpl in Hl1; lia].
    destruct env2; [|simpl in Hl2; lia].
    by rewrite Hnil2, Hnil1.
Qed.

(** [getCameraData] returns, whatever the producers do meanwhile, and what
    it returns is what the ring holds for the frame at that moment. *)
Lemma getCameraData_returns frameID env this :
  ring_sized this →
  ∃ this' acts env',
    getCameraData frameID env this
    = Ret (stored frameID this', this', acts, env')
    ∧ ring_sized this'
    ∧ Forall (reader_action frameID) acts
    ∧ (stored frameID this' = None → ∃ before, acts = before ++ gave_up frameID)
    ∧ (env = [] → this' = this ∧ env' = []).
Proof.
  intros Hs.
  destruct (getCameraData_loop_spec (S (length env)) frameID env this Hs)
    as (this' & acts & env' & E & Hs' & _ & Ha & Hg & Hnil); [lia|].
  exists this', acts, env'. done.
Qed.

Lemma stored_None this frameID :
  ring_sized this →
  stored frameID this = None ↔
  ∃ g d, cameraData this !! slot frameID = Some (g, d) ∧ g ≠ frameID.
Proof.
  intros Hs. destruct (at_slot this frameID Hs) as ([g d] & Hp & _).
  unfold Reflex.stored. rewrite Hp. destruct (Z.eqb_spec frameID g) as [->|Hne].
  - split; [done|]. intros (g' & d' & [= <- <-] & Hne). done.
  - split; [|done]. intros _. exists g, d. split; [done|congruence].
Qed.


(** After a write of a positive frame the frame's slot carries that
    frame's index, whichever way the write went. *)
Lemma insert_index frameID v this this' acts :
  ring_sized this → 0 < frameID →
  insertCameraData frameID v this = Ret (this', acts) →
  ∃ d, cameraData this' !! slot frameID = Some (frameID, d).
Proof.
  intros Hs Hpos Hi.
  destruct (insert_cases frameID v this Hs)
    as (g & d & Hp & [[? E]|[(_&->&E)|(_&_&E)]]); [lia| |];
    rewrite E in Hi; injection Hi as <- <-.
  - by exists d.
  - exists v. simpl. apply list_lookup_insert_eq.
    by apply lookup_lt_is_Some_1.
Qed.

(** *** The claims about the ring *)

(** C1, as amended.  [getCameraData] returns, and the value it returns is
    [v] exactly when the slot [frameID mod N] of the ring it leaves holds
    the pair [(frameID, v)]; with no producer running the ring it leaves
    is the ring it found.  For [f1 ≠ f2] that share a slot and [f2]
    positive, after [insertCameraData f1 v1] and then
    [insertCameraData f2 v2] a read of [f1] returns empty.  (A write of
    frame 0 stores nothing, so it supersedes nothing.) *)
Theorem read_exact_write_supersedes (this : manager) :
  ring_sized this →
  (∀ frameID env, ∃ r this' acts env',
      getCameraData frameID env this = Ret (r, this', acts, env')
      ∧ (∀ v, r = Some v ↔ cameraData this' !! slot frameID = Some (frameID, v))
      ∧ (env = [] → this' = this))
  ∧ (∀ f1 f2 v1 v2, f1 ≠ f2 → f1 mod N = f2 mod N → 0 < f2 →
      ∃ this1 acts1 this2 acts2,
        insertCameraData f1 v1 this = Ret (this1, acts1)
        ∧ insertCameraData f2 v2 this1 = Ret (this2, acts2)
        ∧ getCameraData f1 [] this2 = Ret (None, this2, gave_up f1, [])).
Proof.
  intros Hs. split.
  - intros frameID env.
    destruct (getCameraData_returns frameID env this Hs)
      as (this' & acts & env' & E & _ & _ & _ & Hnil).
    exists (stored frameID this'), this', acts, env'.
    split; [done|]. split; [intros v; apply stored_Some|].
    intros Henv. by destruct (Hnil Henv).
  - intros f1 f2 v1 v2 Hne Hmod Hpos.
    destruct (insert_returns f1 v1 this Hs) as (this1 & acts1 & E1).
    pose proof (insert_sized _ _ _ _ _ Hs E1) as Hs1.
    destruct (insert_returns f2 v2 this1 Hs1) as (this2 & acts2 & E2).
    pose proof (insert_sized _ _ _ _ _ Hs1 E2) as Hs2.
    exists this1, acts1, this2, acts2. split; [done|]. split; [done|].
    apply getCameraData_alone; [done|].
    destruct (insert_index _ _ _ _ _ Hs1 Hpos E2) as [d Hd].
    apply stored_None; [done|]. exists f2, d. split; [|done].
    unfold Reflex.slot in *. by rewrite Hmod.
Qed.

(** C4, as amended.  [insertCameraData g v] changes no slot but the slot
    [g mod N], and it overwrites that slot, whose stored index is [f],
    exactly when [0 < g] and [g ≠ f]: by any frame that maps to the slot,
    newer or older, not by [f + N] alone.  A repeated write ([g = f],
    positive) is rejected with the warning that the frame is already set
    and changes nothing.  A write that is applied is warned about as out
    of order exactly when [g] is not [lastFrame + 1] in [uint32_t]
    arithmetic. *)
Theorem slot_overwritten_by_any_alias (this : manager) g v :
  ring_sized this →
  ∃ this' acts,
    insertCameraData g v this = Ret (this', acts)
    ∧ (∀ i f d, cameraData this !! i = Some (f, d) →
         (i = slot g ∧ 0 < g ∧ g ≠ f → cameraData this' !! i = Some (g, v))
         ∧ (¬ (i = slot g ∧ 0 < g ∧ g ≠ f) → cameraData this' !! i = Some (f, d)))
    ∧ (∀ d, 0 < g → cameraData this !! slot g = Some (g, d) →
         this' = this ∧ acts = [SL_LOG_WARN (AlreadySet g)])
    ∧ (SL_LOG_WARN (OutOfOrder (lastFrame this) g) ∈ acts ↔
         0 < g ∧ stored g this = None ∧ u32 (lastFrame this + 1) ≠ g)
    ∧ (0 < g → stored g this = None → u32 (lastFrame this + 1) = g →
         acts = [notify_one]).
Proof.
  intros Hs.
  destruct (insert_cases g v this Hs)
    as (f0 & d0 & Hp & [[Hle E]|[(Hpos&->&E)|(Hpos&Hne&E)]]);
    rewrite E; eexists _, _; (split; [done|]).
  - split; [|split; [|split]].
    + intros i f d Hi. split; [lia|done].
    + intros d ?. lia.
    + split; [by intros ?%elem_of_nil|lia].
    + lia.
  - assert (stored g this = Some d0) as Hst by by apply stored_Some.
    split; [|split; [|split]].
    + intros i f d Hi. split; [|done]. intros (-> & _ & Hne).
      rewrite Hp in Hi. congruence.
    + done.
    + rewrite Hst. split; [|by intros (_ & ? & _)].
      intros Hin%list_elem_of_singleton. done.
    + rewrite Hst. done.
  - assert (stored g this = None) as Hst.
    { apply stored_None; [done|]. by exists f0, d0. }
    assert (slot g < length (cameraData this))%nat as Hlt
      by by apply lookup_lt_is_Some_1.
    split; [|split; [|split]].
    + intros i f d Hi. simpl. split.
      * intros (-> & _ & _). by apply list_lookup_insert_eq.
      * intros Hn. destruct (decide (i = slot g)) as [->|Hi'].
        -- rewrite Hp in Hi. injection Hi as <- <-. destruct Hn. done.
        -- by rewrite list_lookup_insert_ne.
    + intros d _ Hd. rewrite Hp in Hd. congruence.
    + destruct (Z.eqb_spec (u32 (lastFrame this + 1)) g) as [Heq|Hneq]; simpl.
      * split; [|by intros (_ & _ & ?)].
        intros Hin%list_elem_of_singleton. done.
      * split; [done|]. intros _. apply list_elem_of_here.
    + intros _ _ Heq. apply Z.eqb_eq in Heq. by rewrite Heq.
Qed.

(** C5, as amended.  A write of a positive frame that the ring already
    holds logs the warning that the frame is already set and stores
    nothing: the ring is unchanged, and a read of the frame returns the
    value of the first write. *)
Theorem duplicate_write_is_rejected (this : manager) f v1 v2 :
  0 < f →
  cameraData this !! slot f = Some (f, v1) →
  insertCameraData f v2 this = Ret (this, [SL_LOG_WARN (AlreadySet f)])
  ∧ ∀ env, getCameraData f env this = Ret (Some v1, this, [], env).
Proof.
  intros Hpos Hp. split; [|intros env; by apply getCameraData_immediate].
  unfold Reflex.insertCameraData, at_. fold (slot f). rewrite Hp.
  destruct (Z.leb_spec f 0); [lia|]. simpl. by rewrite Z.eqb_refl.
Qed.

(** C6.  A write of a positive frame that is not [lastFrame + 1] and that
    the ring does not hold logs the out-of-order warning and is applied:
    the pair is stored in the slot [frameID mod N], [lastFrame] becomes
    [frameID], and a read of the frame returns the value at once. *)
Theorem out_of_order_write_is_applied (this : manager) frameID v :
  ring_sized this →
  is_u32 (lastFrame this) →
  0 < frameID →
  frameID ≠ lastFrame this + 1 →
  (∀ d, cameraData this !! slot frameID ≠ Some (frameID, d)) →
  ∃ this',
    insertCameraData frameID v this
    = Ret (this', [SL_LOG_WARN (OutOfOrder (lastFrame this) frameID); notify_one])
    ∧ cameraData this' !! slot frameID = Some (frameID, v)
    ∧ lastFrame this' = frameID
    ∧ ∀ env, getCameraData frameID env this' = Ret (Some v, this', [], env).
Proof.
  intros Hs Hlast Hpos Hooo Hnew.
  destruct (insert_cases frameID v this Hs)
    as (g & d & Hp & [[? E]|[(_&->&E)|(_&Hne&E)]]); [lia| |].
  { by destruct (Hnew d). }
  assert (u32 (lastFrame this + 1) ≠ frameID) as Hw.
  { unfold u32, is_u32 in *.
    destruct (decide (lastFrame this + 1 = 2 ^ 32)) as [->|?].
    - rewrite Z.mod_same by lia. lia.
    - rewrite Z.mod_small by lia. lia. }
  apply Z.eqb_neq in Hw. rewrite Hw in E. simpl in E.
  eexists. split; [exact E|]. simpl.
  assert (<[slot frameID := (frameID, v)]> (cameraData this) !! slot frameID
          = Some (frameID, v)) as Hnow.
  { apply list_lookup_insert_eq. by apply lookup_lt_is_Some_1. }
  split; [done|]. split; [done|].
  intros env. by apply getCameraData_immediate.
Qed.

(** *** The wait, window by window *)

Lemma passed_sized env this : ring_sized this → ring_sized (Reflex.passed N env this).
Proof.
  revert this. induction env as [|e env IH]; intros this Hs; simpl; [done|].
  apply IH. by apply apply_producers_sized.
Qed.

Lemma passed_app env1 env2 (this : manager) :
  Reflex.passed N (env1 ++ env2) this
  = Reflex.passed N env2 (Reflex.passed N env1 this).
Proof. unfold Reflex.passed. by rewrite foldl_app. Qed.

(** One turn of the loop on a ring that does not hold the frame. *)
Lemma getCameraData_loop_absent fuel frameID env this :
  ring_sized this → stored frameID this = None →
  getCameraData_loop N (S fuel) frameID env this
  = ('(woken, this2, env2) ←
       cv_wait_for N (timeout frameID) frameID
         (unlocked N env this).2 (unlocked N env this).1;
     if negb woken then Ret (None, this2, gave_up frameID, env2)
     else
       '(r, this4, acts, env4) ←
         getCameraData_loop N fuel frameID
           (unlocked N env2 this2).2 (unlocked N env2 this2).1;
       Ret (r, this4,
            [SL_LOG_WARN (NotReadilyAvailable frameID);
             wait_for (timeout frameID) true] ++ acts, env4)).
Proof.
  intros Hs Hst. destruct (stored_at this frameID Hs) as (p & Hat & Hp).
  rewrite Hst in Hp. cbn [getCameraData_loop]. rewrite Hat.
  cbn [mbind outcome_bind].
  destruct (frameID =? p.1) eqn:E; [done|].
  destruct (unlocked N env this) as [this1 env1]. cbn [fst snd].
  destruct (cv_wait_for N (timeout frameID) frameID env1 this1)
    as [[[woken this2] env2]| |]; [|done|done].
  cbn [mbind outcome_bind]. destruct woken; cbn [negb]; [|done].
  by destruct (unlocked N env2 this2) as [this3 env3].
Qed.

(** One turn of the loop on a ring that holds the frame. *)
Lemma getCameraData_loop_present fuel frameID v env this :
  stored frameID this = Some v →
  getCameraData_loop N (S fuel) frameID env this = Ret (Some v, this, [], env).
Proof.
  intros Hst%stored_Some. cbn [getCameraData_loop]. unfold at_.
  fold (slot frameID). rewrite Hst. simpl. by rewrite Z.eqb_refl.
Qed.

(** The wait on a ring that holds the frame returns at once. *)
Lemma cv_wait_for_present t frameID v env this :
  ring_sized this → stored frameID this = Some v →
  cv_wait_for N t frameID env this = Ret (true, this, env).
Proof.
  intros Hs Hst. destruct env; simpl; rewrite (frame_arrived_stored _ _ Hs);
    simpl; rewrite Hst; by rewrite bool_decide_eq_true_2.
Qed.

(** The wait on a ring that does not hold the frame lets one window pass;
    it ends there when its timeout is 0 or the deadline passes in that
    window, and goes on waiting otherwise. *)
Lemma cv_wait_for_absent t frameID e env this :
  ring_sized this → stored frameID this = None →
  cv_wait_for N t frameID (e :: env) this
  = if (t <=? 0) || timed_out e
    then Ret (bool_decide (is_Some (stored frameID (Reflex.passed N [e] this))),
              Reflex.passed N [e] this, env)
    else cv_wait_for N t frameID env (Reflex.passed N [e] this).
Proof.
  intros Hs Hst. cbn [cv_wait_for Reflex.passed foldl].
  rewrite (frame_arrived_stored _ _ Hs). cbn [mbind outcome_bind].
  rewrite Hst. rewrite bool_decide_eq_false_2 by (by intros [? ?]).
  destruct ((t <=? 0) || timed_out e); [|done].
  by rewrite (frame_arrived_stored _ _ (apply_producers_sized _ _ Hs)).
Qed.

(** A wait with a positive timeout goes through the windows in which the
    frame does not arrive and the deadline does not pass. *)
Lemma cv_wait_for_quiet t frameID quiet env this :
  ring_sized this → 0 < t →
  Forall (λ e, timed_out e = false) quiet →
  (∀ k, (k ≤ length quiet)%nat →
        stored frameID (Reflex.passed N (take k quiet) this) = None) →
  cv_wait_for N t frameID (quiet ++ env) this
  = cv_wait_for N t frameID env (Reflex.passed N quiet this).
Proof.
  intros Hs Ht Hquiet. revert this Hs.
  induction Hquiet as [|e quiet He _ IH]; intros this Hs Habsent; [done|].
  pose proof (Habsent 0%nat ltac:(simpl; lia)) as H0. simpl in H0.
  rewrite <- app_comm_cons, (cv_wait_for_absent _ _ _ _ _ Hs H0), He.
  destruct (Z.leb_spec t 0) as [?|_]; [lia|]. cbn [orb].
  change (e :: quiet) with ([e] ++ quiet). rewrite passed_app.
  apply IH; [by apply passed_sized|].
  intros k Hk. specialize (Habsent (S k) ltac:(simpl; lia)).
  by rewrite firstn_cons in Habsent.
Qed.

(** C8.  The timeout of the wait is 0 for the frames below 5 and 100 ms
    for the others.  [getCameraData] never throws; it logs warnings only,
    never an error, and every wait of the call is made with that timeout.
    When it returns empty, its last actions are the warning that the frame
    was not readily available, one failed wait, and for the frames from 5
    on the warning of the time-out; with no producer running these are all
    its actions.

    A read of a frame below 5 does not block: when the frame is not there
    and does not arrive while the reader lets go of the mutex, once before
    the wait and once in it, the read returns empty, whether or not a
    deadline passed and whatever the producers would write later.  A read
    of a frame from 5 on blocks: it waits through the windows in which the
    frame does not arrive and the deadline does not pass, returns the
    frame when a producer writes it, and returns empty at the first window
    in which the deadline passes. *)
Theorem get_timeout_policy (this : manager) frameID env :
  ring_sized this →
  (frameID < 5 → timeout frameID = 0)
  ∧ (5 ≤ frameID → timeout frameID = 100)
  ∧ (∃ r this' acts env',
       getCameraData frameID env this = Ret (r, this', acts, env')
       ∧ Forall (λ a, is_error a = false
                      ∧ (frameID < 5 → blocking a = false)
                      ∧ ∀ t b, a = wait_for t b → t = timeout frameID) acts
       ∧ (r = None → ∃ before, acts = before ++ gave_up frameID))
  ∧ (stored frameID this = None →
       getCameraData frameID [] this = Ret (None, this, gave_up frameID, []))
  ∧ (frameID < 5 →
       gave_up frameID
       = [SL_LOG_WARN (NotReadilyAvailable frameID); wait_for 0 false])
  ∧ (5 ≤ frameID →
       gave_up frameID
       = [SL_LOG_WARN (NotReadilyAvailable frameID); wait_for 100 false;
          SL_LOG_WARN (TimeOut frameID 100)])
  ∧ (frameID < 5 → ∀ e1 e2 rest,
       stored frameID this = None →
       stored frameID (Reflex.passed N [e1] this) = None →
       stored frameID (Reflex.passed N [e1; e2] this) = None →
       getCameraData frameID (e1 :: e2 :: rest) this
       = Ret (None, Reflex.passed N [e1; e2] this,
              [SL_LOG_WARN (NotReadilyAvailable frameID); wait_for 0 false],
              rest))
  ∧ (5 ≤ frameID → ∀ e1 quiet e v,
       stored frameID this = None →
       Forall (λ e', timed_out e' = false) quiet →
       (∀ k, (k ≤ length quiet)%nat →
             stored frameID (Reflex.passed N (e1 :: take k quiet) this) = None) →
       stored frameID (Reflex.passed N (e1 :: quiet ++ [e]) this) = Some v →
       getCameraData frameID (e1 :: quiet ++ [e]) this
       = Ret (Some v, Reflex.passed N (e1 :: quiet ++ [e]) this,
              [SL_LOG_WARN (NotReadilyAvailable frameID); wait_for 100 true],
              []))
  ∧ (5 ≤ frameID → ∀ e1 quiet e rest,
       stored frameID this = None →
       Forall (λ e', timed_out e' = false) quiet →
       (∀ k, (k ≤ length quiet)%nat →
             stored frameID (Reflex.passed N (e1 :: take k quiet) this) = None) →
       timed_out e = true →
       stored frameID (Reflex.passed N (e1 :: quiet ++ [e]) this) = None →
       getCameraData frameID (e1 :: quiet ++ e :: rest) this
       = Ret (None, Reflex.passed N (e1 :: quiet ++ [e]) this,
              [SL_LOG_WARN (NotReadilyAvailable frameID); wait_for 100 false;
               SL_LOG_WARN (TimeOut frameID 100)],
              rest)).
Proof.
  intros Hs.
  assert (frameID < 5 → timeout frameID = 0) as H0.
  { intros ?. unfold timeout. by destruct (Z.ltb_spec frameID 5); [|lia]. }
  assert (5 ≤ frameID → timeout frameID = 100) as H100.
  { intros ?. unfold timeout. by destruct (Z.ltb_spec frameID 5); [lia|]. }
  split; [done|]. split; [done|].
  split; [|split; [|split; [|split; [|split; [|split]]]]].
  - destruct (getCameraData_returns frameID env this Hs)
      as (this' & acts & env' & E & _ & Ha & Hg & _).
    exists (stored frameID this'), this', acts, env'.
    split; [done|]. split; [|done].
    eapply Forall_impl; [|exact Ha]. intros a [->|[->|[b ->]]]; simpl.
    + split; [done|]. split; [done|]. intros t b [=].
    + split; [done|]. split; [done|]. intros t b [=].
    + split; [done|]. split.
      * intros Hlt. rewrite (H0 Hlt). done.
      * by intros t b' [= <- _].
  - by apply getCameraData_alone.
  - intros Hlt. unfold gave_up. by rewrite (H0 Hlt).
  - intros Hge. unfold gave_up. by rewrite (H100 Hge).
  - intros Hlt e1 e2 rest Habsent H1 H2.
    unfold Reflex.getCameraData.
    rewrite (getCameraData_loop_absent _ _ _ _ Hs Habsent).
    cbn [unlocked fst snd].
    change (apply_producers N (producers e1) this)
      with (Reflex.passed N [e1] this).
    rewrite (cv_wait_for_absent _ _ _ _ _ (passed_sized [e1] _ Hs) H1).
    rewrite (H0 Hlt). cbn [Z.leb Z.compare orb].
    change (Reflex.passed N [e2] (Reflex.passed N [e1] this))
      with (Reflex.passed N [e1; e2] this).
    rewrite H2. rewrite bool_decide_eq_false_2 by (by intros [? ?]).
    cbn [mbind outcome_bind negb]. unfold gave_up. by rewrite (H0 Hlt).
  - intros Hge e1 quiet e v Habsent Hquiet Hstill Hthere.
    unfold Reflex.getCameraData.
    rewrite (getCameraData_loop_absent _ _ _ _ Hs Habsent).
    cbn [unlocked fst snd].
    change (apply_producers N (producers e1) this)
      with (Reflex.passed N [e1] this).
    pose proof (passed_sized [e1] _ Hs) as Hs1.
    rewrite (H100 Hge).
    rewrite (cv_wait_for_quiet 100 frameID quiet [e] _ Hs1 ltac:(lia) Hquiet)
      by (intros k Hk; apply (Hstill k Hk)).
    pose proof (Hstill (length quiet) ltac:(lia)) as Hlast.
    rewrite firstn_all in Hlast.
    change (e1 :: quiet) with ([e1] ++ quiet) in Hlast.
    rewrite passed_app in Hlast.
    change (e1 :: quiet ++ [e]) with ([e1] ++ quiet ++ [e]) in Hthere |- *.
    rewrite !passed_app in Hthere |- *.
    pose proof (passed_sized quiet _ Hs1) as Hs2.
    pose proof (passed_sized [e] _ Hs2) as Hs3.
    rewrite (cv_wait_for_absent _ _ _ _ _ Hs2 Hlast).
    assert ((if (100 <=? 0) || timed_out e
             then Ret (bool_decide (is_Some
                         (stored frameID
                            (Reflex.passed N [e]
                               (Reflex.passed N quiet
                                  (Reflex.passed N [e1] this))))),
                       Reflex.passed N [e]
                         (Reflex.passed N quiet (Reflex.passed N [e1] this)),
                       [])
             else cv_wait_for N 100 frameID []
                    (Reflex.passed N [e]
                       (Reflex.passed N quiet (Reflex.passed N [e1] this))))
            = Ret (true,
                   Reflex.passed N [e]
                     (Reflex.passed N quiet (Reflex.passed N [e1] this)),
                   [])) as ->.
    { destruct ((100 <=? 0) || timed_out e).
      - rewrite Hthere. by rewrite bool_decide_eq_true_2.
      - by apply (cv_wait_for_present _ _ v). }
    cbn [mbind outcome_bind negb unlocked fst snd].
    change (length ([e1] ++ quiet ++ [e])) with (S (length (quiet ++ [e]))).
    rewrite (getCameraData_loop_present _ _ v _ _ Hthere).
    by cbn [mbind outcome_bind].
  - intros Hge e1 quiet e rest Habsent Hquiet Hstill Hlate Hnone.
    unfold Reflex.getCameraData.
    rewrite (getCameraData_loop_absent _ _ _ _ Hs Habsent).
    cbn [unlocked fst snd].
    change (apply_producers N (producers e1) this)
      with (Reflex.passed N [e1] this).
    pose proof (passed_sized [e1] _ Hs) as Hs1.
    rewrite (H100 Hge).
    rewrite (cv_wait_for_quiet 100 frameID quiet (e :: rest) _ Hs1
               ltac:(lia) Hquiet)
      by (intros k Hk; apply (Hstill k Hk)).
    pose proof (Hstill (length quiet) ltac:(lia)) as Hlast.
    rewrite firstn_all in Hlast.
    change (e1 :: quiet) with ([e1] ++ quiet) in Hlast.
    rewrite passed_app in Hlast.
    change (e1 :: quiet ++ [e]) with ([e1] ++ quiet ++ [e]) in Hnone |- *.
    rewrite !passed_app in Hnone |- *.
    pose proof (passed_sized quiet _ Hs1) as Hs2.
    rewrite (cv_wait_for_absent _ _ _ _ _ Hs2 Hlast), Hlate, orb_true_r.
    rewrite Hnone. rewrite bool_decide_eq_false_2 by (by intros [? ?]).
    cbn [mbind outcome_bind negb]. unfold gave_up. by rewrite (H100 Hge).
Qed.

(** C10.  On the ring the constructor makes, every slot holds the index 0
    and the value-initialised payload, so a read of frame 0 returns that
    payload at once, with no warning and no wait, under any interleaving
    of producers, although [insertCameraData 0 v] stores nothing. *)
Theorem fresh_ring_serves_frame_zero env v :
  (∀ i, (i < Z.to_nat N)%nat →
        cameraData (construct T_default N) !! i = Some (0, T_default))
  ∧ getCameraData 0 env (construct T_default N)
    = Ret (Some T_default, construct T_default N, [], env)
  ∧ insertCameraData 0 v (construct T_default N)
    = Ret (construct T_default N, []).
Proof.
  split; [apply construct_lookup|]. split; [|done].
  apply getCameraData_immediate. apply construct_lookup. apply slot_lt.
Qed.

End Ring.

(** A write never puts the index 0 into a slot: the slots that carry the
    index 0 after it carried it before, with the same payload. *)
Lemma insert_keeps_index_zero {T : Type} (N : Z) frameID (v : T) this this' acts i d :
  insertCameraData N frameID v this = Ret (this', acts) →
  cameraData this' !! i = Some (0, d) →
  cameraData this !! i = Some (0, d).
Proof.
  unfold insertCameraData.
  destruct (Z.leb_spec frameID 0) as [Hle|Hpos]; [by intros [= <- _]|].
  destruct (at_ (cameraData this) (frameID `mod` N)) as [[g w]| |]; simpl; [|done..].
  destruct (frameID =? g); [by intros [= <- _]|].
  intros [= <- _]. simpl.
  intros [(_ & [= ? _] & _)|[_ ?]]%list_lookup_insert_Some; [lia|done].
Qed.

(** C7.  [insertCameraData 0 v] stores nothing: the ring, its slots and
    [lastFrame], is returned as it was, and nothing is logged or signalled;
    this holds for every capacity and every state of the ring.  Hence no
    sequence of writes stores data under the index 0: in a ring made by the
    constructor, a slot that carries the index 0 carries the
    value-initialised payload. *)
Theorem frame_zero_is_never_stored {T : Type} (N : Z) (v : T)
    (this : ReflexCameraDataManager T) :
  insertCameraData N 0 v this = Ret (this, [])
  ∧ ∀ (T_default : T) writes i d,
      cameraData (apply_producers N writes (construct T_default N)) !! i
      = Some (0, d) →
      d = T_default.
Proof.
  split; [reflexivity|]. intros T_default writes.
  assert (∀ this0 : ReflexCameraDataManager T,
            (∀ i d, cameraData this0 !! i = Some (0, d) → d = T_default) →
            ∀ i d, cameraData (apply_producers N writes this0) !! i = Some (0, d) →
                   d = T_default) as Hinv.
  { induction writes as [|[f x] writes IH]; intros this0 H0; simpl; [done|].
    destruct (insertCameraData N f x this0) as [[this1 acts]| |] eqn:E;
      [|by apply IH..].
    apply IH. intros i d Hi. eapply H0, insert_keeps_index_zero; eauto. }
  apply Hinv. simpl. intros i d [[= <-] _]%lookup_replicate. done.
Qed.

(** ** The query entry points *)

Section Entry.

Variables ReflexCameraData ReflexPredictedCameraData : Type.
Variable N : Z.
Hypothesis N_pos : 0 < N.

Local Abbreviation LatencyContext :=
  (Reflex.LatencyContext ReflexCameraData ReflexPredictedCameraData).

(** The entry point does what [getCameraData] on [simCameraData] does and
    then branches on [has_value()]. *)
Lemma slReflexGetCameraDataInternal_unfold (ctx : LatencyContext) frame out env
    r sim acts env' :
  getCameraData N frame env (simCameraData _ _ ctx) = Ret (r, sim, acts, env') →
  slReflexGetCameraDataInternal _ _ N frame out env ctx
  = let ctx' := {| simCameraData := sim;
                   predCameraData := predCameraData _ _ ctx;
                   predictCamera := predictCamera _ _ ctx |} in
    match r with
    | None => Ret (eErrorInvalidState, out, ctx',
                   acts ++ [SL_LOG_WARN (CouldNotGet frame)], env')
    | Some value => Ret (eOk, value, ctx', acts, env')
    end.
Proof. intros E. unfold slReflexGetCameraDataInternal. by rewrite E. Qed.

(** The sibling entry point for the predicted camera data behaves in the
    same way on [predCameraData], and switches the prediction on. *)
Lemma slReflexGetPredictedCameraData_missing (ctx : LatencyContext) frame out env
    pred acts env' :
  getCameraData N frame env (predCameraData _ _ ctx) = Ret (None, pred, acts, env') →
  slReflexGetPredictedCameraData _ _ N frame out env ctx
  = Ret (eErrorInvalidState, out,
         {| simCameraData := simCameraData _ _ ctx;
            predCameraData := pred;
            predictCamera := true |},
         acts ++ [SL_LOG_WARN (CouldNotGetPredicted frame)], env').
Proof. intros E. unfold slReflexGetPredictedCameraData. by rewrite E. Qed.

(** C9.  [slReflexGetCameraDataInternal] returns and does not throw.  When
    [getCameraData] returns empty it returns [eErrorInvalidState], leaves
    [outCameraData] as the caller passed it, and logs one more warning;
    and [eErrorInvalidState] is returned in that case only. *)
Theorem missing_camera_data_is_a_typed_error (ctx : LatencyContext) frame out env :
  ring_sized N (simCameraData _ _ ctx) →
  (∃ res out' ctx' acts env',
      slReflexGetCameraDataInternal _ _ N frame out env ctx
      = Ret (res, out', ctx', acts, env')
      ∧ (res = eErrorInvalidState →
         stored N frame (simCameraData _ _ ctx') = None ∧ out' = out))
  ∧ (∀ sim acts env',
      getCameraData N frame env (simCameraData _ _ ctx) = Ret (None, sim, acts, env') →
      slReflexGetCameraDataInternal _ _ N frame out env ctx
      = Ret (eErrorInvalidState, out,
             {| simCameraData := sim;
                predCameraData := predCameraData _ _ ctx;
                predictCamera := predictCamera _ _ ctx |},
             acts ++ [SL_LOG_WARN (CouldNotGet frame)], env')).
Proof.
  intros Hs. split.
  - destruct (getCameraData_returns N N_pos frame env _ Hs)
      as (sim & acts & env' & E & _).
    rewrite (slReflexGetCameraDataInternal_unfold _ _ _ _ _ _ _ _ E). simpl.
    destruct (stored N frame sim) eqn:Hst; eexists _, _, _, _, _;
      (split; [done|]); [done|]. intros _. done.
  - intros sim acts env' E.
    by rewrite (slReflexGetCameraDataInternal_unfold _ _ _ _ _ _ _ _ E).
Qed.

End Entry.

(** ** The claims on a ring of capacity 4 *)

Section Capacity4.

Import Scenario.

Local Abbreviation insert := (insertCameraData (T:=Z) 4).
Local Abbreviation get := (getCameraData (T:=Z) 4).

(** C1 as the specification words it fails for [f2 = 0]: frames 4 and 0
    share slot 0 of a ring of capacity 4, the write of frame 0 stores
    nothing, and the read of frame 4 still returns the value written for
    it. *)
Lemma write_of_frame_zero_supersedes_nothing :
  4 ≠ 0 ∧ 4 mod 4 = 0 mod 4
  ∧ insert 4 11 fresh
    = Ret (ring [(4, 11); (0, 0); (0, 0); (0, 0)] 4,
           [SL_LOG_WARN (OutOfOrder 0 4); notify_one])
  ∧ insert 0 22 (ring [(4, 11); (0, 0); (0, 0); (0, 0)] 4)
    = Ret (ring [(4, 11); (0, 0); (0, 0); (0, 0)] 4, [])
  ∧ get 4 [] (ring [(4, 11); (0, 0); (0, 0); (0, 0)] 4)
    = Ret (Some 11, ring [(4, 11); (0, 0); (0, 0); (0, 0)] 4, [], [])
  ∧ (∀ this' acts env',
       get 4 [] (ring [(4, 11); (0, 0); (0, 0); (0, 0)] 4)
       ≠ Ret (None, this', acts, env')).
Proof. repeat split; done. Qed.

(** Frames 1 and 5 on the fresh ring of capacity 4. *)
Lemma read_exact_write_supersedes_witness :
  0 < 4 ∧ ring_sized 4 fresh ∧ 1 ≠ 5 ∧ 1 mod 4 = 5 mod 4 ∧ 0 < 5
  ∧ ∃ this1 acts1 this2 acts2,
      insert 1 11 fresh = Ret (this1, acts1)
      ∧ insert 5 55 this1 = Ret (this2, acts2)
      ∧ get 1 [] this2 = Ret (None, this2, gave_up 1, []).
Proof.
  split; [reflexivity|]. split; [reflexivity|]. split; [discriminate|].
  split; [reflexivity|]. split; [reflexivity|].
  apply (proj2 (read_exact_write_supersedes 4 eq_refl fresh eq_refl) 1 5 11 55);
    [discriminate|reflexivity|reflexivity].
Defined.

(** C4 as the specification words it fails: after the writes of frames 6
    and 1, the write of the older frame 2 is applied over the data of
    frame 6 in slot 2, and since 2 follows [lastFrame = 1] no warning is
    logged; the frame that replaces frame 6 is not frame [6 + 4]. *)
Lemma stale_write_replaces_newer_frame_silently :
  insert 6 66 fresh
  = Ret (ring [(0, 0); (0, 0); (6, 66); (0, 0)] 6,
         [SL_LOG_WARN (OutOfOrder 0 6); notify_one])
  ∧ insert 1 11 (ring [(0, 0); (0, 0); (6, 66); (0, 0)] 6)
    = Ret (ring [(0, 0); (1, 11); (6, 66); (0, 0)] 1,
           [SL_LOG_WARN (OutOfOrder 6 1); notify_one])
  ∧ insert 2 22 (ring [(0, 0); (1, 11); (6, 66); (0, 0)] 1)
    = Ret (ring [(0, 0); (1, 11); (2, 22); (0, 0)] 2, [notify_one])
  ∧ cameraData (ring [(0, 0); (1, 11); (6, 66); (0, 0)] 1) !! slot 4 2
    = Some (6, 66)
  ∧ 2 ≠ 6 + 4 ∧ 2 < 6.
Proof. repeat split; done. Qed.

(** The write of frame 2 over frame 6, after frame 1. *)
Lemma slot_overwritten_by_any_alias_witness :
  0 < 4 ∧ ring_sized 4 (ring [(0, 0); (1, 11); (6, 66); (0, 0)] 1)
  ∧ ∃ this' acts,
      insert 2 22 (ring [(0, 0); (1, 11); (6, 66); (0, 0)] 1) = Ret (this', acts)
      ∧ cameraData this' !! 2%nat = Some (2, 22)
      ∧ acts = [notify_one].
Proof.
  split; [reflexivity|]. split; [reflexivity|].
  destruct (slot_overwritten_by_any_alias 4 eq_refl
              (ring [(0, 0); (1, 11); (6, 66); (0, 0)] 1) 2 22 eq_refl)
    as (this' & acts & E & Hslots & _ & _ & Hsilent).
  exists this', acts. split; [exact E|]. split.
  - apply (proj1 (Hslots 2%nat 6 66 eq_refl)).
    split; [reflexivity|]. split; [reflexivity|discriminate].
  - apply Hsilent; reflexivity.
Defined.

(** C5 as the specification words it fails: the second write of frame 1 is
    dropped, and the read returns the value of the first. *)
Lemma second_write_of_a_frame_is_dropped :
  insert 1 11 fresh
  = Ret (ring [(0, 0); (1, 11); (0, 0); (0, 0)] 1, [notify_one])
  ∧ insert 1 22 (ring [(0, 0); (1, 11); (0, 0); (0, 0)] 1)
    = Ret (ring [(0, 0); (1, 11); (0, 0); (0, 0)] 1,
           [SL_LOG_WARN (AlreadySet 1)])
  ∧ get 1 [] (ring [(0, 0); (1, 11); (0, 0); (0, 0)] 1)
    = Ret (Some 11, ring [(0, 0); (1, 11); (0, 0); (0, 0)] 1, [], [])
  ∧ (∀ this' acts env',
       get 1 [] (ring [(0, 0); (1, 11); (0, 0); (0, 0)] 1)
       ≠ Ret (Some 22, this', acts, env')).
Proof. repeat split; done. Qed.

(** A second write of frame 1. *)
Lemma duplicate_write_is_rejected_witness :
  0 < 1
  ∧ cameraData (ring [(0, 0); (1, 11); (0, 0); (0, 0)] 1) !! slot 4 1 = Some (1, 11)
  ∧ insert 1 22 (ring [(0, 0); (1, 11); (0, 0); (0, 0)] 1)
    = Ret (ring [(0, 0); (1, 11); (0, 0); (0, 0)] 1, [SL_LOG_WARN (AlreadySet 1)])
  ∧ ∀ env, get 1 env (ring [(0, 0); (1, 11); (0, 0); (0, 0)] 1)
           = Ret (Some 11, ring [(0, 0); (1, 11); (0, 0); (0, 0)] 1, [], env).
Proof.
  split; [reflexivity|]. split; [reflexivity|].
  apply (duplicate_write_is_rejected 4
           (ring [(0, 0); (1, 11); (0, 0); (0, 0)] 1) 1 11 22);
    reflexivity.
Defined.

(** Frame 3 as the first write on the fresh ring. *)
Lemma out_of_order_write_is_applied_witness :
  0 < 4 ∧ ring_sized 4 fresh ∧ is_u32 (lastFrame fresh) ∧ 0 < 3
  ∧ 3 ≠ lastFrame fresh + 1
  ∧ (∀ d, cameraData fresh !! slot 4 3 ≠ Some (3, d))
  ∧ ∃ this',
      insert 3 33 fresh
      = Ret (this', [SL_LOG_WARN (OutOfOrder (lastFrame fresh) 3); notify_one])
      ∧ cameraData this' !! slot 4 3 = Some (3, 33)
      ∧ lastFrame this' = 3
      ∧ ∀ env, get 3 env this' = Ret (Some 33, this', [], env).
Proof.
  assert (is_u32 (lastFrame fresh)) as Hlast by (split; [discriminate|reflexivity]).
  assert (∀ d, cameraData fresh !! slot 4 3 ≠ Some (3, d)) as Hnew
    by (intros d; discriminate).
  split; [reflexivity|]. split; [reflexivity|]. split; [exact Hlast|].
  split; [reflexivity|]. split; [discriminate|]. split; [exact Hnew|].
  apply (out_of_order_write_is_applied 4 eq_refl fresh 3 33 eq_refl Hlast eq_refl);
    [discriminate|exact Hnew].
Defined.

(** A write of frame 0 on the fresh ring, and slot 0 after the writes of
    frames 0 and 1. *)
Lemma frame_zero_is_never_stored_witness :
  insert 0 99 fresh = Ret (fresh, [])
  ∧ cameraData (apply_producers 4 [(0, 99); (1, 11)] (construct 0 4)) !! 0%nat
    = Some (0, 0)
  ∧ (0 : Z) = 0.
Proof.
  destruct (frame_zero_is_never_stored 4 99 fresh) as [Hsame Hzero].
  split; [exact Hsame|]. split; [reflexivity|].
  exact (Hzero 0 [(0, 99); (1, 11)] 0%nat 0 eq_refl).
Defined.

(** Reads of the absent frames 7 and 3 on the fresh ring: with no
    producer; with a producer that writes the frame in the third window,
    which the read of frame 3 does not wait for and the read of frame 7
    does; with the deadline passing before the producer writes. *)
Lemma get_timeout_policy_witness :
  0 < 4 ∧ ring_sized 4 fresh
  ∧ get 7 [] fresh
    = Ret (None, fresh,
           [SL_LOG_WARN (NotReadilyAvailable 7); wait_for 100 false;
            SL_LOG_WARN (TimeOut 7 100)], [])
  ∧ get 3 [] fresh
    = Ret (None, fresh, [SL_LOG_WARN (NotReadilyAvailable 3); wait_for 0 false], [])
  ∧ get 3 [idle; idle; writes 3 30] fresh
    = Ret (None, fresh, [SL_LOG_WARN (NotReadilyAvailable 3); wait_for 0 false],
           [writes 3 30])
  ∧ get 7 [idle; idle; writes 7 70] fresh
    = Ret (Some 70, ring [(0, 0); (0, 0); (0, 0); (7, 70)] 7,
           [SL_LOG_WARN (NotReadilyAvailable 7); wait_for 100 true], [])
  ∧ get 7 [idle; idle; late; writes 7 70] fresh
    = Ret (None, fresh,
           [SL_LOG_WARN (NotReadilyAvailable 7); wait_for 100 false;
            SL_LOG_WARN (TimeOut 7 100)], [writes 7 70]).
Proof.
  split; [reflexivity|]. split; [reflexivity|].
  destruct (get_timeout_policy 4 eq_refl fresh 7 [] eq_refl)
    as (_ & _ & _ & Hget7 & _ & Hshape7 & _ & Hwoken7 & Hlate7).
  destruct (get_timeout_policy 4 eq_refl fresh 3 [] eq_refl)
    as (_ & _ & _ & Hget3 & Hshape3 & _ & Hnow3 & _).
  split; [|split; [|split; [|split]]].
  - rewrite <- Hshape7 by discriminate. apply Hget7. reflexivity.
  - rewrite <- Hshape3 by reflexivity. apply Hget3. reflexivity.
  - exact (Hnow3 eq_refl idle idle [writes 3 30] eq_refl eq_refl eq_refl).
  - refine (Hwoken7 _ idle [idle] (writes 7 70) 70 eq_refl _ _ eq_refl).
    + discriminate.
    + repeat constructor.
    + intros [|[|k]] Hk; [reflexivity|reflexivity|simpl in Hk; lia].
  - refine (Hlate7 _ idle [idle] late [writes 7 70] eq_refl _ _ eq_refl eq_refl).
    + discriminate.
    + repeat constructor.
    + intros [|[|k]] Hk; [reflexivity|reflexivity|simpl in Hk; lia].
Defined.

(** A query for frame 7 in a context whose rings are fresh. *)
Lemma missing_camera_data_is_a_typed_error_witness :
  0 < 4 ∧ ring_sized 4 (simCameraData _ _ context)
  ∧ slReflexGetCameraDataInternal Z Z 4 7 99 [] context
    = Ret (eErrorInvalidState, 99, context,
           [SL_LOG_WARN (NotReadilyAvailable 7); wait_for 100 false;
            SL_LOG_WARN (TimeOut 7 100); SL_LOG_WARN (CouldNotGet 7)], []).
Proof.
  split; [reflexivity|]. split; [reflexivity|].
  exact (proj2 (missing_camera_data_is_a_typed_error Z Z 4 eq_refl context
                  7 99 [] eq_refl)
           fresh
           [SL_LOG_WARN (NotReadilyAvailable 7); wait_for 100 false;
            SL_LOG_WARN (TimeOut 7 100)]
           [] eq_refl).
Defined.

(** The fresh ring of capacity 4. *)
Lemma fresh_ring_serves_frame_zero_witness :
  0 < 4
  ∧ get 0 [] fresh = Ret (Some 0, fresh, [], [])
  ∧ insert 0 11 fresh = Ret (fresh, []).
Proof.
  split; [reflexivity|].
  apply (proj2 (fresh_ring_serves_frame_zero 0 4 eq_refl [] 11)).
Defined.

(** *** The ring at work *)

(** Frames 1 to 4 fill the ring; a read of frame 1 returns its value; a read
    of frame 5, which nobody writes, waits 100 ms and returns empty; after
    the write of frame 5 the read of frame 1 returns empty, since frame 5
    took its slot. *)
Example frames_one_to_five :
  apply_producers 4 [(1, 11); (2, 22); (3, 33); (4, 44)] fresh
  = ring [(4, 44); (1, 11); (2, 22); (3, 33)] 4
  ∧ get 1 [] (ring [(4, 44); (1, 11); (2, 22); (3, 33)] 4)
    = Ret (Some 11, ring [(4, 44); (1, 11); (2, 22); (3, 33)] 4, [], [])
  ∧ get 5 [] (ring [(4, 44); (1, 11); (2, 22); (3, 33)] 4)
    = Ret (None, ring [(4, 44); (1, 11); (2, 22); (3, 33)] 4,
           [SL_LOG_WARN (NotReadilyAvailable 5); wait_for 100 false;
            SL_LOG_WARN (TimeOut 5 100)], [])
  ∧ insert 5 55 (ring [(4, 44); (1, 11); (2, 22); (3, 33)] 4)
    = Ret (ring [(4, 44); (5, 55); (2, 22); (3, 33)] 5, [notify_one])
  ∧ get 1 [] (ring [(4, 44); (5, 55); (2, 22); (3, 33)] 5)
    = Ret (None, ring [(4, 44); (5, 55); (2, 22); (3, 33)] 5,
           [SL_LOG_WARN (NotReadilyAvailable 1); wait_for 0 false], []).
Proof. repeat split. Qed.

(** A reader that waits for frame 7 is woken by the producer that writes it:
    nothing happens between its two locked blocks, frame 6 arrives during
    the wait and does not end it, frame 7 does. *)
Example reader_is_woken_by_the_producer :
  get 7 [ {| producers := []; timed_out := false |};
          {| producers := [(6, 66)]; timed_out := false |};
          {| producers := [(7, 77)]; timed_out := false |} ] fresh
  = Ret (Some 77, ring [(0, 0); (0, 0); (6, 66); (7, 77)] 7,
         [SL_LOG_WARN (NotReadilyAvailable 7); wait_for 100 true], []).
Proof. reflexivity. Qed.

(** The same reader gives up when the wait reaches its deadline before
    frame 7 is written. *)
Example reader_gives_up_at_the_deadline :
  get 7 [ {| producers := []; timed_out := false |};
          {| producers := [(6, 66)]; timed_out := true |};
          {| producers := [(7, 77)]; timed_out := false |} ] fresh
  = Ret (None, ring [(0, 0); (0, 0); (6, 66); (0, 0)] 6,
         [SL_LOG_WARN (NotReadilyAvailable 7); wait_for 100 false;
          SL_LOG_WARN (TimeOut 7 100)],
         [ {| producers := [(7, 77)]; timed_out := false |} ]).
Proof. reflexivity. Qed.

End Capacity4.

End ReflexProofs.

Module InterposerProofs.

Import Interposer.

(** ** Properties of the hooked entry points *)

Section Dispatch.

Context {World Feature : Type}.

(** *** The loops *)

(** A loop that runs out of hooks has called them all. *)
Lemma forBeforeHooks_done {A : Type} (hooks : list (BeforeHook A * Feature))
    args r s (w : World) r' s' w' called :
  forBeforeHooks hooks args r s w = (DoneB r' s' w', called) → called = hooks.
Proof.
  revert r s w called.
  induction hooks as [|[h f] hooks IH]; intros r s w called; simpl.
  - by intros [= _ _ _ <-].
  - destruct (h args s w) as [[r1 s1] w1].
    destruct (negb (r1 =? VK_SUCCESS)); [done|].
    destruct (forBeforeHooks hooks args r1 s1 w1) as [e c] eqn:E.
    intros [= -> <-]. f_equal. by eapply IH.
Qed.

(** A loop that returns from its body returns a failure. *)
Lemma forBeforeHooks_return {A : Type} (hooks : list (BeforeHook A * Feature))
    args r s (w : World) r' w' called :
  forBeforeHooks hooks args r s w = (ReturnB r' w', called) → r' ≠ VK_SUCCESS.
Proof.
  revert r s w called.
  induction hooks as [|[h f] hooks IH]; intros r s w called; simpl; [done|].
  destruct (h args s w) as [[r1 s1] w1].
  destruct (Z.eqb_spec r1 VK_SUCCESS) as [->|Hne]; simpl.
  - destruct (forBeforeHooks hooks args VK_SUCCESS s1 w1) as [e c] eqn:E.
    intros [= -> <-]. by eapply IH.
  - by intros [= <- _ _].
Qed.

(** Hooks that always succeed take the loop to its end. *)
Lemma forBeforeHooks_all_succeed {A : Type} (hooks : list (BeforeHook A * Feature))
    args r s (w : World) :
  Forall (λ h, ∀ a s' w', (h.1 a s' w').1.1 = VK_SUCCESS) hooks →
  ∃ r' s' w', forBeforeHooks hooks args r s w = (DoneB r' s' w', hooks).
Proof.
  intros Hall. revert r s w.
  induction Hall as [|[h f] hooks Hh _ IH]; intros r s w; simpl; [by eauto|].
  specialize (Hh args s w). simpl in Hh.
  destruct (h args s w) as [[r1 s1] w1]. simpl in Hh. subst r1. simpl.
  destruct (IH VK_SUCCESS s1 w1) as (r' & s' & w' & ->). by eauto.
Qed.

(** The first hook that fails ends the loop: the hooks after it are not
    called, and what the hooks before it did stays done. *)
Lemma forBeforeHooks_first_failure {A : Type}
    (pre post : list (BeforeHook A * Feature)) h feature
    args r s (w : World) r1 s1 w1 rf sf wf :
  (forBeforeHooks pre args r s w).1 = DoneB r1 s1 w1 →
  h args s1 w1 = (rf, sf, wf) →
  rf ≠ VK_SUCCESS →
  forBeforeHooks (pre ++ (h, feature) :: post) args r s w
  = (ReturnB rf wf, pre ++ [(h, feature)]).
Proof.
  intros Hpre Hh Hrf. revert r s w Hpre.
  induction pre as [|[h0 f0] pre IH]; intros r s w; simpl.
  - intros [= -> -> ->]. rewrite Hh.
    by destruct (Z.eqb_spec rf VK_SUCCESS).
  - destruct (h0 args s w) as [[r0 s0] w0].
    destruct (negb (r0 =? VK_SUCCESS)); [done|].
    destruct (forBeforeHooks pre args r0 s0 w0) as [e c] eqn:E. simpl.
    intros ->. specialize (IH r0 s0 w0). rewrite E in IH.
    by rewrite IH.
Qed.

Lemma forAfterHooks_called {B : Type} (hooks : list (AfterHook B * Feature))
    args r (w : World) e called :
  forAfterHooks hooks args r w = (e, called) →
  called `prefix_of` hooks
  ∧ (∀ r' w', e = DoneA r' w' → called = hooks)
  ∧ (∀ r' w', e = ReturnA r' w' → r' ≠ VK_SUCCESS).
Proof.
  revert r w e called.
  induction hooks as [|[h f] hooks IH]; intros r w e called; simpl.
  - intros [= <- <-]. done.
  - destruct (h args w) as [r1 w1].
    destruct (Z.eqb_spec r1 VK_SUCCESS) as [->|Hne]; simpl.
    + destruct (forAfterHooks hooks args VK_SUCCESS w1) as [e' c] eqn:E.
      intros [= <- <-]. destruct (IH _ _ _ _ E) as (Hp & Hd & Hr).
      split; [by apply prefix_cons|]. split; [|done].
      intros r' w' He. f_equal. by eapply Hd.
    + intros [= <- <-]. split; [|split; [done|]].
      * apply prefix_cons, prefix_nil.
      * by intros r' w' [= <- _].
Qed.

(** *** The entry points *)

(** The three entry points with after-hooks have one shape. *)
Lemma call_hooked_shape (e : hooked) before real after args (w : World) :
  call_hooked (Feature:=Feature) e before real after args w
  = match forBeforeHooks before args VK_SUCCESS false w with
    | (ReturnB result w', called) => (result, w', CallBefore <$> called)
    | (DoneB result skip w', called) =>
        real_then_after real after args (after_args e args) result skip w'
          (CallBefore <$> called)
    end.
Proof.
  destruct e; simpl in args.
  - by destruct args as [[[? ?] ?] ?].
  - by destruct args as [? ?].
  - by destruct args as [[[? ?] ?] ?].
Qed.

(** The other entry points with before-hooks only stop at the first failure
    as [vkDeviceWaitIdle] does. *)
Lemma before_only_first_failure
    pre h (feature : Feature) post (w : World) r1 skip1 w1 r skip' w'
    Device Swapchain Timeout Semaphore Fence ImageIndex :
  (forBeforeHooks pre (Device, Swapchain, Timeout, Semaphore, Fence, ImageIndex)
     VK_SUCCESS false w).1 = DoneB r1 skip1 w1 →
  h (Device, Swapchain, Timeout, Semaphore, Fence, ImageIndex) skip1 w1
  = (r, skip', w') →
  r ≠ VK_SUCCESS →
  (∀ real,
      vkAcquireNextImageKHR (pre ++ (h, feature) :: post) real
        Device Swapchain Timeout Semaphore Fence ImageIndex w
      = (r, w', CallBefore <$> (pre ++ [(h, feature)])))
  ∧ (∀ real pAcquireInfo,
      vkAcquireNextImage2KHR (pre ++ (h, feature) :: post) real Device
        pAcquireInfo
        {| swapchain := Swapchain; timeout := Timeout;
           semaphore := Semaphore; fence := Fence |}
        ImageIndex w
      = (r, w', CallBefore <$> (pre ++ [(h, feature)]))).
Proof.
  intros Hb Hh Hr.
  split; intros; unfold vkAcquireNextImageKHR, vkAcquireNextImage2KHR; simpl;
    by rewrite (forBeforeHooks_first_failure _ _ _ _ _ _ _ _ _ _ _ _ _ _ Hb Hh Hr).
Qed.

Lemma vkGetSwapchainImagesKHR_first_failure
    pre h (feature : Feature) post real (w : World) r1 skip1 w1 r skip' w'
    Device Swapchain SwapchainImageCount SwapchainImages :
  (forBeforeHooks pre (Device, Swapchain, SwapchainImageCount, SwapchainImages)
     VK_SUCCESS false w).1 = DoneB r1 skip1 w1 →
  h (Device, Swapchain, SwapchainImageCount, SwapchainImages) skip1 w1
  = (r, skip', w') →
  r ≠ VK_SUCCESS →
  vkGetSwapchainImagesKHR (pre ++ (h, feature) :: post) real
    Device Swapchain SwapchainImageCount SwapchainImages w
  = (r, w', CallBefore <$> (pre ++ [(h, feature)])).
Proof.
  intros Hb Hh Hr. unfold vkGetSwapchainImagesKHR.
  by rewrite (forBeforeHooks_first_failure _ _ _ _ _ _ _ _ _ _ _ _ _ _ Hb Hh Hr).
Qed.

(** The two entry points that return [void] call every hook, whatever the
    hooks do, and then the driver's function unless [skip] is set. *)
Lemma forVoidBeforeHooks_called {A : Type}
    (hooks : list (VoidBeforeHook A * Feature)) args skip (w : World) :
  (forVoidBeforeHooks hooks args skip w).2 = hooks.
Proof.
  revert skip w. induction hooks as [|[h f] hooks IH]; intros skip w; simpl; [done|].
  destruct (h args skip w) as [s1 w1]. specialize (IH s1 w1).
  destruct (forVoidBeforeHooks hooks args s1 w1) as [[s2 w2] c]. simpl in *.
  by rewrite IH.
Qed.

Lemma void_entry_points_call_every_hook :
  (∀ hooks real Device Swapchain Allocator (w : World),
      (vkDestroySwapchainKHR (Feature:=Feature) hooks real
         Device Swapchain Allocator w).2
      = (VoidCallBefore <$> hooks)
        ++ (if (forVoidBeforeHooks hooks (Device, Swapchain, Allocator) false w).1.1
            then [] else [VoidCallReal]))
  ∧ (∀ hooks real Instance Surface pAllocator (w : World),
      (vkDestroySurfaceKHR (Feature:=Feature) hooks real
         Instance Surface pAllocator w).2
      = (VoidCallBefore <$> hooks)
        ++ (if (forVoidBeforeHooks hooks (Instance, Surface, pAllocator) false w).1.1
            then [] else [VoidCallReal])).
Proof.
  split; intros hooks real x y z w;
    unfold vkDestroySwapchainKHR, vkDestroySurfaceKHR;
    pose proof (forVoidBeforeHooks_called hooks (x, y, z) false w) as Hc;
    destruct (forVoidBeforeHooks hooks (x, y, z) false w) as [[s1 w1] c];
    simpl in *; subst c; destruct s1; simpl; by rewrite ?app_nil_r.
Qed.

(** C2, as amended.  For each of the three entry points with before-hooks
    and after-hooks: when no before-hook fails and [skip] is false after
    the last of them, and no after-hook fails, the calls made are the
    before-hooks in the order of their list, the driver's function, the
    after-hooks in the order of their list, and the result and the world
    are those the last after-hook leaves.  When a before-hook returns a
    value other than [VK_SUCCESS], the entry point returns that value at
    once: the calls made are the before-hooks up to that one, the world is
    the one that hook leaves, with what the earlier hooks did.  The same
    holds of [vkDeviceWaitIdle], which has before-hooks only. *)
Theorem hooks_run_in_order_first_failure_wins :
  (∀ (e : hooked) before real after args (w : World) r1 w1 r2 w2 r3 w3,
      (forBeforeHooks before args VK_SUCCESS false w).1 = DoneB r1 false w1 →
      real args w1 = (r2, w2) →
      (forAfterHooks after (after_args e args) r2 w2).1 = DoneA r3 w3 →
      call_hooked (Feature:=Feature) e before real after args w
      = (r3, w3,
         (CallBefore <$> before) ++ [CallReal] ++ (CallAfter <$> after)))
  ∧ (∀ (e : hooked) pre h feature post real after args (w : World)
       r1 skip1 w1 r skip' w',
      (forBeforeHooks pre args VK_SUCCESS false w).1 = DoneB r1 skip1 w1 →
      h args skip1 w1 = (r, skip', w') →
      r ≠ VK_SUCCESS →
      call_hooked (Feature:=Feature) e (pre ++ (h, feature) :: post)
        real after args w
      = (r, w', CallBefore <$> (pre ++ [(h, feature)])))
  ∧ (∀ pre h (feature : Feature) post real Device (w : World)
       r1 skip1 w1 r skip' w',
      (forBeforeHooks pre Device VK_SUCCESS false w).1 = DoneB r1 skip1 w1 →
      h Device skip1 w1 = (r, skip', w') →
      r ≠ VK_SUCCESS →
      vkDeviceWaitIdle (pre ++ (h, feature) :: post) real Device w
      = (r, w', CallBefore <$> (pre ++ [(h, feature)]))).
Proof.
  split; [|split].
  - intros e before real after args w r1 w1 r2 w2 r3 w3 Hb Hr Ha.
    rewrite call_hooked_shape.
    destruct (forBeforeHooks before args VK_SUCCESS false w) as [eb cb] eqn:Eb.
    simpl in Hb. subst eb. apply forBeforeHooks_done in Eb as ->.
    unfold real_then_after. simpl. rewrite Hr.
    destruct (forAfterHooks after (after_args e args) r2 w2) as [ea ca] eqn:Ea.
    simpl in Ha. subst ea.
    destruct (forAfterHooks_called _ _ _ _ _ _ Ea) as (_ & Hd & _).
    rewrite (Hd _ _ eq_refl). by rewrite <- app_assoc.
  - intros e pre h feature post real after args w r1 skip1 w1 r skip' w' Hb Hh Hr.
    rewrite call_hooked_shape.
    by rewrite (forBeforeHooks_first_failure _ _ _ _ _ _ _ _ _ _ _ _ _ _ Hb Hh Hr).
  - intros pre h feature post real Device w r1 skip1 w1 r skip' w' Hb Hh Hr.
    unfold vkDeviceWaitIdle.
    by rewrite (forBeforeHooks_first_failure _ _ _ _ _ _ _ _ _ _ _ _ _ _ Hb Hh Hr).
Qed.

(** *** The after-hooks, hook by hook *)

(** The world after the hooks of a list have run in it, one after the
    other. *)
Local Abbreviation after_worlds args hooks w :=
  (foldl (λ w' (hf : AfterHook _ * Feature), (hf.1 args w').2) w hooks).

(** A loop over before-hooks that starts with [VK_SUCCESS] and runs out of
    hooks has [VK_SUCCESS] as its result. *)
Lemma forBeforeHooks_done_result {A : Type} (hooks : list (BeforeHook A * Feature))
    args s (w : World) r' s' w' :
  (forBeforeHooks hooks args VK_SUCCESS s w).1 = DoneB r' s' w' →
  r' = VK_SUCCESS.
Proof.
  revert s w. induction hooks as [|[h f] hooks IH]; intros s w; simpl.
  - by intros [= <- _ _].
  - destruct (h args s w) as [[r1 s1] w1].
    destruct (Z.eqb_spec r1 VK_SUCCESS) as [->|Hne]; simpl; [|done].
    specialize (IH s1 w1).
    by destruct (forBeforeHooks hooks args VK_SUCCESS s1 w1) as [e c].
Qed.

(** After-hooks that each succeed in the world the hooks before them
    leave are all called, and the loop ends with [VK_SUCCESS]. *)
Lemma forAfterHooks_all_succeed {B : Type} (hooks : list (AfterHook B * Feature))
    args (w : World) :
  (∀ pre h f post, hooks = pre ++ (h, f) :: post →
     (h args (after_worlds args pre w)).1 = VK_SUCCESS) →
  forAfterHooks hooks args VK_SUCCESS w
  = (DoneA VK_SUCCESS (after_worlds args hooks w), hooks).
Proof.
  revert w. induction hooks as [|[h f] hooks IH]; intros w Hall; [done|].
  pose proof (Hall [] h f hooks eq_refl) as Hh.
  cbn [forAfterHooks foldl fst] in *.
  destruct (h args w) as [r1 w1] eqn:Eh. simpl in Hh. subst r1. simpl.
  rewrite IH; [done|]. intros pre h' f' post ->.
  specialize (Hall ((h, f) :: pre) h' f' post eq_refl).
  cbn [foldl fst] in Hall.
  by rewrite Eh in Hall.
Qed.

(** The first after-hook that fails ends the loop: the hooks after it are
    not called. *)
Lemma forAfterHooks_first_failure {B : Type}
    (pre post : list (AfterHook B * Feature)) h f args r0 (w : World) r w' :
  (∀ pre' h' f' post', pre = pre' ++ (h', f') :: post' →
     (h' args (after_worlds args pre' w)).1 = VK_SUCCESS) →
  h args (after_worlds args pre w) = (r, w') →
  r ≠ VK_SUCCESS →
  forAfterHooks (pre ++ (h, f) :: post) args r0 w
  = (ReturnA r w', pre ++ [(h, f)]).
Proof.
  revert r0 w. induction pre as [|[h0 f0] pre IH]; intros r0 w Hpre Hh Hr.
  - cbn [app forAfterHooks foldl fst] in *. rewrite Hh.
    by destruct (Z.eqb_spec r VK_SUCCESS).
  - pose proof (Hpre [] h0 f0 pre eq_refl) as H0.
    cbn [app forAfterHooks foldl fst] in *.
    destruct (h0 args w) as [r1 w1] eqn:E0. cbn [fst snd] in *. subst r1.
    simpl. rewrite (IH VK_SUCCESS w1); [done| |done|done].
    intros pre' h' f' post' ->.
    specialize (Hpre ((h0, f0) :: pre') h' f' post' eq_refl).
    cbn [foldl fst] in Hpre. by rewrite E0 in Hpre.
Qed.

(** C3, as amended.  In every entry point that runs hooks, when no
    before-hook fails and [skip] is true after the last of them, the
    driver's function is not called.  In the three entry points with
    after-hooks the after-hooks then run from the world the before-hooks
    leave: when each of them succeeds in the world the ones before it
    leave, all are called, in the order of their list, and the result is
    [VK_SUCCESS]; when one fails after the ones before it succeeded, it is
    the last one called, and the result and the world are its own.  The
    four entry points with before-hooks only return [VK_SUCCESS] in the
    world the hooks leave; the two entry points that return nothing, whose
    hooks cannot fail, return in that world. *)
Theorem skip_omits_the_real_call :
  (∀ (e : hooked) before real after args (w : World) r1 w1,
      (forBeforeHooks before args VK_SUCCESS false w).1 = DoneB r1 true w1 →
      ((∀ pre h f post, after = pre ++ (h, f) :: post →
          (h (after_args e args) (after_worlds (after_args e args) pre w1)).1
          = VK_SUCCESS) →
       call_hooked (Feature:=Feature) e before real after args w
       = (VK_SUCCESS, after_worlds (after_args e args) after w1,
          (CallBefore <$> before) ++ (CallAfter <$> after)))
      ∧ (∀ pre h f post r w',
           after = pre ++ (h, f) :: post →
           (∀ pre' h' f' post', pre = pre' ++ (h', f') :: post' →
              (h' (after_args e args)
                 (after_worlds (after_args e args) pre' w1)).1
              = VK_SUCCESS) →
           h (after_args e args) (after_worlds (after_args e args) pre w1)
           = (r, w') →
           r ≠ VK_SUCCESS →
           call_hooked (Feature:=Feature) e before real after args w
           = (r, w',
              (CallBefore <$> before) ++ (CallAfter <$> pre ++ [(h, f)]))))
  ∧ (∀ (e : BeforeOnly.hooked_before) hooks real args (w : World) r1 w1,
      (forBeforeHooks hooks (BeforeOnly.hook_args e args) VK_SUCCESS false w).1
      = DoneB r1 true w1 →
      BeforeOnly.call_before (Feature:=Feature) e hooks real args w
      = (VK_SUCCESS, w1, CallBefore <$> hooks))
  ∧ (∀ hooks real Device Swapchain Allocator (w w1 : World),
      (forVoidBeforeHooks hooks (Device, Swapchain, Allocator) false w).1
      = (true, w1) →
      vkDestroySwapchainKHR (Feature:=Feature) hooks real
        Device Swapchain Allocator w
      = (w1, VoidCallBefore <$> hooks))
  ∧ (∀ hooks real Instance Surface pAllocator (w w1 : World),
      (forVoidBeforeHooks hooks (Instance, Surface, pAllocator) false w).1
      = (true, w1) →
      vkDestroySurfaceKHR (Feature:=Feature) hooks real
        Instance Surface pAllocator w
      = (w1, VoidCallBefore <$> hooks)).
Proof.
  split; [|split; [|split]].
  - intros e before real after args w r1 w1 Hb.
    pose proof (forBeforeHooks_done_result _ _ _ _ _ _ _ Hb) as ->.
    assert (call_hooked (Feature:=Feature) e before real after args w
            = match forAfterHooks after (after_args e args) VK_SUCCESS w1 with
              | (ex, ran) =>
                  (after_result ex, after_world ex,
                   (CallBefore <$> before) ++ (CallAfter <$> ran))
              end) as Hshape.
    { rewrite call_hooked_shape.
      destruct (forBeforeHooks before args VK_SUCCESS false w) as [eb cb] eqn:Eb.
      simpl in Hb. subst eb. apply forBeforeHooks_done in Eb as ->.
      unfold real_then_after. simpl.
      by destruct (forAfterHooks after (after_args e args) VK_SUCCESS w1)
        as [[? ?|? ?] ?]. }
    split.
    + intros Hall. rewrite Hshape.
      by rewrite (forAfterHooks_all_succeed _ _ _ Hall).
    + intros pre h f post r w' -> Hpre Hh Hr. rewrite Hshape.
      by rewrite (forAfterHooks_first_failure _ _ _ _ _ _ _ _ _ Hpre Hh Hr).
  - intros e hooks real args w r1 w1 Hb.
    pose proof (forBeforeHooks_done_result _ _ _ _ _ _ _ Hb) as ->.
    assert (BeforeOnly.call_before (Feature:=Feature) e hooks real args w
            = match forBeforeHooks hooks (BeforeOnly.hook_args e args)
                      VK_SUCCESS false w with
              | (ReturnB result w', called) =>
                  (result, w', CallBefore <$> called)
              | (DoneB result skip w', called) =>
                  real_then_return
                    (λ _, real (BeforeOnly.native_args e args))
                    (BeforeOnly.hook_args e args)
                    result skip w' (CallBefore <$> called)
              end) as ->.
    { destruct e; simpl in args.
      - reflexivity.
      - by destruct args as [[[? ?] ?] ?].
      - by destruct args as [[[[[? ?] ?] ?] ?] ?].
      - by destruct args as [[[? ?] ?] ?]. }
    destruct (forBeforeHooks hooks (BeforeOnly.hook_args e args)
                VK_SUCCESS false w) as [eb cb] eqn:Eb.
    simpl in Hb. subst eb. by apply forBeforeHooks_done in Eb as ->.
  - intros hooks real x y z w w1 Hv. unfold vkDestroySwapchainKHR.
    pose proof (forVoidBeforeHooks_called hooks (x, y, z) false w) as Hc.
    destruct (forVoidBeforeHooks hooks (x, y, z) false w) as [[s1 w2] c].
    simpl in *. by injection Hv as -> ->; subst c.
  - intros hooks real x y z w w1 Hv. unfold vkDestroySurfaceKHR.
    pose proof (forVoidBeforeHooks_called hooks (x, y, z) false w) as Hc.
    destruct (forVoidBeforeHooks hooks (x, y, z) false w) as [[s1 w2] c].
    simpl in *. by injection Hv as -> ->; subst c.
Qed.

End Dispatch.

(** ** The claims on concrete hooks *)

Section Marks.

Import Scenario.

(** The hooks of the scenario belong to the features 1 to 4. *)

(** C2 as the specification words it fails when a before-hook succeeds and
    sets [skip]: every hook returns [VK_SUCCESS], and the calls are [h1],
    [h2], [h3], [h4], without the driver's function. *)
Lemma all_hooks_succeed_without_the_real_call :
  vkCreateSwapchainKHR [(h1_skip, 1); (h2, 2)] driver [(h3, 3); (h4, 4)] 0 0 0 0 []
  = (VK_SUCCESS, [H1; H2; H3; H4],
     [CallBefore (h1_skip, 1); CallBefore (h2, 2);
      CallAfter (h3, 3); CallAfter (h4, 4)])
  ∧ (∀ args skip w, (h1_skip (A:=Z * Z * Z * Z) args skip w).1.1 = VK_SUCCESS)
  ∧ (∀ args skip w, (h2 (A:=Z * Z * Z * Z) args skip w).1.1 = VK_SUCCESS)
  ∧ (∀ args w, (h3 (A:=Z * Z * Z * Z) args w).1 = VK_SUCCESS)
  ∧ (∀ args w, (h4 (A:=Z * Z * Z * Z) args w).1 = VK_SUCCESS)
  ∧ (CallReal
     ∉ (vkCreateSwapchainKHR [(h1_skip, 1); (h2, 2)] driver [(h3, 3); (h4, 4)]
          0 0 0 0 []).2).
Proof.
  repeat split. simpl. intros Hin.
  repeat (apply elem_of_cons in Hin as [Hin|Hin]; [discriminate|]).
  by apply elem_of_nil in Hin.
Qed.

(** Two before-hooks and two after-hooks that succeed; then a second
    before-hook that fails. *)
Lemma hooks_run_in_order_first_failure_wins_witness :
  call_hooked CreateSwapchainKHR [(h1, 1); (h2, 2)] driver [(h3, 3); (h4, 4)]
    (0, 0, 0, 0) []
  = (VK_SUCCESS, [H1; H2; Driver; H3; H4],
     [CallBefore (h1, 1); CallBefore (h2, 2); CallReal;
      CallAfter (h3, 3); CallAfter (h4, 4)])
  ∧ call_hooked CreateSwapchainKHR [(h1, 1); (h2_fail, 2)] driver [(h3, 3); (h4, 4)]
      (0, 0, 0, 0) []
    = (VK_ERROR_DEVICE_LOST, [H1; H2],
       [CallBefore (h1, 1); CallBefore (h2_fail, 2)])
  ∧ vkDeviceWaitIdle [(h1, 1); (h2_fail, 2); (h1, 3)] driver 0 []
    = (VK_ERROR_DEVICE_LOST, [H1; H2],
       [CallBefore (h1, 1); CallBefore (h2_fail, 2)]).
Proof.
  destruct (hooks_run_in_order_first_failure_wins (World:=list mark) (Feature:=Z))
    as (Horder & Hfail & Hwait).
  split; [|split].
  - apply (Horder CreateSwapchainKHR [(h1, 1); (h2, 2)] driver [(h3, 3); (h4, 4)]
             (0, 0, 0, 0) [] VK_SUCCESS [H1; H2]
             VK_SUCCESS [H1; H2; Driver] VK_SUCCESS [H1; H2; Driver; H3; H4]);
      reflexivity.
  - apply (Hfail CreateSwapchainKHR [(h1, 1)] h2_fail 2 [] driver
             [(h3, 3); (h4, 4)] (0, 0, 0, 0) [] VK_SUCCESS false [H1]
             VK_ERROR_DEVICE_LOST false [H1; H2]);
      [reflexivity|reflexivity|discriminate].
  - apply (Hwait [(h1, 1)] h2_fail 2 [(h1, 3)] driver 0 []
             VK_SUCCESS false [H1] VK_ERROR_DEVICE_LOST false [H1; H2]);
      [reflexivity|reflexivity|discriminate].
Defined.

(** C3 as the specification words it fails in two ways.  A before-hook
    sets [skip], a later one clears it, none fails: the driver's function
    is called.  A before-hook sets [skip], none fails, the first
    after-hook fails: the second after-hook is not called. *)
Lemma skip_can_be_cleared_and_after_hooks_can_stop :
  vkQueuePresentKHR [(h1_skip, 1); (h2_unskip, 2)] driver [(h3, 3); (h4, 4)] 0 0 []
  = (VK_SUCCESS, [H1; H2; Driver; H3; H4],
     [CallBefore (h1_skip, 1); CallBefore (h2_unskip, 2); CallReal;
      CallAfter (h3, 3); CallAfter (h4, 4)])
  ∧ vkQueuePresentKHR [(h1_skip, 1); (h2, 2)] driver [(h3_fail, 3); (h4, 4)] 0 0 []
    = (VK_ERROR_DEVICE_LOST, [H1; H2; H3],
       [CallBefore (h1_skip, 1); CallBefore (h2, 2); CallAfter (h3_fail, 3)])
  ∧ (h1_skip (A:=Z * Z) (0, 0) false []).1.2 = true
  ∧ (CallReal
     ∈ (vkQueuePresentKHR [(h1_skip, 1); (h2_unskip, 2)] driver [(h3, 3); (h4, 4)]
          0 0 []).2)
  ∧ (CallAfter (h4, 4)
     ∉ (vkQueuePresentKHR [(h1_skip, 1); (h2, 2)] driver [(h3_fail, 3); (h4, 4)]
          0 0 []).2).
Proof.
  repeat split.
  - simpl. rewrite !elem_of_cons. by right; right; left.
  - simpl. intros Hin.
    repeat (apply elem_of_cons in Hin as [Hin|Hin]; [discriminate|]).
    by apply elem_of_nil in Hin.
Qed.

(** The first before-hook sets [skip].  With two after-hooks that succeed;
    with a second after-hook that fails before a third; on an entry point
    with before-hooks only; on the two entry points that return
    nothing. *)
Lemma skip_omits_the_real_call_witness :
  call_hooked QueuePresentKHR [(h1_skip, 1); (h2, 2)] driver [(h3, 3); (h4, 4)]
    (0, 0) []
  = (VK_SUCCESS, [H1; H2; H3; H4],
     [CallBefore (h1_skip, 1); CallBefore (h2, 2);
      CallAfter (h3, 3); CallAfter (h4, 4)])
  ∧ call_hooked QueuePresentKHR [(h1_skip, 1); (h2, 2)] driver
      [(h3, 3); (h3_fail, 4); (h4, 5)] (0, 0) []
    = (VK_ERROR_DEVICE_LOST, [H1; H2; H3; H3],
       [CallBefore (h1_skip, 1); CallBefore (h2, 2);
        CallAfter (h3, 3); CallAfter (h3_fail, 4)])
  ∧ BeforeOnly.call_before BeforeOnly.DeviceWaitIdle [(h1_skip, 1); (h2, 2)]
      driver 0 []
    = (VK_SUCCESS, [H1; H2], [CallBefore (h1_skip, 1); CallBefore (h2, 2)])
  ∧ vkDestroySwapchainKHR [(v1_skip, 1); (v2, 2)] void_driver 0 0 0 []
    = ([H1; H2], [VoidCallBefore (v1_skip, 1); VoidCallBefore (v2, 2)])
  ∧ vkDestroySurfaceKHR [(v1_skip, 1); (v2, 2)] void_driver 0 0 0 []
    = ([H1; H2], [VoidCallBefore (v1_skip, 1); VoidCallBefore (v2, 2)]).
Proof.
  destruct (skip_omits_the_real_call (World:=list mark) (Feature:=Z))
    as (Hafter & Hbefore & Hswapchain & Hsurface).
  split; [|split; [|split; [|split]]].
  - destruct (Hafter QueuePresentKHR [(h1_skip, 1); (h2, 2)] driver
                [(h3, 3); (h4, 4)] (0, 0) [] VK_SUCCESS [H1; H2] eq_refl)
      as [Hall _].
    apply Hall. intros pre h f post E.
    destruct pre as [|? [|? [|? ?]]]; simplify_eq/=; reflexivity.
  - destruct (Hafter QueuePresentKHR [(h1_skip, 1); (h2, 2)] driver
                [(h3, 3); (h3_fail, 4); (h4, 5)] (0, 0) []
                VK_SUCCESS [H1; H2] eq_refl)
      as [_ Hfirst].
    apply (Hfirst [(h3, 3)] h3_fail 4 [(h4, 5)] VK_ERROR_DEVICE_LOST
             [H1; H2; H3; H3] eq_refl); [|reflexivity|discriminate].
    intros pre h f post E.
    destruct pre as [|? [|? ?]]; simplify_eq/=; reflexivity.
  - exact (Hbefore BeforeOnly.DeviceWaitIdle [(h1_skip, 1); (h2, 2)] driver
             0 [] VK_SUCCESS [H1; H2] eq_refl).
  - exact (Hswapchain [(v1_skip, 1); (v2, 2)] void_driver 0 0 0 []
             [H1; H2] eq_refl).
  - exact (Hsurface [(v1_skip, 1); (v2, 2)] void_driver 0 0 0 []
             [H1; H2] eq_refl).
Defined.

End Marks.

End InterposerProofs.

Module BeforeOnlyProofs.

Import Interposer BeforeOnly InterposerProofs.

(** ** More on the hooked entry points *)

Section Dispatch.

Context {World Feature : Type}.

(** The four entry points with before-hooks only have one shape. *)
Lemma call_before_shape (e : hooked_before) hooks real args (w : World) :
  call_before (Feature:=Feature) e hooks real args w
  = match forBeforeHooks hooks (hook_args e args) VK_SUCCESS false w with
    | (ReturnB result w', called) => (result, w', CallBefore <$> called)
    | (DoneB result skip w', called) =>
        real_then_return (λ _, real (native_args e args)) (hook_args e args)
          result skip w' (CallBefore <$> called)
    end.
Proof.
  destruct e; simpl in args.
  - reflexivity.
  - by destruct args as [[[? ?] ?] ?].
  - by destruct args as [[[[[? ?] ?] ?] ?] ?].
  - by destruct args as [[[? ?] ?] ?].
Qed.

(** A loop over before-hooks that starts with [VK_SUCCESS] and runs out of
    hooks ends with [VK_SUCCESS]. *)
Lemma forBeforeHooks_done_success {A : Type} (hooks : list (BeforeHook A * Feature))
    args s (w : World) r' s' w' called :
  forBeforeHooks hooks args VK_SUCCESS s w = (DoneB r' s' w', called) →
  r' = VK_SUCCESS.
Proof.
  revert s w called.
  induction hooks as [|[h f] hooks IH]; intros s w called; simpl.
  - by intros [= <- _ _ _].
  - destruct (h args s w) as [[r1 s1] w1].
    destruct (Z.eqb_spec r1 VK_SUCCESS) as [->|Hne]; simpl; [|done].
    destruct (forBeforeHooks hooks args VK_SUCCESS s1 w1) as [e c] eqn:E.
    intros [= -> <-]. by eapply IH.
Qed.

(** A loop over after-hooks that has a hook to call does not look at the
    result it starts with. *)
Lemma forAfterHooks_ignores_result {B : Type} (hooks : list (AfterHook B * Feature))
    args r r' (w : World) :
  hooks ≠ [] →
  forAfterHooks hooks args r w = forAfterHooks hooks args r' w.
Proof. destruct hooks as [|[h f] hooks]; [done|]. intros _. simpl. done. Qed.

(** A loop over after-hooks that calls a hook and runs out of hooks ends
    with [VK_SUCCESS]. *)
Lemma forAfterHooks_done_success {B : Type} (hooks : list (AfterHook B * Feature))
    args r (w : World) r' w' called :
  hooks ≠ [] →
  forAfterHooks hooks args r w = (DoneA r' w', called) →
  r' = VK_SUCCESS.
Proof.
  revert r w called.
  induction hooks as [|[h f] hooks IH]; intros r w called Hne; [done|]. simpl.
  destruct (h args w) as [r1 w1].
  destruct (Z.eqb_spec r1 VK_SUCCESS) as [->|Hx]; simpl; [|done].
  destruct (forAfterHooks hooks args VK_SUCCESS w1) as [e c] eqn:E.
  intros [= -> <-]. destruct hooks as [|hf hooks'].
  - simpl in E. by injection E as <- _.
  - by eapply IH.
Qed.

(** X1.  An entry point with before-hooks only, when no hook fails: if [skip] is
    set after the last hook, the driver's function is not called and the
    entry point returns [VK_SUCCESS]; otherwise the driver's function is
    called once, after the hooks, in the world they left, and its result and
    world are returned.  In both cases every hook has been called, in the
    order of the list. *)
Theorem before_only_runs_or_skips (e : hooked_before) hooks real args (w : World)
    r skip w1 :
  (forBeforeHooks hooks (hook_args e args) VK_SUCCESS false w).1 = DoneB r skip w1 →
  call_before (Feature:=Feature) e hooks real args w
  = if skip then (VK_SUCCESS, w1, CallBefore <$> hooks)
    else ((real (native_args e args) w1).1, (real (native_args e args) w1).2,
          (CallBefore <$> hooks) ++ [CallReal]).
Proof.
  intros Hb. rewrite call_before_shape.
  destruct (forBeforeHooks hooks (hook_args e args) VK_SUCCESS false w)
    as [eb cb] eqn:Eb.
  simpl in Hb. subst eb.
  pose proof (forBeforeHooks_done_success _ _ _ _ _ _ _ _ Eb) as ->.
  apply forBeforeHooks_done in Eb as ->.
  unfold real_then_return. destruct skip; simpl; [done|].
  by destruct (real (native_args e args) w1).
Qed.

(** X2.  An entry point with before-hooks only returns the value of the first
    hook that fails, at once: the later hooks and the driver's function are
    not called, and the world is the one the failing hook leaves. *)
Theorem before_only_first_failure_wins (e : hooked_before)
    pre h (feature : Feature) post real args (w : World) r1 skip1 w1 r skip' w' :
  (forBeforeHooks pre (hook_args e args) VK_SUCCESS false w).1 = DoneB r1 skip1 w1 →
  h (hook_args e args) skip1 w1 = (r, skip', w') →
  r ≠ VK_SUCCESS →
  call_before e (pre ++ (h, feature) :: post) real args w
  = (r, w', CallBefore <$> (pre ++ [(h, feature)])).
Proof.
  intros Hb Hh Hr. rewrite call_before_shape.
  by rewrite (forBeforeHooks_first_failure _ _ _ _ _ _ _ _ _ _ _ _ _ _ Hb Hh Hr).
Qed.

(** X3.  In an entry point with after-hooks, the value the driver's function
    returns is lost as soon as there is one after-hook: two drivers that
    leave the same world make the entry point return the same, and when no
    after-hook fails the entry point returns [VK_SUCCESS] whatever the
    driver returned.  Without after-hooks the driver's value is returned. *)
Theorem after_hooks_replace_the_driver_result (e : hooked)
    before real after args (w : World) r1 w1 r2 w2 :
  (forBeforeHooks before args VK_SUCCESS false w).1 = DoneB r1 false w1 →
  real args w1 = (r2, w2) →
  (after ≠ [] →
     (∀ real' r2', real' args w1 = (r2', w2) →
        call_hooked (Feature:=Feature) e before real' after args w
        = call_hooked e before real after args w)
     ∧ (∀ r3 w3,
          (forAfterHooks after (after_args e args) r2 w2).1 = DoneA r3 w3 →
          call_hooked (Feature:=Feature) e before real after args w
          = (VK_SUCCESS, w3,
             (CallBefore <$> before) ++ [CallReal] ++ (CallAfter <$> after))))
  ∧ (after = [] →
     call_hooked (Feature:=Feature) e before real after args w
     = (r2, w2, (CallBefore <$> before) ++ [CallReal])).
Proof.
  intros Hb Hr.
  destruct (forBeforeHooks before args VK_SUCCESS false w) as [eb cb] eqn:Eb.
  simpl in Hb. subst eb. apply forBeforeHooks_done in Eb as Hcb. subst cb.
  assert (∀ real' r2', real' args w1 = (r2', w2) →
            call_hooked (Feature:=Feature) e before real' after args w
            = match forAfterHooks after (after_args e args) r2' w2 with
              | (ex, ran) =>
                  (after_result ex, after_world ex,
                   ((CallBefore <$> before) ++ [CallReal]) ++ (CallAfter <$> ran))
              end) as Hshape.
  { intros real' r2' Hr'. rewrite call_hooked_shape, Eb.
    unfold real_then_after. simpl. rewrite Hr'.
    destruct (forAfterHooks after (after_args e args) r2' w2) as [[? ?|? ?] ?];
      done. }
  split.
  - intros Hne. split.
    + intros real' r2' Hr'. rewrite (Hshape _ _ Hr'), (Hshape _ _ Hr).
      by rewrite (forAfterHooks_ignores_result after _ r2' r2 w2 Hne).
    + intros r3 w3 Ha. rewrite (Hshape _ _ Hr).
      destruct (forAfterHooks after (after_args e args) r2 w2) as [ex ran] eqn:Ea.
      simpl in Ha. subst ex.
      pose proof (forAfterHooks_done_success _ _ _ _ _ _ _ Hne Ea) as ->.
      destruct (forAfterHooks_called _ _ _ _ _ _ Ea) as (_ & Hd & _).
      rewrite (Hd _ _ eq_refl). simpl. by rewrite <- app_assoc.
  - intros ->. rewrite (Hshape _ _ Hr). simpl. by rewrite app_nil_r.
Qed.

(** A loop over hooks without a result, none of which touches [skip]. *)
Lemma forVoidBeforeHooks_keeps_skip {A : Type}
    (hooks : list (VoidBeforeHook A * Feature)) args skip (w : World) :
  (∀ h f s w', (h, f) ∈ hooks → (h args s w').1 = s) →
  (forVoidBeforeHooks hooks args skip w).1.1 = skip.
Proof.
  revert skip w. induction hooks as [|[h f] hooks IH]; intros skip w Hkeep;
    simpl; [done|].
  pose proof (Hkeep h f skip w ltac:(left)) as Hh.
  destruct (h args skip w) as [s1 w1]. simpl in Hh. subst s1.
  assert (∀ h0 f0 s w', (h0, f0) ∈ hooks → (h0 args s w').1 = s) as Hrest
    by (intros h0 f0 s w' Hin; apply (Hkeep h0 f0); by right).
  specialize (IH skip w1 Hrest).
  by destruct (forVoidBeforeHooks hooks args skip w1) as [[s2 w2] c].
Qed.

(** X4.  The two entry points that return nothing cannot be stopped by a hook
    that fails, for their hooks have no result: when no hook touches
    [skip], every hook is called, in the order of the list, and then the
    driver's function, in the world the hooks leave. *)
Theorem destroy_calls_every_hook_then_the_driver
    (swapchain_hooks : list (VoidBeforeHook (VkDevice * VkSwapchainKHR * pointer)
                             * Feature))
    (surface_hooks : list (VoidBeforeHook (VkInstance * VkSurfaceKHR * pointer)
                           * Feature))
    real_swapchain real_surface handle object allocator (w : World) :
  (∀ h f s w', (h, f) ∈ swapchain_hooks →
     (h (handle, object, allocator) s w').1 = s) →
  (∀ h f s w', (h, f) ∈ surface_hooks →
     (h (handle, object, allocator) s w').1 = s) →
  vkDestroySwapchainKHR swapchain_hooks real_swapchain handle object allocator w
  = (real_swapchain (handle, object, allocator)
       (forVoidBeforeHooks swapchain_hooks (handle, object, allocator)
          false w).1.2,
     (VoidCallBefore <$> swapchain_hooks) ++ [VoidCallReal])
  ∧ vkDestroySurfaceKHR surface_hooks real_surface handle object allocator w
    = (real_surface (handle, object, allocator)
         (forVoidBeforeHooks surface_hooks (handle, object, allocator)
            false w).1.2,
       (VoidCallBefore <$> surface_hooks) ++ [VoidCallReal]).
Proof.
  intros Hswapchain Hsurface.
  unfold vkDestroySwapchainKHR, vkDestroySurfaceKHR. split.
  - pose proof (forVoidBeforeHooks_keeps_skip swapchain_hooks _ false w
                  Hswapchain) as Hs.
    pose proof (forVoidBeforeHooks_called swapchain_hooks
                  (handle, object, allocator) false w) as Hc.
    destruct (forVoidBeforeHooks swapchain_hooks _ false w) as [[s1 w1] c].
    simpl in *. by subst.
  - pose proof (forVoidBeforeHooks_keeps_skip surface_hooks _ false w
                  Hsurface) as Hs.
    pose proof (forVoidBeforeHooks_called surface_hooks
                  (handle, object, allocator) false w) as Hc.
    destruct (forVoidBeforeHooks surface_hooks _ false w) as [[s1 w1] c].
    simpl in *. by subst.
Qed.

End Dispatch.

(** ** The entry points on concrete hooks *)

Section Marks.

Import Scenario.

(** A driver that fails. *)
Local Abbreviation lost := (λ (_ : Z * Z) (w : list mark), (VK_ERROR_DEVICE_LOST, w ++ [Driver])).

(** [vkAcquireNextImage2KHR] skipped by its first hook, and run. *)
Lemma before_only_runs_or_skips_witness :
  call_before AcquireNextImage2KHR [(h1_skip, 1); (h2, 2)] driver
    (0, 0, {| swapchain := 7; timeout := 8; semaphore := 9; fence := 10 |}, 0) []
  = (VK_SUCCESS, [H1; H2], [CallBefore (h1_skip, 1); CallBefore (h2, 2)])
  ∧ call_before AcquireNextImage2KHR [(h1, 1); (h2, 2)] driver
      (0, 0, {| swapchain := 7; timeout := 8; semaphore := 9; fence := 10 |}, 0) []
    = (VK_SUCCESS, [H1; H2; Driver],
       [CallBefore (h1, 1); CallBefore (h2, 2); CallReal]).
Proof.
  split.
  - exact (before_only_runs_or_skips (World:=list mark) (Feature:=Z)
             AcquireNextImage2KHR [(h1_skip, 1); (h2, 2)] driver
             (0, 0, {| swapchain := 7; timeout := 8; semaphore := 9; fence := 10 |}, 0)
             [] VK_SUCCESS true [H1; H2] eq_refl).
  - exact (before_only_runs_or_skips (World:=list mark) (Feature:=Z)
             AcquireNextImage2KHR [(h1, 1); (h2, 2)] driver
             (0, 0, {| swapchain := 7; timeout := 8; semaphore := 9; fence := 10 |}, 0)
             [] VK_SUCCESS false [H1; H2] eq_refl).
Defined.

(** [vkGetSwapchainImagesKHR] with a second hook that fails. *)
Lemma before_only_first_failure_wins_witness :
  call_before GetSwapchainImagesKHR [(h1, 1); (h2_fail, 2); (h1, 3)] driver
    (0, 0, 0, 0) []
  = (VK_ERROR_DEVICE_LOST, [H1; H2],
     [CallBefore (h1, 1); CallBefore (h2_fail, 2)]).
Proof.
  apply (before_only_first_failure_wins (World:=list mark) (Feature:=Z)
           GetSwapchainImagesKHR [(h1, 1)] h2_fail 2 [(h1, 3)] driver
           (0, 0, 0, 0) [] VK_SUCCESS false [H1]
           VK_ERROR_DEVICE_LOST false [H1; H2]);
    [reflexivity|reflexivity|discriminate].
Defined.

(** [vkQueuePresentKHR] over a driver that fails, with one after-hook that
    succeeds, and with none. *)
Lemma after_hooks_replace_the_driver_result_witness :
  call_hooked QueuePresentKHR [(h1, 1)] lost [(h3, 3)] (0, 0) []
  = (VK_SUCCESS, [H1; Driver; H3],
     [CallBefore (h1, 1); CallReal; CallAfter (h3, 3)])
  ∧ call_hooked (Feature:=Z) QueuePresentKHR [(h1, 1)] lost [] (0, 0) []
    = (VK_ERROR_DEVICE_LOST, [H1; Driver], [CallBefore (h1, 1); CallReal]).
Proof.
  split.
  - destruct (after_hooks_replace_the_driver_result (World:=list mark) (Feature:=Z)
                QueuePresentKHR [(h1, 1)] lost [(h3, 3)] (0, 0) []
                VK_SUCCESS [H1] VK_ERROR_DEVICE_LOST [H1; Driver] eq_refl eq_refl)
      as [Hsome _].
    assert ([(h3 (A:=()), 3)] ≠ []) as Hne by discriminate.
    exact (proj2 (Hsome Hne) VK_SUCCESS [H1; Driver; H3] eq_refl).
  - destruct (after_hooks_replace_the_driver_result (World:=list mark) (Feature:=Z)
                QueuePresentKHR [(h1, 1)] lost [] (0, 0) []
                VK_SUCCESS [H1] VK_ERROR_DEVICE_LOST [H1; Driver] eq_refl eq_refl)
      as [_ Hnone].
    exact (Hnone eq_refl).
Defined.

(** Two hooks that leave [skip] alone on each of the two entry points. *)
Lemma destroy_calls_every_hook_then_the_driver_witness :
  vkDestroySwapchainKHR
    [(λ _ s w, (s, w ++ [H1]), 1); (λ _ s w, (s, w ++ [H2]), 2)]
    (λ _ w, w ++ [Driver]) 0 0 0 []
  = ([H1; H2; Driver],
     [VoidCallBefore (λ _ s w, (s, w ++ [H1]), 1);
      VoidCallBefore (λ _ s w, (s, w ++ [H2]), 2); VoidCallReal])
  ∧ vkDestroySurfaceKHR
      [(λ _ s w, (s, w ++ [H1]), 1); (λ _ s w, (s, w ++ [H2]), 2)]
      (λ _ w, w ++ [Driver]) 0 0 0 []
    = ([H1; H2; Driver],
       [VoidCallBefore (λ _ s w, (s, w ++ [H1]), 1);
        VoidCallBefore (λ _ s w, (s, w ++ [H2]), 2); VoidCallReal]).
Proof.
  apply (destroy_calls_every_hook_then_the_driver
           (World:=list mark) (Feature:=Z)
           [(λ _ s w, (s, w ++ [H1]), 1); (λ _ s w, (s, w ++ [H2]), 2)]
           [(λ _ s w, (s, w ++ [H1]), 1); (λ _ s w, (s, w ++ [H2]), 2)]
           (λ _ w, w ++ [Driver]) (λ _ w, w ++ [Driver]) 0 0 0 []);
    intros h f s w' Hin;
    repeat (apply elem_of_cons in Hin as [Hin|Hin];
            [by injection Hin as -> _|]);
    by apply elem_of_nil in Hin.
Defined.

End Marks.

End BeforeOnlyProofs.

Module LoaderProofs.

Import stdpp.gmap stdpp.strings.
Import Interposer Loader.

Local Open Scope Z_scope.

(** ** Properties of the lookups *)

Section Library.

Variable LoadLibraryA : option Z.
Variable GetProcAddress : Z → string → option DriverProcAddr.

Local Abbreviation loadVulkanLibrary := (Loader.loadVulkanLibrary LoadLibraryA).
Local Abbreviation vkGetDeviceProcAddr :=
  (Loader.vkGetDeviceProcAddr LoadLibraryA GetProcAddress).
Local Abbreviation vkGetInstanceProcAddr :=
  (Loader.vkGetInstanceProcAddr LoadLibraryA GetProcAddress).

(** The pointer a lookup returns. *)
Local Abbreviation pointer_of r := ((λ x : PFN_vkVoidFunction * tables * list error_log, x.1.1) <$> r).

Lemma eqb_outside (pName : string) (names : list string) F :
  pName ∉ names → F ∈ names → String.eqb pName F = false.
Proof. intros Hout Hin. apply String.eqb_neq. by intros ->. Qed.

Ltac in_list := unfold device_intercepts, instance_only_intercepts;
                rewrite ?elem_of_app, ?elem_of_cons; tauto.

Ltac skip_intercepts Hout :=
  unfold SL_INTERCEPT;
  repeat match goal with
         | |- context [String.eqb ?p ?F] =>
             rewrite (eqb_outside p _ F Hout) by in_list
         end.

(** The device-level tests of a name outside the list all fail. *)
Lemma device_lookup_outside device pName st module st1 :
  loadVulkanLibrary st = (Some module, st1) →
  pName ∉ device_intercepts →
  vkGetDeviceProcAddr device pName st
  = let st2 :=
      match s_ddt_GetDeviceProcAddr st1 with
      | Some _ => st1
      | None =>
          {| s_module := s_module st1;
             s_ddt_GetDeviceProcAddr := GetProcAddress module "vkGetDeviceProcAddr";
             s_idt_GetInstanceProcAddr := s_idt_GetInstanceProcAddr st1 |}
      end in
    match s_ddt_GetDeviceProcAddr st2 with
    | Some GetDeviceProcAddr =>
        Some (forwarded (GetDeviceProcAddr device pName), st2, [])
    | None => None
    end.
Proof.
  intros Hload Hout. unfold Loader.vkGetDeviceProcAddr. rewrite Hload.
  cbv zeta. skip_intercepts Hout. reflexivity.
Qed.

Lemma instance_lookup_outside instance pName st module st1 :
  loadVulkanLibrary st = (Some module, st1) →
  pName ∉ device_intercepts ++ instance_only_intercepts →
  vkGetInstanceProcAddr instance pName st
  = let st2 :=
      match s_idt_GetInstanceProcAddr st1 with
      | Some _ => st1
      | None =>
          {| s_module := s_module st1;
             s_ddt_GetDeviceProcAddr := s_ddt_GetDeviceProcAddr st1;
             s_idt_GetInstanceProcAddr :=
               GetProcAddress module "vkGetInstanceProcAddr" |}
      end in
    match s_idt_GetInstanceProcAddr st2 with
    | Some GetInstanceProcAddr =>
        Some (forwarded (GetInstanceProcAddr instance pName), st2, [])
    | None => None
    end.
Proof.
  intros Hload Hout. unfold Loader.vkGetInstanceProcAddr. rewrite Hload.
  cbv zeta. skip_intercepts Hout. reflexivity.
Qed.

(** The tests of a name of the list: the first that matches returns. *)
Lemma device_lookup_inside device pName st module st1 :
  loadVulkanLibrary st = (Some module, st1) →
  pName ∈ device_intercepts →
  pointer_of (vkGetDeviceProcAddr device pName st) = Some (interposed pName).
Proof.
  intros Hload Hin. unfold Loader.vkGetDeviceProcAddr. rewrite Hload.
  unfold device_intercepts in Hin.
  repeat (apply elem_of_cons in Hin as [->|Hin]; [reflexivity|]).
  by apply elem_of_nil in Hin.
Qed.

Lemma instance_lookup_inside instance pName st module st1 :
  loadVulkanLibrary st = (Some module, st1) →
  pName ∈ device_intercepts ++ instance_only_intercepts →
  pointer_of (vkGetInstanceProcAddr instance pName st) = Some (interposed pName).
Proof.
  intros Hload Hin. unfold Loader.vkGetInstanceProcAddr. rewrite Hload.
  unfold device_intercepts, instance_only_intercepts in Hin. simpl in Hin.
  repeat (apply elem_of_cons in Hin as [->|Hin]; [reflexivity|]).
  by apply elem_of_nil in Hin.
Qed.

Lemma device_lookup_interposed device pName st module st1 F :
  loadVulkanLibrary st = (Some module, st1) →
  pointer_of (vkGetDeviceProcAddr device pName st) = Some (interposed F)
  ↔ F = pName ∧ pName ∈ device_intercepts.
Proof.
  intros Hload. split.
  - destruct (decide (pName ∈ device_intercepts)) as [Hin|Hout].
    + rewrite (device_lookup_inside _ _ _ _ _ Hload Hin). by intros [= ->].
    + rewrite (device_lookup_outside _ _ _ _ _ Hload Hout). cbv zeta.
      by destruct (s_ddt_GetDeviceProcAddr _).
  - intros [-> Hin]. by eapply device_lookup_inside.
Qed.

Lemma instance_lookup_interposed instance pName st module st1 F :
  loadVulkanLibrary st = (Some module, st1) →
  pointer_of (vkGetInstanceProcAddr instance pName st) = Some (interposed F)
  ↔ F = pName ∧ pName ∈ device_intercepts ++ instance_only_intercepts.
Proof.
  intros Hload. split.
  - destruct (decide (pName ∈ device_intercepts ++ instance_only_intercepts))
      as [Hin|Hout].
    + rewrite (instance_lookup_inside _ _ _ _ _ Hload Hin). by intros [= ->].
    + rewrite (instance_lookup_outside _ _ _ _ _ Hload Hout). cbv zeta.
      by destruct (s_idt_GetInstanceProcAddr _).
  - intros [-> Hin]. by eapply instance_lookup_inside.
Qed.

(** X5.  With the library loaded, [vkGetDeviceProcAddr] returns a function of the
    interposer exactly for the fourteen names of its list, and
    [vkGetInstanceProcAddr] exactly for these and five more; the function
    is the one of that name, whatever the handle, the tables and the
    driver. *)
Theorem lookups_intercept_exactly_their_lists device instance pName st module st1 :
  loadVulkanLibrary st = (Some module, st1) →
  (∀ F, pointer_of (vkGetDeviceProcAddr device pName st) = Some (interposed F)
        ↔ F = pName ∧ pName ∈ device_intercepts)
  ∧ (∀ F, pointer_of (vkGetInstanceProcAddr instance pName st) = Some (interposed F)
          ↔ F = pName ∧ pName ∈ device_intercepts ++ instance_only_intercepts).
Proof.
  intros Hload. split; intros F.
  - by eapply device_lookup_interposed.
  - by eapply instance_lookup_interposed.
Qed.

(** X6.  With the library loaded, a name outside the list is passed to the
    driver's lookup with the handle as it came: to the function the table
    holds, or, when the table holds none, to the one [GetProcAddress] finds;
    when there is none either, the lookup calls a null pointer. *)
Theorem other_names_go_to_the_driver device instance pName st module st1 :
  loadVulkanLibrary st = (Some module, st1) →
  (pName ∉ device_intercepts →
     pointer_of (vkGetDeviceProcAddr device pName st)
     = (λ f : DriverProcAddr, forwarded (f device pName))
       <$> (match s_ddt_GetDeviceProcAddr st1 with
            | Some f => Some f
            | None => GetProcAddress module "vkGetDeviceProcAddr"
            end))
  ∧ (pName ∉ device_intercepts ++ instance_only_intercepts →
     pointer_of (vkGetInstanceProcAddr instance pName st)
     = (λ f : DriverProcAddr, forwarded (f instance pName))
       <$> (match s_idt_GetInstanceProcAddr st1 with
            | Some f => Some f
            | None => GetProcAddress module "vkGetInstanceProcAddr"
            end)).
Proof.
  intros Hload. split; intros Hout.
  - rewrite (device_lookup_outside _ _ _ _ _ Hload Hout). cbv zeta.
    destruct (s_ddt_GetDeviceProcAddr st1) as [f|] eqn:E; simpl.
    + by rewrite E.
    + by destruct (GetProcAddress module "vkGetDeviceProcAddr").
  - rewrite (instance_lookup_outside _ _ _ _ _ Hload Hout). cbv zeta.
    destruct (s_idt_GetInstanceProcAddr st1) as [f|] eqn:E; simpl.
    + by rewrite E.
    + by destruct (GetProcAddress module "vkGetInstanceProcAddr").
Qed.

(** X7.  When the library is not loaded and cannot be loaded, both lookups return
    [nullptr] for every name, also for the names they would intercept, log
    the error and leave the tables as they are. *)
Theorem lookups_without_the_library device instance pName st :
  s_module st = None →
  LoadLibraryA = None →
  vkGetDeviceProcAddr device pName st
  = Some (nullptr, st, [FailedToLoadVulkanLibrary])
  ∧ vkGetInstanceProcAddr instance pName st
    = Some (nullptr, st, [FailedToLoadVulkanLibrary]).
Proof.
  intros Hm Hl. unfold Loader.vkGetDeviceProcAddr, Loader.vkGetInstanceProcAddr,
    Loader.loadVulkanLibrary.
  destruct st as [m d i]. simpl in Hm. subst m. rewrite Hl. done.
Qed.

(** X8.  Of the nine entry points that run hooks, [vkGetInstanceProcAddr] hands
    out seven; [vkCreateWin32SurfaceKHR] and [vkDestroySurfaceKHR] are not in
    its list, so an application that resolves them by name gets the driver's
    functions and their hooks do not run. *)
Theorem surface_hooks_are_not_handed_out instance pName st module st1 :
  loadVulkanLibrary st = (Some module, st1) →
  pName ∈ hooked_entry_points →
  pointer_of (vkGetInstanceProcAddr instance pName st) = Some (interposed pName)
  ↔ pName ≠ "vkCreateWin32SurfaceKHR" ∧ pName ≠ "vkDestroySurfaceKHR".
Proof.
  intros Hload Hin.
  rewrite (instance_lookup_interposed instance pName st module st1 pName Hload).
  unfold hooked_entry_points in Hin.
  unfold device_intercepts, instance_only_intercepts. simpl.
  repeat (apply elem_of_cons in Hin as [->|Hin];
          [rewrite !elem_of_cons, elem_of_nil; split;
             [intros [_ H]; repeat (destruct H as [H|H]; try discriminate H);
              by (split; discriminate) || done
             |intros [H1 H2]; split; [done|]; try tauto; try done]|]).
  by apply elem_of_nil in Hin.
Qed.

End Library.

(** ** Properties of the map from physical devices to instances *)

Section Devices.

Context {World : Type}.

(** What the loop of [vkDestroyInstance] leaves of a map, when the entries
    it visits are any list. *)
Lemma erase_instance_lookup entries Instance (m : gmap Z Z) d :
  erase_instance entries Instance m !! d
  = if decide ((d, Instance) ∈ entries) then None else m !! d.
Proof.
  revert m. induction entries as [|[k v] entries IH]; intros m;
    cbn [erase_instance].
  - rewrite decide_False; [done|]. by intros ?%elem_of_nil.
  - destruct (Z.eqb_spec v Instance) as [->|Hne]; rewrite IH.
    + destruct (decide (d = k)) as [->|Hdk].
      * rewrite (decide_True (P:=(k, Instance) ∈ (k, Instance) :: entries))
          by apply list_elem_of_here.
        case_decide; [done|]. apply lookup_delete_eq.
      * rewrite lookup_delete_ne by done.
        destruct (decide ((d, Instance) ∈ entries)) as [Hin|Hout].
        -- rewrite decide_True; [done|]. by apply list_elem_of_further.
        -- rewrite decide_False; [done|].
           intros [[= ? ]|?]%elem_of_cons; done.
    + destruct (decide ((d, Instance) ∈ entries)) as [Hin|Hout].
      * rewrite decide_True; [done|]. by apply list_elem_of_further.
      * rewrite decide_False; [done|].
        intros [[= ? ?]|?]%elem_of_cons; [congruence|done].
Qed.

(** What the loop of [vkEnumeratePhysicalDevices] makes of a map. *)
Lemma register_devices_lookup i array Instance (m : gmap Z Z) :
  (i ≤ length array)%nat →
  ∃ m', register_devices i array Instance m = Some m'
        ∧ ∀ d, m' !! d = if decide (d ∈ take i array) then Some Instance else m !! d.
Proof.
  revert m. induction i as [|i IH]; intros m Hi; cbn [register_devices].
  - exists m. split; [done|]. intros d. rewrite take_0, decide_False; [done|].
    by intros ?%elem_of_nil.
  - destruct (lookup_lt_is_Some_2 array i) as [x Hx]; [lia|]. rewrite Hx.
    destruct (IH (<[x:=Instance]> m)) as (m' & E & Hm'); [lia|].
    exists m'. split; [done|]. intros d. rewrite Hm'.
    rewrite (take_S_r _ _ _ Hx).
    destruct (decide (d ∈ take i array)) as [Hin|Hout].
    + rewrite decide_True; [done|]. apply elem_of_app. by left.
    + destruct (decide (d = x)) as [->|Hdx].
      * rewrite lookup_insert_eq. rewrite decide_True; [done|].
        apply elem_of_app. right. apply list_elem_of_here.
      * rewrite lookup_insert_ne by done. rewrite decide_False; [done|].
        intros [?|?%list_elem_of_singleton]%elem_of_app; done.
Qed.

Lemma register_devices_past_the_end i array Instance (m : gmap Z Z) :
  (length array < i)%nat → register_devices i array Instance m = None.
Proof.
  revert m. induction i as [|i IH]; intros m Hi; [lia|]. simpl.
  destruct (array !! i) as [x|] eqn:Hx; [|done].
  apply lookup_lt_Some in Hx. lia.
Qed.

(** X9.  After [vkDestroyInstance] no physical device is recorded for the
    instance destroyed, and the devices of every other instance are recorded
    as before: the map holds [d ↦ I] exactly when it held it and [I] is not
    the instance destroyed.  The driver's [DestroyInstance] is called
    once. *)
Theorem destroy_forgets_the_devices_of_the_instance
    (DestroyInstance : VkInstance → pointer → World → World)
    Instance Allocator (w : World) (m : gmap Z Z) :
  (vkDestroyInstance DestroyInstance Instance Allocator w m).1
  = DestroyInstance Instance Allocator w
  ∧ ∀ (d I : Z),
      (vkDestroyInstance DestroyInstance Instance Allocator w m).2 !! d = Some I
      ↔ m !! d = Some I ∧ I ≠ Instance.
Proof.
  split; [done|]. intros d I. simpl. rewrite erase_instance_lookup.
  destruct (decide ((d, Instance) ∈ map_to_list m)) as [Hin|Hout].
  - apply elem_of_map_to_list in Hin. split; [done|].
    intros [Hd Hne]. unfold VkInstance in *. congruence.
  - split.
    + intros Hd. split; [done|]. intros ->.
      apply Hout. by apply elem_of_map_to_list.
    + by intros [? _].
Qed.

(** X10.  [vkEnumeratePhysicalDevices] called with an array records the instance
    for each of the [*PhysicalDeviceCount] devices the driver wrote, whatever
    the driver's result, and changes no other entry; called with a null
    array it leaves the map alone; and it reads past the array when the
    count exceeds its length.  The driver's result is returned. *)
Theorem enumerate_records_the_devices
    (Enumerate : VkInstance → pointer → enumeration)
    Instance PhysicalDevices (m : gmap Z Z) e :
  Enumerate Instance PhysicalDevices = e →
  0 ≤ PhysicalDeviceCount e →
  (PhysicalDevices = 0 →
     vkEnumeratePhysicalDevices Enumerate Instance PhysicalDevices m
     = Some (Result e, m))
  ∧ (PhysicalDevices ≠ 0 →
     PhysicalDeviceCount e ≤ Z.of_nat (length (PhysicalDevices_array e)) →
     ∃ m',
       vkEnumeratePhysicalDevices Enumerate Instance PhysicalDevices m
       = Some (Result e, m')
       ∧ ∀ d, m' !! d
              = if decide (d ∈ take (Z.to_nat (PhysicalDeviceCount e))
                                    (PhysicalDevices_array e))
                then Some Instance else m !! d)
  ∧ (PhysicalDevices ≠ 0 →
     Z.of_nat (length (PhysicalDevices_array e)) < PhysicalDeviceCount e →
     vkEnumeratePhysicalDevices Enumerate Instance PhysicalDevices m = None).
Proof.
  intros He Hcount. unfold vkEnumeratePhysicalDevices. rewrite He.
  split; [|split].
  - intros ->. done.
  - intros Hp Hlen. apply Z.eqb_neq in Hp. rewrite Hp.
    destruct (register_devices_lookup (Z.to_nat (PhysicalDeviceCount e))
                (PhysicalDevices_array e) Instance m) as (m' & E & Hm'); [lia|].
    exists m'. by rewrite E.
  - intros Hp Hlen. apply Z.eqb_neq in Hp. rewrite Hp.
    rewrite register_devices_past_the_end; [done|lia].
Qed.

(** X11.  Enumerating the devices of an instance and then destroying the instance
    leaves none of the enumerated devices in the map, also those that were
    recorded for another instance before; every other device is recorded as
    after a destruction alone. *)
Theorem enumerate_then_destroy
    (Enumerate : VkInstance → pointer → enumeration)
    (DestroyInstance : VkInstance → pointer → World → World)
    Instance PhysicalDevices Allocator (w : World) (m m1 : gmap Z Z) r :
  PhysicalDevices ≠ 0 →
  vkEnumeratePhysicalDevices Enumerate Instance PhysicalDevices m = Some (r, m1) →
  ∀ d,
    (vkDestroyInstance DestroyInstance Instance Allocator w m1).2 !! d
    = if decide (d ∈ take (Z.to_nat (PhysicalDeviceCount (Enumerate Instance PhysicalDevices)))
                          (PhysicalDevices_array (Enumerate Instance PhysicalDevices)))
      then None
      else (vkDestroyInstance DestroyInstance Instance Allocator w m).2 !! d.
Proof.
  intros Hp He d. unfold vkEnumeratePhysicalDevices in He.
  apply Z.eqb_neq in Hp. rewrite Hp in He.
  set (e := Enumerate Instance PhysicalDevices) in *.
  destruct (register_devices (Z.to_nat (PhysicalDeviceCount e))
              (PhysicalDevices_array e) Instance m) as [m'|] eqn:E; [|done].
  injection He as <- <-.
  assert (Z.to_nat (PhysicalDeviceCount e) ≤ length (PhysicalDevices_array e))%nat
    as Hlen.
  { destruct (decide (Z.to_nat (PhysicalDeviceCount e)
                      ≤ length (PhysicalDevices_array e))%nat); [done|].
    rewrite register_devices_past_the_end in E; [done|lia]. }
  destruct (register_devices_lookup _ _ Instance m Hlen) as (m'' & E' & Hm').
  rewrite E in E'. injection E' as <-.
  simpl. rewrite !erase_instance_lookup.
  destruct (decide (d ∈ take (Z.to_nat (PhysicalDeviceCount e))
                             (PhysicalDevices_array e))) as [Hin|Hout].
  - rewrite decide_True; [done|]. apply elem_of_map_to_list.
    rewrite Hm'. by rewrite decide_True.
  - assert ((d, Instance) ∈ map_to_list m' ↔ (d, Instance) ∈ map_to_list m) as Hiff.
    { rewrite !elem_of_map_to_list, Hm'. by rewrite decide_False. }
    rewrite Hm', (decide_False (P:=d ∈ _)) by done.
    destruct (decide ((d, Instance) ∈ map_to_list m)) as [H1|H1].
    + rewrite decide_True; [done|]. by apply Hiff.
    + rewrite decide_False; [done|]. by rewrite Hiff.
Qed.

End Devices.

(** The lookups and the map on concrete values: a library with the handle 1
    whose two lookup functions return the address 42. *)
Section Concrete.

Local Abbreviation found := (λ (_ : Z) (_ : string), Some (λ (_ : Z) (_ : string), 42)).
Local Abbreviation empty_tables :=
  {| s_module := None; s_ddt_GetDeviceProcAddr := None;
     s_idt_GetInstanceProcAddr := None |}.
Local Abbreviation loaded_tables :=
  {| s_module := Some 1; s_ddt_GetDeviceProcAddr := None;
     s_idt_GetInstanceProcAddr := None |}.

Lemma lookups_intercept_exactly_their_lists_witness :
  (λ x, x.1.1) <$> vkGetDeviceProcAddr (Some 1) found 5 "vkDeviceWaitIdle" empty_tables
  = Some (interposed "vkDeviceWaitIdle")
  ∧ (λ x, x.1.1) <$> vkGetInstanceProcAddr (Some 1) found 5 "vkCreateDevice" empty_tables
    = Some (interposed "vkCreateDevice").
Proof.
  destruct (lookups_intercept_exactly_their_lists (Some 1) found 5 5
              "vkDeviceWaitIdle" empty_tables 1 loaded_tables eq_refl) as [Hd _].
  destruct (lookups_intercept_exactly_their_lists (Some 1) found 5 5
              "vkCreateDevice" empty_tables 1 loaded_tables eq_refl) as [_ Hi].
  split.
  - apply Hd. split; [reflexivity|]. unfold device_intercepts.
    rewrite !elem_of_cons. tauto.
  - apply Hi. split; [reflexivity|].
    unfold device_intercepts, instance_only_intercepts.
    rewrite elem_of_app, !elem_of_cons. tauto.
Defined.

Lemma other_names_go_to_the_driver_witness :
  (λ x, x.1.1) <$> vkGetDeviceProcAddr (Some 1) found 5 "vkCmdDraw" empty_tables
  = Some (forwarded 42).
Proof.
  destruct (other_names_go_to_the_driver (Some 1) found 5 5
              "vkCmdDraw" empty_tables 1 loaded_tables eq_refl) as [Hd _].
  apply Hd. unfold device_intercepts. rewrite !elem_of_cons, elem_of_nil.
  intros H. repeat (destruct H as [H|H]; [discriminate H|]). exact H.
Defined.

Lemma lookups_without_the_library_witness :
  vkGetDeviceProcAddr None found 5 "vkDeviceWaitIdle" empty_tables
  = Some (nullptr, empty_tables, [FailedToLoadVulkanLibrary]).
Proof.
  exact (proj1 (lookups_without_the_library None found 5 5 "vkDeviceWaitIdle"
                  empty_tables eq_refl eq_refl)).
Defined.

Lemma surface_hooks_are_not_handed_out_witness :
  (λ x, x.1.1) <$> vkGetInstanceProcAddr (Some 1) found 5 "vkQueuePresentKHR" empty_tables
  = Some (interposed "vkQueuePresentKHR").
Proof.
  apply (surface_hooks_are_not_handed_out (Some 1) found 5
           "vkQueuePresentKHR" empty_tables 1 loaded_tables eq_refl).
  - unfold hooked_entry_points. rewrite !elem_of_cons. tauto.
  - split; discriminate.
Defined.

Lemma enumerate_records_the_devices_witness :
  ∃ m',
    vkEnumeratePhysicalDevices
      (λ _ _, {| Result := 0; PhysicalDeviceCount := 2;
                 PhysicalDevices_array := [10; 11; 12] |})
      7 100 ({[ 11 := 3 ]} : gmap Z Z)
    = Some (0, m')
    ∧ m' !! 10 = Some 7 ∧ m' !! 11 = Some 7 ∧ m' !! 12 = None.
Proof.
  destruct (enumerate_records_the_devices
              (λ _ _, {| Result := 0; PhysicalDeviceCount := 2;
                         PhysicalDevices_array := [10; 11; 12] |})
              7 100 ({[ 11 := 3 ]} : gmap Z Z) _ eq_refl) as (_ & Hsome & _).
  - simpl. discriminate.
  - destruct Hsome as (m' & E & Hm'); [discriminate|simpl; lia|].
    exists m'. split; [exact E|]. rewrite !Hm'. repeat split.
Defined.

Lemma enumerate_then_destroy_witness :
  (vkDestroyInstance (World:=()) (λ _ _ w, w) 7 0 ()
     (<[10 := 7]> (<[11 := 7]> ({[ 11 := 3 ]} : gmap Z Z)))).2 !! 11
  = None.
Proof.
  exact (enumerate_then_destroy (World:=())
           (λ _ _, {| Result := 0; PhysicalDeviceCount := 2;
                      PhysicalDevices_array := [10; 11; 12] |})
           (λ _ _ w, w) 7 100 0 () ({[ 11 := 3 ]} : gmap Z Z) _ 0
           ltac:(discriminate) eq_refl 11).
Defined.

End Concrete.

End LoaderProofs.

Module ExtraProofs.

Import Stdlib.Strings.Ascii stdpp.strings.
Import Extra.

Local Open Scope Z_scope.

Local Abbreviation str := String.list_ascii_of_string.

(** ** [align] *)

Lemma land_lnot_u32 (x m : Z) :
  0 ≤ x < 2 ^ 32 → Z.land x (u32 (Z.lnot m)) = Z.ldiff x m.
Proof.
  intros Hx. apply Z.bits_inj'. intros i Hi.
  rewrite Z.land_spec, Z.ldiff_spec. unfold u32.
  destruct (Z.lt_ge_cases i 32) as [Hlt|Hge].
  - rewrite Z.mod_pow2_bits_low by lia. now rewrite Z.lnot_spec by lia.
  - rewrite Z.mod_pow2_bits_high by lia.
    assert (Z.testbit x i = false) as ->; [|reflexivity].
    destruct (Z.eq_dec x 0) as [->|Hx0]; [apply Z.bits_0|].
    apply Z.bits_above_log2; [lia|].
    apply Z.lt_le_trans with 32; [|lia]. apply Z.log2_lt_pow2; lia.
Qed.

Lemma align_pow2 (size k : Z) :
  0 ≤ k < 32 →
  align size (2 ^ k) = 2 ^ k * (u32 (size + (2 ^ k - 1)) / 2 ^ k).
Proof.
  intros Hk. unfold align.
  assert (0 < 2 ^ k) by (apply Z.pow_pos_nonneg; lia).
  assert (2 ^ k < 2 ^ 32) by (apply Z.pow_lt_mono_r; lia).
  assert (u32 (2 ^ k - 1) = 2 ^ k - 1) as ->
    by (unfold u32; apply Z.mod_small; lia).
  rewrite land_lnot_u32 by (unfold u32; apply Z.mod_pos_bound; lia).
  replace (2 ^ k - 1) with (Z.ones k) by (rewrite Z.ones_equiv; lia).
  rewrite Z.ldiff_ones_r by lia.
  rewrite Z.shiftl_mul_pow2, Z.shiftr_div_pow2 by lia. lia.
Qed.

(** X12.  [align], power-of-two alignments: the result is a multiple of the
    alignment; it is the least one that is not below [size] as long as
    [size + alignment - 1] fits 32 bits, and 0 once that sum wraps
    around. *)
Theorem align_rounds_up_until_it_wraps (size k : Z) :
  is_u32 size → 0 ≤ k < 32 →
  align size (2 ^ k) mod 2 ^ k = 0
  ∧ (size + (2 ^ k - 1) < 2 ^ 32 →
     size ≤ align size (2 ^ k) < size + 2 ^ k)
  ∧ (2 ^ 32 ≤ size + (2 ^ k - 1) → align size (2 ^ k) = 0).
Proof.
  intros Hs Hk. unfold is_u32 in Hs.
  rewrite align_pow2 by lia.
  assert (0 < 2 ^ k) by (apply Z.pow_pos_nonneg; lia).
  assert (2 ^ k < 2 ^ 32) by (apply Z.pow_lt_mono_r; lia).
  split; [|split].
  - rewrite Z.mul_comm. apply Z.mod_mul. lia.
  - intros Hfit. unfold u32. rewrite Z.mod_small by lia.
    pose proof (Z.div_mod (size + (2 ^ k - 1)) (2 ^ k) ltac:(lia)).
    pose proof (Z.mod_pos_bound (size + (2 ^ k - 1)) (2 ^ k) ltac:(lia)).
    lia.
  - intros Hwrap. unfold u32.
    replace (size + (2 ^ k - 1))
      with ((size + (2 ^ k - 1) - 2 ^ 32) + 1 * 2 ^ 32) by lia.
    rewrite Z.mod_add by lia.
    rewrite Z.mod_small by lia. rewrite Z.div_small by lia. lia.
Qed.

Lemma align_rounds_up_until_it_wraps_witness :
  align 13 (2 ^ 4) mod 2 ^ 4 = 0
  ∧ (13 + (2 ^ 4 - 1) < 2 ^ 32 → 13 ≤ align 13 (2 ^ 4) < 13 + 2 ^ 4)
  ∧ (2 ^ 32 ≤ 13 + (2 ^ 4 - 1) → align 13 (2 ^ 4) = 0).
Proof.
  apply (align_rounds_up_until_it_wraps 13 4); unfold is_u32; lia.
Defined.

(** ** [toHexStr] *)

Lemma digit_value_digit (d : Z) :
  0 ≤ d < 16 → digit_value (digit d) = Some d.
Proof.
  intros Hd.
  assert (d = 0 ∨ d = 1 ∨ d = 2 ∨ d = 3 ∨ d = 4 ∨ d = 5 ∨ d = 6 ∨ d = 7
          ∨ d = 8 ∨ d = 9 ∨ d = 10 ∨ d = 11 ∨ d = 12 ∨ d = 13 ∨ d = 14
          ∨ d = 15) as Hcases by lia.
  repeat (destruct Hcases as [->|Hcases]; [reflexivity|]).
  subst d. reflexivity.
Qed.

Lemma hex_chars_length (w : Z) (n : nat) : length (hex_chars w n) = n.
Proof. induction n as [|n IH]; simpl; [reflexivity|now rewrite IH]. Qed.

Lemma hex_value_from_hex_chars (w : Z) (n : nat) (acc : Z) :
  hex_value_from acc (hex_chars w n)
  = Some (acc * 16 ^ Z.of_nat n + w mod 16 ^ Z.of_nat n).
Proof.
  revert acc. induction n as [|n IH]; intros acc.
  - simpl. rewrite Z.mod_1_r. f_equal. lia.
  - cbn [hex_chars hex_value_from].
    assert (0 < 16 ^ Z.of_nat n) by (apply Z.pow_pos_nonneg; lia).
    assert (Z.land (Z.shiftr w (4 * Z.of_nat n)) 15
            = (w / 16 ^ Z.of_nat n) mod 16) as ->.
    { change 15 with (Z.ones 4). rewrite Z.land_ones by lia.
      rewrite Z.shiftr_div_pow2 by lia.
      rewrite Z.pow_mul_r by lia. reflexivity. }
    rewrite digit_value_digit by (apply Z.mod_pos_bound; lia).
    rewrite IH. f_equal.
    rewrite Nat2Z.inj_succ, Z.pow_succ_r by lia.
    rewrite (Z.mul_comm 16 (16 ^ Z.of_nat n)).
    rewrite Z.rem_mul_r by lia. lia.
Qed.

(** X13.  [toHexStr]: as long as the first shift stays below the width of the
    type, the result has [hex_len] characters and writes, in base 16, the
    low [4 * hex_len] bits of [w]: higher digits are dropped without a
    trace. *)
Theorem toHexStr_writes_the_low_digits (bits w : Z) (hex_len : nat) :
  4 * (Z.of_nat hex_len - 1) < bits →
  ∃ rc, toHexStr bits w hex_len = Some rc
        ∧ length rc = hex_len
        ∧ hex_value rc = Some (w mod 16 ^ Z.of_nat hex_len).
Proof.
  intros Hshift. exists (hex_chars w hex_len). split; [|split].
  - destruct hex_len as [|n]; [reflexivity|]. unfold toHexStr.
    destruct (Z.ltb_spec (4 * Z.of_nat n) bits); [reflexivity|lia].
  - apply hex_chars_length.
  - unfold hex_value. rewrite hex_value_from_hex_chars. f_equal; lia.
Qed.

Lemma toHexStr_writes_the_low_digits_witness :
  ∃ rc, toHexStr 32 48879 2 = Some rc
        ∧ length rc = 2%nat
        ∧ hex_value rc = Some (48879 mod 16 ^ Z.of_nat 2).
Proof. apply (toHexStr_writes_the_low_digits 32 48879 2). simpl. lia. Defined.

(** ** [prettifyMicrosecondsString] *)

Lemma digits_have_no_s (d : Decimal.uint) :
  "s"%char ∉ str (DecimalString.NilEmpty.string_of_uint d).
Proof.
  induction d; simpl; [apply not_elem_of_nil|..];
    (apply not_elem_of_cons; split; [discriminate|assumption]).
Qed.

Lemma dec_has_no_s (n : Z) : "s"%char ∉ dec n.
Proof.
  unfold dec. destruct (N.to_uint (Z.to_N n)) eqn:E;
    try (rewrite <- E; apply digits_have_no_s) ||
    (simpl; apply not_elem_of_cons; split;
     [discriminate|try apply not_elem_of_nil; apply digits_have_no_s]).
Qed.

Lemma to_uint_not_nil (n : N) : N.to_uint n ≠ Decimal.Nil.
Proof.
  intros E. pose proof (DecimalN.Unsigned.to_of (N.to_uint n)) as H.
  rewrite DecimalN.Unsigned.of_to, E in H. discriminate H.
Qed.

Lemma dec_inj (a b : Z) : 0 ≤ a → 0 ≤ b → dec a = dec b → a = b.
Proof.
  intros Ha Hb E. unfold dec in E.
  apply (f_equal String.string_of_list_ascii) in E.
  rewrite !String.string_of_list_ascii_of_string in E.
  apply (f_equal DecimalString.NilZero.uint_of_string) in E.
  rewrite !DecimalString.NilZero.usu in E by apply to_uint_not_nil.
  injection E as E. apply DecimalN.Unsigned.to_uint_inj in E. lia.
Qed.

Lemma split_at_the_first {A} (c : A) (l1 r1 l2 r2 : list A) :
  c ∉ l1 → c ∉ l2 → l1 ++ c :: r1 = l2 ++ c :: r2 → l1 = l2 ∧ r1 = r2.
Proof.
  revert l2. induction l1 as [|x l1 IH]; intros [|y l2] H1 H2 E; simpl in E.
  - injection E as ->. auto.
  - injection E as <- _. exfalso. apply H2. left.
  - injection E as -> _. exfalso. apply H1. left.
  - injection E as -> E. apply not_elem_of_cons in H1 as [_ H1].
    apply not_elem_of_cons in H2 as [_ H2].
    destruct (IH l2 H1 H2 E) as [-> ->]. auto.
Qed.

Lemma setw3_dec (m : Z) :
  0 ≤ m < 1000 →
  setw3 (dec m) = [digit (m / 100); digit (m / 10 mod 10); digit (m mod 10)].
Proof.
  intros Hm.
  assert (forallb (λ k : nat,
            bool_decide (setw3 (dec (Z.of_nat k))
                         = [digit (Z.of_nat k / 100);
                            digit (Z.of_nat k / 10 mod 10);
                            digit (Z.of_nat k mod 10)]))
            (seq 0 1000) = true) as Hall by (vm_compute; reflexivity).
  rewrite forallb_forall in Hall.
  specialize (Hall (Z.to_nat m)). rewrite Z2Nat.id in Hall by lia.
  apply bool_decide_eq_true in Hall; [exact Hall|].
  apply in_seq. lia.
Qed.

Lemma digit_inj (a b : Z) : 0 ≤ a < 16 → 0 ≤ b < 16 → digit a = digit b → a = b.
Proof.
  intros Ha Hb E. apply (f_equal digit_value) in E.
  rewrite !digit_value_digit in E by lia. congruence.
Qed.

(** X14.  [prettifyMicrosecondsString]: the milliseconds and the microseconds
    always take three characters, and no two durations are written the
    same way. *)
Theorem prettifyMicrosecondsString_is_injective (a b : Z) :
  0 ≤ a → 0 ≤ b →
  (length (prettifyMicrosecondsString a)
   = length (dec (a / 1000000)) + 13)%nat
  ∧ (prettifyMicrosecondsString a = prettifyMicrosecondsString b → a = b).
Proof.
  intros Ha Hb. unfold prettifyMicrosecondsString.
  pose proof (Z.mod_pos_bound a 1000000 ltac:(lia)).
  pose proof (Z.mod_pos_bound b 1000000 ltac:(lia)).
  pose proof (Z.mod_pos_bound (a mod 1000000) 1000 ltac:(lia)).
  pose proof (Z.mod_pos_bound (b mod 1000000) 1000 ltac:(lia)).
  assert (0 ≤ a mod 1000000 / 1000 < 1000)
    by (split; [apply Z.div_pos; lia|apply Z.div_lt_upper_bound; lia]).
  assert (0 ≤ b mod 1000000 / 1000 < 1000)
    by (split; [apply Z.div_pos; lia|apply Z.div_lt_upper_bound; lia]).
  rewrite !setw3_dec by lia. split.
  - rewrite length_app. simpl. reflexivity.
  - simpl. intros E.
    apply split_at_the_first in E as [Es E]; try apply dec_has_no_s.
    apply dec_inj in Es; try (apply Z.div_pos; lia).
    injection E as E1 E2 E3 E4 E5 E6.
    set (ma := a mod 1000000 / 1000) in *.
    set (mb := b mod 1000000 / 1000) in *.
    set (ua := (a mod 1000000) mod 1000) in *.
    set (ub := (b mod 1000000) mod 1000) in *.
    assert (0 ≤ ma / 100 < 10 ∧ 0 ≤ mb / 100 < 10
            ∧ 0 ≤ ua / 100 < 10 ∧ 0 ≤ ub / 100 < 10) as (?&?&?&?)
      by (repeat split; try (apply Z.div_pos; lia);
          apply Z.div_lt_upper_bound; lia).
    pose proof (Z.mod_pos_bound (ma / 10) 10 ltac:(lia)).
    pose proof (Z.mod_pos_bound (mb / 10) 10 ltac:(lia)).
    pose proof (Z.mod_pos_bound (ua / 10) 10 ltac:(lia)).
    pose proof (Z.mod_pos_bound (ub / 10) 10 ltac:(lia)).
    pose proof (Z.mod_pos_bound ma 10 ltac:(lia)).
    pose proof (Z.mod_pos_bound mb 10 ltac:(lia)).
    pose proof (Z.mod_pos_bound ua 10 ltac:(lia)).
    pose proof (Z.mod_pos_bound ub 10 ltac:(lia)).
    apply digit_inj in E1, E2, E3, E4, E5, E6; try lia.
    assert (ma = mb) as Em.
    { rewrite (Z.div_mod ma 10), (Z.div_mod mb 10) by lia.
      rewrite (Z.div_mod (ma / 10) 10), (Z.div_mod (mb / 10) 10) by lia.
      rewrite !Z.div_div by lia. change (10 * 10) with 100. lia. }
    assert (ua = ub) as Eu.
    { rewrite (Z.div_mod ua 10), (Z.div_mod ub 10) by lia.
      rewrite (Z.div_mod (ua / 10) 10), (Z.div_mod (ub / 10) 10) by lia.
      rewrite !Z.div_div by lia. change (10 * 10) with 100. lia. }
    subst ma mb ua ub.
    rewrite (Z.div_mod a 1000000), (Z.div_mod b 1000000) by lia.
    rewrite (Z.div_mod (a mod 1000000) 1000) by lia.
    rewrite (Z.div_mod (b mod 1000000) 1000) by lia.
    lia.
Qed.

Lemma prettifyMicrosecondsString_is_injective_witness :
  (length (prettifyMicrosecondsString 1002003)
   = length (dec (1002003 / 1000000)) + 13)%nat
  ∧ (prettifyMicrosecondsString 1002003 = prettifyMicrosecondsString 2003
     → 1002003 = 2003).
Proof. apply (prettifyMicrosecondsString_is_injective 1002003 2003); lia. Defined.

(** ** [format] *)

Lemma starts_with_spec (needle s : list ascii) :
  starts_with needle s = true ↔ ∃ r, s = needle ++ r.
Proof.
  revert s. induction needle as [|c needle IH]; intros s.
  - simpl. split; [intros _; now exists s|reflexivity].
  - destruct s as [|d s]; simpl.
    + split; [discriminate|intros [r Hr]; discriminate Hr].
    + rewrite andb_true_iff, IH, Ascii.eqb_eq. split.
      * intros [-> [r ->]]. now exists r.
      * intros [r Hr]. injection Hr as -> ->. split; [reflexivity|now exists r].
Qed.

Lemma strstr_unfold (s needle : list ascii) :
  strstr s needle
  = if starts_with needle s then Some ([], s)
    else match s with
         | [] => None
         | c :: s' =>
             match strstr s' needle with
             | Some (before, p) => Some (c :: before, p)
             | None => None
             end
         end.
Proof. destruct s; reflexivity. Qed.

Lemma strstr_absent (s needle : list ascii) :
  ¬ occurs needle s → strstr s needle = None.
Proof.
  induction s as [|c s IH]; intros Hno; rewrite strstr_unfold.
  - destruct (starts_with needle []) eqn:E; [|reflexivity].
    apply starts_with_spec in E as [r Hr]. exfalso. apply Hno.
    exists [], r. exact Hr.
  - destruct (starts_with needle (c :: s)) eqn:E.
    + apply starts_with_spec in E as [r Hr]. exfalso. apply Hno.
      exists [], r. exact Hr.
    + rewrite IH; [reflexivity|]. intros (b & a & ->). apply Hno.
      now exists (c :: b), a.
Qed.

Lemma strstr_first (before after needle : list ascii) :
  (∀ b r, before ++ needle ++ after = b ++ needle ++ r
          → (length before ≤ length b)%nat) →
  strstr (before ++ needle ++ after) needle
  = Some (before, needle ++ after).
Proof.
  induction before as [|c before IH]; intros Hfirst; rewrite strstr_unfold.
  - simpl. assert (starts_with needle (needle ++ after) = true) as ->;
      [|reflexivity].
    apply starts_with_spec. now exists after.
  - destruct (starts_with needle ((c :: before) ++ needle ++ after)) eqn:E.
    + apply starts_with_spec in E as [r Hr].
      specialize (Hfirst [] r Hr). simpl in Hfirst. lia.
    + simpl. rewrite IH; [reflexivity|]. intros b r Hbr.
      specialize (Hfirst (c :: b) r). simpl in Hfirst.
      rewrite Hbr in Hfirst. specialize (Hfirst eq_refl). lia.
Qed.

(** X15.  [format], no placeholder in the string: the string comes back as it
    is, and the arguments are dropped without a trace. *)
Theorem format_without_a_placeholder (s : list ascii) (args : list arg) :
  ¬ occurs (str "{}") s → format s args = s.
Proof.
  intros Hno. unfold format. destruct args as [|a args]; [reflexivity|].
  cbn [format_stream]. now rewrite strstr_absent.
Qed.

Lemma format_without_a_placeholder_witness :
  format (str "}{") [arg_unsigned 7] = str "}{".
Proof.
  apply (format_without_a_placeholder (str "}{") [arg_unsigned 7]).
  intros (b & a & E).
  destruct b as [|? [|? [|? b]]]; simpl in E; discriminate E.
Defined.

(** X16.  [format], first placeholder of the string: the text before it is
    copied, the argument is written in its place (in base 16 when [%x]
    follows immediately, and the [%x] is then left out), and only what
    follows is searched for the remaining arguments: a [{}] inside the
    argument written is not filled in. *)
Theorem format_fills_the_first_placeholder
    (before after : list ascii) (a : arg) (args : list arg) :
  (∀ b r, before ++ str "{}" ++ after = b ++ str "{}" ++ r
          → (length before ≤ length b)%nat) →
  format (before ++ str "{}" ++ after) (a :: args)
  = if starts_with (str "%x") after
    then before ++ insert true a ++ format (drop 2 after) args
    else before ++ insert false a ++ format after args.
Proof.
  intros Hfirst. unfold format. cbn [format_stream].
  rewrite strstr_first by exact Hfirst. cbn [drop app].
  change (String.list_ascii_of_string "{}" ++ after)
    with ("{"%char :: "}"%char :: after).
  cbn [drop]. rewrite !drop_0. destruct (starts_with _ after); reflexivity.
Qed.

Lemma format_fills_the_first_placeholder_witness :
  format (str "id " ++ str "{}" ++ str "%x{}")
         [arg_unsigned 255; arg_string (str "{}")]
  = str "id ff{}".
Proof.
  refine (eq_trans
            (format_fills_the_first_placeholder (str "id ") (str "%x{}")
               (arg_unsigned 255) [arg_string (str "{}")] _) eq_refl).
  intros b r E.
  destruct b as [|? [|? [|? b]]]; simpl in E; try discriminate E.
  simpl. lia.
Defined.

(** ** [keyboard::VirtKey] *)

Lemma to_char_inj (a b : Z) : to_char a = to_char b → a mod 256 = b mod 256.
Proof.
  unfold to_char. intros E. apply (f_equal N_of_ascii) in E.
  pose proof (Z.mod_pos_bound a 256 ltac:(lia)).
  pose proof (Z.mod_pos_bound b 256 ltac:(lia)).
  rewrite !N_ascii_embedding in E by lia. lia.
Qed.

(** X17.  [VirtKey::asStr]: the text is [unassigned] exactly for the keys with
    no main key, whatever their modifiers are. *)
Theorem asStr_unassigned (key : VirtKey) :
  asStr key = str "unassigned" ↔ m_mainKey key = 0.
Proof.
  destruct key as [k shift control alt]. unfold asStr. simpl.
  destruct (Z.eqb_spec k 0) as [->|Hk]; simpl; [tauto|].
  split; [|contradiction].
  destruct control, shift, alt; simpl; intros E; discriminate E.
Qed.

(** X18.  [VirtKey::asStr], keys with a main key: two keys are written the same
    way exactly when they have the same modifiers and main keys with the
    same low 8 bits. *)
Theorem asStr_tells_assigned_keys_apart (a b : VirtKey) :
  m_mainKey a ≠ 0 → m_mainKey b ≠ 0 →
  asStr a = asStr b
  ↔ m_bControl a = m_bControl b ∧ m_bShift a = m_bShift b
    ∧ m_bAlt a = m_bAlt b ∧ m_mainKey a mod 256 = m_mainKey b mod 256.
Proof.
  destruct a as [ka sa ca aa], b as [kb sb cb ab]. unfold asStr. simpl.
  intros Ha Hb.
  destruct (Z.eqb_spec ka 0) as [?|_]; [contradiction|].
  destruct (Z.eqb_spec kb 0) as [?|_]; [contradiction|]. simpl.
  split.
  - destruct ca, sa, aa, cb, sb, ab; simpl; intros E;
      try discriminate E; injection E as E; apply to_char_inj in E; auto.
  - intros (-> & -> & -> & E). do 2 f_equal. unfold to_char. now rewrite E.
Qed.

Lemma asStr_tells_assigned_keys_apart_witness :
  asStr {| m_mainKey := 65; m_bShift := true; m_bControl := false;
           m_bAlt := false |}
  = asStr {| m_mainKey := 321; m_bShift := true; m_bControl := false;
             m_bAlt := false |}
  ↔ false = false ∧ true = true ∧ false = false ∧ 65 mod 256 = 321 mod 256.
Proof.
  apply (asStr_tells_assigned_keys_apart
           {| m_mainKey := 65; m_bShift := true; m_bControl := false;
              m_bAlt := false |}
           {| m_mainKey := 321; m_bShift := true; m_bControl := false;
              m_bAlt := false |}); simpl; lia.
Defined.

(** ** [TAverageValueMeter] *)

Section AverageValueMeter.

Context {double : Type}.
Variable zero : double.
Variables fadd fsub fdiv : double → double → double.
Variable of_uint64 : Z → double.
Variable WINDOW_SIZE : Z.

Local Abbreviation add1 := (add fadd fsub fdiv of_uint64 WINDOW_SIZE).
Local Abbreviation adds := (add_all fadd fsub fdiv of_uint64 WINDOW_SIZE).

Lemma add_all_snoc (values : list double) (value : double)
    (this : TAverageValueMeter) :
  adds (values ++ [value]) this
  = match adds values this with
    | Some this' => add1 value this'
    | None => None
    end.
Proof.
  revert this. induction values as [|v values IH]; intros this; simpl.
  - now destruct (add1 value this).
  - destruct (add1 v this); [apply IH|reflexivity].
Qed.

Lemma slot_in_range (k : Z) :
  0 < WINDOW_SIZE → 0 ≤ k →
  (Z.to_nat (k mod WINDOW_SIZE) < Z.to_nat WINDOW_SIZE)%nat.
Proof. intros HW Hk. pose proof (Z.mod_pos_bound k WINDOW_SIZE HW). lia. Qed.

Lemma slots_differ (j k : Z) :
  0 < WINDOW_SIZE → 0 ≤ j < k → k < j + WINDOW_SIZE →
  Z.to_nat (k mod WINDOW_SIZE) ≠ Z.to_nat (j mod WINDOW_SIZE).
Proof.
  intros HW Hj Hk E.
  pose proof (Z.mod_pos_bound k WINDOW_SIZE HW).
  pose proof (Z.mod_pos_bound j WINDOW_SIZE HW).
  assert (k mod WINDOW_SIZE = j mod WINDOW_SIZE) as E' by lia.
  pose proof (Z.div_mod k WINDOW_SIZE ltac:(lia)).
  pose proof (Z.div_mod j WINDOW_SIZE ltac:(lia)).
  set (q := k / WINDOW_SIZE - j / WINDOW_SIZE).
  assert (k - j = WINDOW_SIZE * q) as Hq by (subst q; lia).
  destruct (Z.le_gt_cases q 0) as [Hle|Hgt].
  - assert (WINDOW_SIZE * q ≤ 0) by (apply Z.mul_nonneg_nonpos; lia). lia.
  - assert (WINDOW_SIZE * 1 ≤ WINDOW_SIZE * q)
      by (apply Z.mul_le_mono_nonneg_l; lia).
    lia.
Qed.

(** X19.  [TAverageValueMeter::add], fewer than 2^64 samples after the
    constructor: the number of samples is counted, the last one is the
    value, each of the last [WINDOW_SIZE] samples is in the window at its
    index modulo [WINDOW_SIZE], and the slots no sample has reached yet
    hold what the memory held. *)
Theorem the_window_holds_the_last_samples
    (memory values : list double) :
  0 < WINDOW_SIZE → length memory = Z.to_nat WINDOW_SIZE →
  Z.of_nat (length values) < 2 ^ 64 →
  ∃ this, adds values (construct zero memory) = Some this
    ∧ getNumSamples this = Z.of_nat (length values)
    ∧ getValue this = default zero (last values)
    ∧ (∀ (j : nat) v, values !! j = Some v →
         Z.of_nat (length values) ≤ Z.of_nat j + WINDOW_SIZE →
         window this !! Z.to_nat (Z.of_nat j mod WINDOW_SIZE) = Some v)
    ∧ (∀ i : nat, (length values ≤ i)%nat → window this !! i = memory !! i).
Proof.
  intros HW Hmem. unfold getNumSamples, getValue.
  cut (Z.of_nat (length values) < 2 ^ 64 →
       ∃ this, adds values (construct zero memory) = Some this
         ∧ n this = Z.of_nat (length values)
         ∧ val this = default zero (last values)
         ∧ length (window this) = Z.to_nat WINDOW_SIZE
         ∧ (∀ (j : nat) v, values !! j = Some v →
              Z.of_nat (length values) ≤ Z.of_nat j + WINDOW_SIZE →
              window this !! Z.to_nat (Z.of_nat j mod WINDOW_SIZE) = Some v)
         ∧ (∀ i : nat, (length values ≤ i)%nat
              → window this !! i = memory !! i)).
  { intros Hcut Hlen. destruct (Hcut Hlen) as (this & ? & ? & ? & ? & ? & ?).
    exists this. auto. }
  induction values as [|value values IH] using rev_ind; intros Hlen.
  - exists (construct zero memory). simpl. repeat split; auto.
    intros j v Hj. discriminate Hj.
  - rewrite length_app in Hlen. simpl in Hlen.
    destruct IH as (this & Hrun & Hn & Hval & Hsize & Hlast & Hrest); [lia|].
    rewrite add_all_snoc, Hrun. unfold add.
    destruct (Z.eqb_spec WINDOW_SIZE 0) as [?|_]; [lia|].
    destruct (lookup_lt_is_Some_2 (window this)
                (Z.to_nat (n this mod WINDOW_SIZE))) as [old Hold].
    { rewrite Hsize. apply slot_in_range; lia. }
    rewrite Hold. eexists. split; [reflexivity|]. cbn [n val window].
    rewrite length_app, last_snoc, length_insert. simpl.
    split; [|split; [reflexivity|split; [exact Hsize|split]]].
    + unfold u64. rewrite Hn. rewrite Z.mod_small by lia. lia.
    + intros j v Hj Hnear.
      destruct (decide (j = length values)) as [->|Hne].
      * rewrite list_lookup_middle in Hj by reflexivity.
        injection Hj as <-. rewrite Hn.
        apply list_lookup_insert_eq. rewrite Hsize.
        apply slot_in_range; lia.
      * assert (j < length values)%nat as Hlt.
        { apply lookup_lt_Some in Hj. rewrite length_app in Hj.
          simpl in Hj. lia. }
        rewrite lookup_app_l in Hj by exact Hlt.
        rewrite list_lookup_insert_ne.
        -- apply (Hlast j v Hj). lia.
        -- rewrite Hn. apply slots_differ; lia.
    + intros i Hi. rewrite list_lookup_insert_ne; [apply Hrest; lia|].
      rewrite Hn. pose proof (Z.mod_pos_bound (Z.of_nat (length values))
                                WINDOW_SIZE HW) as Hb.
      pose proof (Z.mod_le (Z.of_nat (length values)) WINDOW_SIZE
                    ltac:(lia) HW).
      lia.
Qed.

(** X20.  [TAverageValueMeter::add], any number of samples after the
    constructor, which leaves the window as the memory has it: the mean,
    the sum, the value and the count do not depend on what the memory
    held, so [add] subtracts only samples it has stored. *)
Theorem the_mean_does_not_depend_on_the_memory
    (memory1 memory2 values : list double) :
  0 < WINDOW_SIZE < 2 ^ 32 →
  length memory1 = Z.to_nat WINDOW_SIZE →
  length memory2 = Z.to_nat WINDOW_SIZE →
  ∃ this1 this2,
    adds values (construct zero memory1) = Some this1
    ∧ adds values (construct zero memory2) = Some this2
    ∧ getMean this1 = getMean this2
    ∧ getValue this1 = getValue this2
    ∧ getNumSamples this1 = getNumSamples this2
    ∧ sum this1 = sum this2.
Proof.
  intros HW Hmem1 Hmem2. unfold getMean, getValue, getNumSamples.
  cut (∃ this1 this2,
         adds values (construct zero memory1) = Some this1
         ∧ adds values (construct zero memory2) = Some this2
         ∧ mean this1 = mean this2 ∧ val this1 = val this2
         ∧ n this1 = n this2 ∧ sum this1 = sum this2
         ∧ n this1 = u64 (Z.of_nat (length values))
         ∧ length (window this1) = Z.to_nat WINDOW_SIZE
         ∧ length (window this2) = Z.to_nat WINDOW_SIZE
         ∧ (∀ i : nat, (i < length values)%nat → Z.of_nat i < WINDOW_SIZE →
              window this1 !! i = window this2 !! i)).
  { intros (this1 & this2 & ? & ? & ? & ? & ? & ? & _).
    exists this1, this2. repeat split; assumption. }
  induction values as [|value values IH] using rev_ind.
  - exists (construct zero memory1), (construct zero memory2). simpl.
    repeat split; auto. intros i Hi. lia.
  - destruct IH as (this1 & this2 & Hrun1 & Hrun2 & Hmean & Hval & Hn & Hsum
                    & Hcount & Hsize1 & Hsize2 & Hsame).
    rewrite !add_all_snoc, Hrun1, Hrun2. unfold add.
    destruct (Z.eqb_spec WINDOW_SIZE 0) as [?|_]; [lia|].
    assert (0 ≤ n this1 ≤ Z.of_nat (length values)) as Hbound.
    { rewrite Hcount. unfold u64.
      pose proof (Z.mod_pos_bound (Z.of_nat (length values)) (2 ^ 64)
                    ltac:(lia)).
      pose proof (Z.mod_le (Z.of_nat (length values)) (2 ^ 64)
                    ltac:(lia) ltac:(lia)).
      lia. }
    rewrite <- Hn, <- Hsum.
    set (i := Z.to_nat (n this1 mod WINDOW_SIZE)).
    assert (i < Z.to_nat WINDOW_SIZE)%nat as Hi
      by (subst i; apply slot_in_range; lia).
    destruct (lookup_lt_is_Some_2 (window this1) i) as [old1 Hold1];
      [lia|].
    destruct (lookup_lt_is_Some_2 (window this2) i) as [old2 Hold2];
      [lia|].
    rewrite Hold1, Hold2. do 2 eexists.
    split; [reflexivity|split; [reflexivity|]]. cbn [n val mean sum window].
    assert ((if WINDOW_SIZE <=? n this1
             then fsub (fadd (sum this1) value) old1
             else fadd (sum this1) value)
            = (if WINDOW_SIZE <=? n this1
               then fsub (fadd (sum this1) value) old2
               else fadd (sum this1) value)) as Hsums.
    { destruct (Z.leb_spec WINDOW_SIZE (n this1)) as [Hfull|_];
        [|reflexivity].
      assert (window this1 !! i = window this2 !! i) as E
        by (apply Hsame; lia).
      rewrite Hold1, Hold2 in E. injection E as ->. reflexivity. }
    rewrite Hsums, !length_insert, length_app. simpl.
    repeat split; auto.
    + rewrite Hcount. unfold u64.
      rewrite Zplus_mod_idemp_l. f_equal. lia.
    + intros i' Hi' HiW.
      destruct (decide (i' = i)) as [->|Hne].
      * rewrite !list_lookup_insert_eq by lia. reflexivity.
      * rewrite !list_lookup_insert_ne by auto.
        apply Hsame; [|exact HiW].
        destruct (decide (i' = length values)) as [->|?]; [|lia].
        exfalso. apply Hne. subst i. rewrite Hcount. unfold u64.
        rewrite (Z.mod_small _ (2 ^ 64)) by lia.
        rewrite Z.mod_small by lia. lia.
Qed.

End AverageValueMeter.

Lemma the_window_holds_the_last_samples_witness :
  ∃ this, add_all Z.add Z.sub Z.div id 2 [5; 6; 7] (construct 0 [8; 9])
          = Some this
    ∧ getNumSamples this = Z.of_nat (length [5; 6; 7])
    ∧ getValue this = default 0 (last [5; 6; 7])
    ∧ (∀ (j : nat) v, [5; 6; 7] !! j = Some v →
         Z.of_nat (length [5; 6; 7]) ≤ Z.of_nat j + 2 →
         window this !! Z.to_nat (Z.of_nat j mod 2) = Some v)
    ∧ (∀ i : nat, (length [5; 6; 7] ≤ i)%nat
         → window this !! i = [8; 9] !! i).
Proof.
  apply (the_window_holds_the_last_samples 0 Z.add Z.sub Z.div id 2
           [8; 9] [5; 6; 7]); simpl; lia.
Defined.

Lemma the_mean_does_not_depend_on_the_memory_witness :
  ∃ this1 this2,
    add_all Z.add Z.sub Z.div id 2 [5; 6; 7] (construct 0 [8; 9])
    = Some this1
    ∧ add_all Z.add Z.sub Z.div id 2 [5; 6; 7] (construct 0 [1; 2])
      = Some this2
    ∧ getMean this1 = getMean this2
    ∧ getValue this1 = getValue this2
    ∧ getNumSamples this1 = getNumSamples this2
    ∧ sum this1 = sum this2.
Proof.
  apply (the_mean_does_not_depend_on_the_memory 0 Z.add Z.sub Z.div id 2
           [8; 9] [1; 2] [5; 6; 7]); simpl; lia.
Defined.

End ExtraProofs.

Module ReflexEntryProofs.

Import Reflex ReflexEntry.

Local Open Scope Z_scope.

(** ** [slReflexSetCameraData] *)

Section SetCameraData.

Variables float4x4 ReflexCameraData ReflexPredictedCameraData stack : Type.
Variables worldToViewMatrix viewToClipMatrix : ReflexCameraData → float4x4.
Variable predictCameraData :
  stack → ReflexCameraData → float4x4 → float4x4 → ReflexPredictedCameraData.
Variable N : Z.
Hypothesis N_pos : 0 < N.

Local Abbreviation Context :=
  (ReflexEntry.Context float4x4 ReflexCameraData ReflexPredictedCameraData).
Local Abbreviation SetCameraData :=
  (slReflexSetCameraData float4x4 ReflexCameraData ReflexPredictedCameraData
     stack worldToViewMatrix viewToClipMatrix predictCameraData N).
Local Abbreviation GetCameraData :=
  (slReflexGetCameraDataInternal ReflexCameraData ReflexPredictedCameraData N).
Local Abbreviation GetPredictedCameraData :=
  (slReflexGetPredictedCameraData ReflexCameraData ReflexPredictedCameraData N).
Local Abbreviation camera_of := (camera float4x4 _ _).
Local Abbreviation sim_of ctx := (simCameraData _ _ (camera float4x4 _ _ ctx)).
Local Abbreviation pred_of ctx := (predCameraData _ _ (camera float4x4 _ _ ctx)).
Local Abbreviation predicting ctx := (predictCamera _ _ (camera float4x4 _ _ ctx)).

(** The call returns as soon as both pointers are set and the rings have
    their size. *)
Lemma slReflexSetCameraData_returns (ctx : Context) frame data locals :
  compute _ _ _ ctx = true → setStatsMarker _ _ _ ctx = true →
  ring_sized N (sim_of ctx) → ring_sized N (pred_of ctx) →
  ∃ pred sim acts1 acts2,
    (if predicting ctx && (0 <? frame)
     then insertCameraData N frame
            (predictCameraData locals data (prevWorldToViewMatrix _ _ _ ctx)
               (prevViewToClipMatrix _ _ _ ctx))
            (pred_of ctx)
     else Ret (pred_of ctx, [])) = Ret (pred, acts1)
    ∧ insertCameraData N frame data (sim_of ctx) = Ret (sim, acts2)
    ∧ ring_sized N pred ∧ ring_sized N sim
    ∧ SetCameraData frame data locals ctx
      = Some (Ret (eOk,
                   {| camera := {| simCameraData := sim;
                                   predCameraData := pred;
                                   predictCamera := predicting ctx |};
                      prevWorldToViewMatrix := worldToViewMatrix data;
                      prevViewToClipMatrix := viewToClipMatrix data;
                      compute := true;
                      setStatsMarker := true |},
                   [setReflexMarker eCameraConstructed frame;
                    setStatsMarkerFunc eCameraConstructed frame]
                   ++ (ring <$> acts1) ++ (ring <$> acts2))).
Proof.
  intros Hc Hm Hsim Hpred.
  destruct (ReflexProofs.insert_returns N N_pos frame data _ Hsim)
    as (sim & acts2 & Esim).
  assert (∃ pred acts1,
            (if predicting ctx && (0 <? frame)
             then insertCameraData N frame
                    (predictCameraData locals data
                       (prevWorldToViewMatrix _ _ _ ctx)
                       (prevViewToClipMatrix _ _ _ ctx))
                    (pred_of ctx)
             else Ret (pred_of ctx, [])) = Ret (pred, acts1)
            ∧ ring_sized N pred) as (pred & acts1 & Epred & Hpred').
  { destruct (predicting ctx && (0 <? frame)).
    - destruct (ReflexProofs.insert_returns N N_pos frame
                  (predictCameraData locals data
                     (prevWorldToViewMatrix _ _ _ ctx)
                     (prevViewToClipMatrix _ _ _ ctx)) _ Hpred)
        as (pred & acts1 & E).
      exists pred, acts1. split; [exact E|].
      exact (ReflexProofs.insert_sized N N_pos _ _ _ _ _ Hpred E).
    - exists (pred_of ctx), []. split; [reflexivity|exact Hpred]. }
  exists pred, sim, acts1, acts2.
  split; [exact Epred|]. split; [exact Esim|]. split; [exact Hpred'|].
  split; [exact (ReflexProofs.insert_sized N N_pos _ _ _ _ _ Hsim Esim)|].
  unfold slReflexSetCameraData. rewrite Hc, Hm. simpl.
  rewrite Epred. simpl. rewrite Esim. reflexivity.
Qed.

(** X21.  [slReflexSetCameraData]: a call through a pointer that is not set
    does not return.  With both pointers set the call sets the two
    markers and returns [eOk] whatever the frame is; it remembers the two
    matrices of the data even when it stores nothing, which is the case
    for a frame that is not positive: the two rings are then left as they
    were. *)
Theorem set_camera_data_succeeds_whatever_it_stores
    (ctx : Context) frame data locals :
  ring_sized N (sim_of ctx) → ring_sized N (pred_of ctx) →
  (compute _ _ _ ctx && setStatsMarker _ _ _ ctx = false →
   SetCameraData frame data locals ctx = None)
  ∧ (compute _ _ _ ctx && setStatsMarker _ _ _ ctx = true →
     ∃ ctx' events,
       SetCameraData frame data locals ctx
       = Some (Ret (eOk, ctx',
                    setReflexMarker eCameraConstructed frame
                    :: setStatsMarkerFunc eCameraConstructed frame
                    :: events))
       ∧ prevWorldToViewMatrix _ _ _ ctx' = worldToViewMatrix data
       ∧ prevViewToClipMatrix _ _ _ ctx' = viewToClipMatrix data
       ∧ (frame ≤ 0 → camera_of ctx' = camera_of ctx)).
Proof.
  intros Hsim Hpred. split.
  - intros Hnull. unfold slReflexSetCameraData.
    destruct (compute _ _ _ ctx); [|reflexivity].
    destruct (setStatsMarker _ _ _ ctx); [discriminate Hnull|reflexivity].
  - intros Hset. apply andb_true_iff in Hset as [Hc Hm].
    destruct (slReflexSetCameraData_returns ctx frame data locals Hc Hm
                Hsim Hpred)
      as (pred & sim & acts1 & acts2 & Epred & Esim & _ & _ & E).
    eexists _, _. split; [exact E|]. simpl.
    split; [reflexivity|]. split; [reflexivity|].
    intros Hle.
    destruct (Z.ltb_spec 0 frame) as [?|_]; [lia|].
    rewrite andb_false_r in Epred. injection Epred as <- _.
    unfold insertCameraData in Esim.
    destruct (Z.leb_spec frame 0) as [_|?]; [|lia].
    injection Esim as <- _.
    destruct ctx as [[s p c] ? ? ? ?]. reflexivity.
Qed.

(** X22.  [slReflexSetCameraData] and then [slReflexGetCameraDataInternal]: the
    data set for a positive frame that the ring does not hold yet are what
    a query for that frame returns, at once and without a log line. *)
Theorem camera_data_set_are_read_back (ctx : Context) frame data locals :
  compute _ _ _ ctx = true → setStatsMarker _ _ _ ctx = true →
  ring_sized N (sim_of ctx) → ring_sized N (pred_of ctx) →
  0 < frame → stored N frame (sim_of ctx) = None →
  ∃ ctx' events,
    SetCameraData frame data locals ctx = Some (Ret (eOk, ctx', events))
    ∧ ∀ out env,
        GetCameraData frame out env (camera_of ctx')
        = Ret (eOk, data, camera_of ctx', [], env).
Proof.
  intros Hc Hm Hsim Hpred Hpos Hnew.
  destruct (slReflexSetCameraData_returns ctx frame data locals Hc Hm
              Hsim Hpred)
    as (pred & sim & acts1 & acts2 & _ & Esim & _ & _ & E).
  eexists _, _. split; [exact E|]. intros out env. simpl.
  apply (ReflexProofs.stored_None N N_pos _ _ Hsim) in Hnew
    as (g & d & Hslot & Hne).
  destruct (ReflexProofs.insert_cases N N_pos frame data _ Hsim)
    as (g' & d' & Hslot' & [[? _]|[(_ & -> & _)|(_ & _ & Ei)]]);
    [lia|congruence|].
  rewrite Ei in Esim. injection Esim as <- _.
  unfold slReflexGetCameraDataInternal. simpl.
  rewrite (ReflexProofs.getCameraData_immediate N frame data); [reflexivity|].
  simpl. apply list_lookup_insert_eq. by apply lookup_lt_is_Some_1.
Qed.

(** Queries with no producer running leave the ring of the predictions as
    it is, and switch the prediction on. *)
Lemma slReflexGetPredictedCameraData_alone
    (cam : LatencyContext ReflexCameraData ReflexPredictedCameraData)
    frame out :
  ring_sized N (predCameraData _ _ cam) →
  ∃ res out' acts,
    GetPredictedCameraData frame out [] cam
    = Ret (res, out',
           {| simCameraData := simCameraData _ _ cam;
              predCameraData := predCameraData _ _ cam;
              predictCamera := true |}, acts, []).
Proof.
  intros Hpred. unfold slReflexGetPredictedCameraData.
  destruct (stored N frame (predCameraData _ _ cam)) as [v|] eqn:Hst.
  - apply ReflexProofs.stored_Some in Hst.
    rewrite (ReflexProofs.getCameraData_immediate N frame v [] _ Hst).
    simpl. by eexists _, _, _.
  - rewrite (ReflexProofs.getCameraData_alone N N_pos frame _ Hpred Hst).
    simpl. by eexists _, _, _.
Qed.

(** X23.  The prediction is made on demand.  Until the first call of
    [slReflexGetPredictedCameraData], [slReflexSetCameraData] stores no
    prediction.  That first call switches the prediction on, whatever it
    returns; the next [slReflexSetCameraData] for a positive frame then
    stores the prediction made from its data and from the matrices of the
    call before it, and a query for that frame returns it. *)
Theorem prediction_starts_with_the_first_query
    (ctx : Context) f1 d1 l1 g out f2 d2 l2 :
  compute _ _ _ ctx = true → setStatsMarker _ _ _ ctx = true →
  ring_sized N (sim_of ctx) → ring_sized N (pred_of ctx) →
  predicting ctx = false →
  0 < f2 → stored N f2 (pred_of ctx) = None →
  ∃ ctx1 events1 res out' cam2 acts ctx3 events3,
    SetCameraData f1 d1 l1 ctx = Some (Ret (eOk, ctx1, events1))
    ∧ pred_of ctx1 = pred_of ctx
    ∧ GetPredictedCameraData g out [] (camera_of ctx1)
      = Ret (res, out', cam2, acts, [])
    ∧ SetCameraData f2 d2 l2 (with_camera _ _ _ ctx1 cam2)
      = Some (Ret (eOk, ctx3, events3))
    ∧ GetPredictedCameraData f2 out [] (camera_of ctx3)
      = Ret (eOk,
             predictCameraData l2 d2 (worldToViewMatrix d1)
               (viewToClipMatrix d1),
             camera_of ctx3, [], []).
Proof.
  intros Hc Hm Hsim Hpred Hoff Hpos Hnew.
  destruct (slReflexSetCameraData_returns ctx f1 d1 l1 Hc Hm Hsim Hpred)
    as (pred1 & sim1 & acts1 & acts1' & Epred1 & _ & _ & Hsim1 & E1).
  rewrite Hoff in Epred1. simpl in Epred1. injection Epred1 as <- <-.
  rewrite Hoff in E1.
  set (ctx1 := {| camera := {| simCameraData := sim1;
                               predCameraData := pred_of ctx;
                               predictCamera := false |};
                  prevWorldToViewMatrix := worldToViewMatrix d1;
                  prevViewToClipMatrix := viewToClipMatrix d1;
                  compute := true; setStatsMarker := true |}) in *.
  destruct (slReflexGetPredictedCameraData_alone (camera_of ctx1) g out)
    as (res & out' & acts & E2); [exact Hpred|].
  simpl in E2.
  set (cam2 := {| simCameraData := sim1; predCameraData := pred_of ctx;
                  predictCamera := true |}) in *.
  destruct (slReflexSetCameraData_returns
              (with_camera _ _ _ ctx1 cam2) f2 d2 l2 eq_refl eq_refl
              Hsim1 Hpred)
    as (pred3 & sim3 & acts3 & acts3' & Epred3 & _ & _ & _ & E3).
  simpl in Epred3. destruct (Z.ltb_spec 0 f2) as [_|?]; [|lia].
  exists ctx1. eexists _, res, out', cam2, acts, _, _.
  split; [exact E1|]. split; [reflexivity|]. split; [exact E2|].
  split; [exact E3|]. simpl.
  apply (ReflexProofs.stored_None N N_pos _ _ Hpred) in Hnew
    as (g0 & d0 & Hslot & Hne).
  destruct (ReflexProofs.insert_cases N N_pos f2
              (predictCameraData l2 d2 (worldToViewMatrix d1)
                 (viewToClipMatrix d1)) _ Hpred)
    as (g' & d' & Hslot' & [[? _]|[(_ & -> & _)|(_ & _ & Ei)]]);
    [lia|congruence|].
  rewrite Ei in Epred3. injection Epred3 as <- _.
  unfold slReflexGetPredictedCameraData. simpl.
  rewrite (ReflexProofs.getCameraData_immediate N f2
             (predictCameraData l2 d2 (worldToViewMatrix d1)
                (viewToClipMatrix d1))); [reflexivity|].
  simpl. apply list_lookup_insert_eq. by apply lookup_lt_is_Some_1.
Qed.

End SetCameraData.

(** ** [updateEmbeddedJSON] *)

Section EmbeddedJSON.

Variable NV_GPU_ARCHITECTURE_GM000 : Z.

Local Abbreviation for_adapters :=
  (ReflexEntry.for_adapters NV_GPU_ARCHITECTURE_GM000).

Lemma for_adapters_spec (caps : SystemCaps) (turns : nat) (i : Z)
    (ctx : Availability) :
  0 ≤ i → i + Z.of_nat turns ≤ Z.of_nat (length (adapters caps)) →
  i + Z.of_nat turns < 2 ^ 32 →
  ∃ ctx',
    for_adapters caps turns i ctx = Some ctx'
    ∧ (lowLatencyAvailable ctx' = true
       ↔ lowLatencyAvailable ctx = true
         ∨ ∃ j adapter, i ≤ j < i + Z.of_nat turns
             ∧ adapters caps !! Z.to_nat j = Some adapter
             ∧ NV_GPU_ARCHITECTURE_GM000 ≤ architecture adapter)
    ∧ latencyReportAvailable ctx' = latencyReportAvailable ctx
    ∧ (flashIndicatorDriverControlled ctx' = true
       ↔ flashIndicatorDriverControlled ctx = true
         ∨ (0 < Z.of_nat turns
            ∧ 51123 ≤ u32 (driverVersionMajor caps * 100
                           + driverVersionMinor caps))).
Proof.
  revert i ctx. induction turns as [|turns IH]; intros i ctx Hi Hlen Hfit.
  - exists ctx. split; [reflexivity|]. split; [|split; [reflexivity|]].
    + split; [auto|]. intros [H|(j & a & Hj & _)]; [exact H|lia].
    + split; [auto|]. intros [H|[Hlt _]]; [exact H|lia].
  - cbn [ReflexEntry.for_adapters].
    destruct (lookup_lt_is_Some_2 (adapters caps) (Z.to_nat i))
      as [adapter Hadapter]; [lia|].
    rewrite Hadapter.
    assert (u32 (i + 1) = i + 1) as -> by (apply Z.mod_small; lia).
    edestruct (IH (i + 1)) as (ctx' & E & Hlow & Hrep & Hflash);
      [lia|lia|lia|].
    exists ctx'. split; [exact E|]. cbn in Hlow, Hrep, Hflash.
    split; [|split; [exact Hrep|]].
    + rewrite Hlow, orb_true_iff, Z.leb_le. split.
      * intros [[H|H]|(j & a & Hj & Ha & Harch)]; [by left|..].
        -- right. exists i, adapter. repeat split; [lia|lia|done|done].
        -- right. exists j, a. repeat split; [lia|lia|done|done].
      * intros [H|(j & a & Hj & Ha & Harch)]; [by left; left|].
        destruct (decide (j = i)) as [->|Hne].
        -- left. right. rewrite Hadapter in Ha. by injection Ha as ->.
        -- right. exists j, a. repeat split; [lia|lia|done|done].
    + rewrite Hflash, orb_true_iff, Z.leb_le. split.
      * intros [[H|H]|[_ H]]; [by left|right; split; [lia|done]..].
      * intros [H|[_ H]]; [by left; left|by left; right].
Qed.

(** X24.  [updateEmbeddedJSON], with the capabilities of the system at hand and
    no more GPUs counted than there are adapters: low latency is reported
    as available exactly when the major version of the driver is above
    455 and one of the counted adapters is of the architecture [GM000] or
    a later one; the flash indicator is the driver's exactly when the
    major version is above 455, a GPU is counted and [major * 100 + minor]
    is at least 51123; the latency report is never reported as
    available; [config] gets the two flags. *)
Theorem low_latency_needs_a_driver_above_455 (caps : SystemCaps)
    (updateCommonEmbeddedJSONConfig : bool) :
  0 ≤ gpuCount caps < 2 ^ 32 →
  gpuCount caps ≤ Z.of_nat (length (adapters caps)) →
  ∃ ctx config,
    updateEmbeddedJSON NV_GPU_ARCHITECTURE_GM000 (Some caps)
      updateCommonEmbeddedJSONConfig
    = Some (ctx, config, updateCommonEmbeddedJSONConfig)
    ∧ (lowLatencyAvailable ctx = true
       ↔ 455 < driverVersionMajor caps
         ∧ ∃ j adapter, 0 ≤ j < gpuCount caps
             ∧ adapters caps !! Z.to_nat j = Some adapter
             ∧ NV_GPU_ARCHITECTURE_GM000 ≤ architecture adapter)
    ∧ (flashIndicatorDriverControlled ctx = true
       ↔ 455 < driverVersionMajor caps ∧ 0 < gpuCount caps
         ∧ 51123 ≤ u32 (driverVersionMajor caps * 100
                        + driverVersionMinor caps))
    ∧ latencyReportAvailable ctx = false
    ∧ reflex_lowLatencyAvailable config = lowLatencyAvailable ctx
    ∧ reflex_flashIndicatorDriverControlled config
      = flashIndicatorDriverControlled ctx.
Proof.
  intros Hcount Hlen. unfold updateEmbeddedJSON.
  destruct (Z.ltb_spec 455 (driverVersionMajor caps)) as [Hnew|Hold].
  - edestruct (for_adapters_spec caps (Z.to_nat (gpuCount caps)) 0)
      as (ctx & E & Hlow & Hrep & Hflash); [lia|lia|lia|].
    rewrite E. simpl. eexists _, _. split; [reflexivity|]. simpl.
    rewrite Z2Nat.id in Hlow, Hflash by lia. simpl in Hlow, Hrep, Hflash.
    split; [|split; [|split; [exact Hrep|split; reflexivity]]].
    + rewrite Hlow. split.
      * intros [H|H]; [discriminate H|by split].
      * intros [_ H]. by right.
    + rewrite Hflash. split.
      * intros [H|H]; [discriminate H|by split].
      * intros [_ H]. by right.
  - simpl. eexists _, _. split; [reflexivity|]. simpl.
    split; [|split; [|split; [reflexivity|split; reflexivity]]];
      (split; [intros H; discriminate H|intros [H _]; lia]).
Qed.

End EmbeddedJSON.

Lemma set_camera_data_succeeds_whatever_it_stores_witness :
  (true && true = false →
   ReflexScenario.SetCameraData 0 7 () ReflexScenario.started = None)
  ∧ (true && true = true →
     ∃ ctx' events,
       ReflexScenario.SetCameraData 0 7 () ReflexScenario.started
       = Some (Ret (eOk, ctx',
                    setReflexMarker eCameraConstructed 0
                    :: setStatsMarkerFunc eCameraConstructed 0 :: events))
       ∧ prevWorldToViewMatrix _ _ _ ctx' = 7
       ∧ prevViewToClipMatrix _ _ _ ctx' = 7
       ∧ (0 ≤ 0 → camera _ _ _ ctx' = camera _ _ _ ReflexScenario.started)).
Proof.
  apply (set_camera_data_succeeds_whatever_it_stores Z Z Z unit id id
           ReflexScenario.predict 4 ltac:(lia) ReflexScenario.started
           0 7 ()); reflexivity.
Defined.

Lemma camera_data_set_are_read_back_witness :
  ∃ ctx' events,
    ReflexScenario.SetCameraData 3 7 () ReflexScenario.started
    = Some (Ret (eOk, ctx', events))
    ∧ ∀ out env,
        slReflexGetCameraDataInternal Z Z 4 3 out env (camera _ _ _ ctx')
        = Ret (eOk, 7, camera _ _ _ ctx', [], env).
Proof.
  apply (camera_data_set_are_read_back Z Z Z unit id id
           ReflexScenario.predict 4 ltac:(lia) ReflexScenario.started
           3 7 ()); (reflexivity || lia).
Defined.

Lemma prediction_starts_with_the_first_query_witness :
  ∃ ctx1 events1 res out' cam2 acts ctx3 events3,
    ReflexScenario.SetCameraData 1 10 () ReflexScenario.started
    = Some (Ret (eOk, ctx1, events1))
    ∧ predCameraData _ _ (camera _ _ _ ctx1)
      = predCameraData _ _ (camera _ _ _ ReflexScenario.started)
    ∧ slReflexGetPredictedCameraData Z Z 4 1 0 [] (camera _ _ _ ctx1)
      = Ret (res, out', cam2, acts, [])
    ∧ ReflexScenario.SetCameraData 2 20 () (with_camera _ _ _ ctx1 cam2)
      = Some (Ret (eOk, ctx3, events3))
    ∧ slReflexGetPredictedCameraData Z Z 4 2 0 [] (camera _ _ _ ctx3)
      = Ret (eOk, ReflexScenario.predict () 20 (id 10) (id 10),
             camera _ _ _ ctx3, [], []).
Proof.
  apply (prediction_starts_with_the_first_query Z Z Z unit id id
           ReflexScenario.predict 4 ltac:(lia) ReflexScenario.started
           1 10 () 1 0 2 20 ()); (reflexivity || lia).
Defined.

Lemma low_latency_needs_a_driver_above_455_witness :
  ∃ ctx config,
    updateEmbeddedJSON 272 (Some ReflexScenario.caps) true
    = Some (ctx, config, true)
    ∧ (lowLatencyAvailable ctx = true
       ↔ 455 < 560
         ∧ ∃ j adapter, 0 ≤ j < 2
             ∧ adapters ReflexScenario.caps !! Z.to_nat j = Some adapter
             ∧ 272 ≤ architecture adapter)
    ∧ (flashIndicatorDriverControlled ctx = true
       ↔ 455 < 560 ∧ 0 < 2 ∧ 51123 ≤ u32 (560 * 100 + 94))
    ∧ latencyReportAvailable ctx = false
    ∧ reflex_lowLatencyAvailable config = lowLatencyAvailable ctx
    ∧ reflex_flashIndicatorDriverControlled config
      = flashIndicatorDriverControlled ctx.
Proof.
  apply (low_latency_needs_a_driver_above_455 272 ReflexScenario.caps true);
    simpl; lia.
Defined.

End ReflexEntryProofs.
